(** * SigmaTest execution engine: a shallow embedding of src/src/sigtest.c

    Pointers into the process heap are modelled as indices into per-type
    stores ([w_sets], [w_cases], [w_hooks]); [None] is NULL.  Function
    pointers are modelled by the name of the function they point to.
    Floats are IEEE binary32 / binary64 values of [SpecFloat]. *)

From Stdlib Require Import ZArith String Ascii Lia.
From Stdlib Require Import Floats.SpecFloat.
From stdpp Require Import base list.

Open Scope string_scope.
Open Scope Z_scope.

(* ------------------------------------------------------------------ *)
(** ** Basic enums and C helpers *)

(** [TestState] (sigtest.h) *)
Inductive TestState := PASS | FAIL | SKIP.

Definition TestState_eqb (a b : TestState) : bool :=
  match a, b with
  | PASS, PASS | FAIL, FAIL | SKIP, SKIP => true
  | _, _ => false
  end.

(** [FuzzType] (fuzzing.h): its enumerators. *)
Inductive FuzzType := FUZZ_INT | FUZZ_SIZE_T | FUZZ_FLOAT | FUZZ_BYTE.

(** The value a [FuzzType] object holds, as [tc->fuzz_type] does: C lets
    an enum object hold any [int], so it is one of the enumerators or a
    value [v] that none of them has (not 0, 1, 2 or 3), which the
    [switch] of [FUZZING_INIT] sends to its [default:] branch. *)
Inductive FuzzTypeValue := FuzzEnum (t : FuzzType) | FuzzOther (v : Z).

(** A value of one of the fuzz datasets, as read through the [void *]
    handed to the fuzz body. *)
Inductive FuzzValue :=
| FVInt (z : Z)            (* int *)
| FVSize (z : Z)           (* size_t *)
| FVFloat (f : spec_float) (* float *)
| FVByte (z : Z).          (* signed char *)

(** IEEE formats of [float] and [double]. *)
Definition prec32 := 24.
Definition emax32 := 128.
Definition prec64 := 53.
Definition emax64 := 1024.

(** A decimal literal [m * 10^e10] correctly rounded to the format
    [(prec, emax)]: the exact quotient is rounded once by [SFdiv]. *)
Definition dec_lit (prec emax : Z) (neg : bool) (m : positive) (e10 : Z) : spec_float :=
  if 0 <=? e10 then binary_normalize prec emax (cond_Zopp neg (Zpos m * 10 ^ e10)) 0 neg
  else SFdiv prec emax (S754_finite neg m 0) (S754_finite false (Z.to_pos (10 ^ (- e10))) 0).

(** Conversion [double -> float] (round to nearest even). *)
Definition float_of_double (d : spec_float) : spec_float :=
  match d with
  | S754_finite s m e => binary_normalize prec32 emax32 (cond_Zopp s (Zpos m)) e s
  | S754_zero s => S754_zero s
  | S754_infinity s => S754_infinity s
  | S754_nan => S754_nan
  end.

(** A [double] literal such as [1.00000001] handed to a [float] parameter:
    rounded to [double] by the compiler, then converted to [float]. *)
Definition float_arg (m : positive) (e10 : Z) : spec_float :=
  float_of_double (dec_lit prec64 emax64 false m e10).

(** A [float] literal with suffix [f]. *)
Definition float_litf (neg : bool) (m : positive) (e10 : Z) : spec_float :=
  dec_lit prec32 emax32 neg m e10.

(** [FLT_EPSILON = 2^-23], [DBL_EPSILON = 2^-52]. *)
Definition FLT_EPSILON : spec_float := S754_finite false 1 (-23).
Definition DBL_EPSILON : spec_float := S754_finite false 1 (-52).

(** [fabs(a - b) > eps] in the given format. *)
Definition fdiff_gt (prec emax : Z) (a b eps : spec_float) : bool :=
  SFltb eps (SFabs (SFsub prec emax a b)).

(* ------------------------------------------------------------------ *)
(** ** printf conversions used in messages *)

Definition digit_char (d : Z) : ascii :=
  ascii_of_nat (Z.to_nat (if d <? 10 then 48 + d else 87 + d)).

(** Digits of a non-negative integer in base [b] ([fuel] bounds the length). *)
Fixpoint digits_rev (fuel : nat) (b n : Z) : string :=
  match fuel with
  | O => EmptyString
  | S f => let s := String (digit_char (n mod b)) EmptyString in
           if n <? b then s else append (digits_rev f b (n / b)) s
  end.

Definition utoa (b n : Z) : string := digits_rev 80 b n.

(** ["%d"] *)
Definition fmt_d (z : Z) : string :=
  if z <? 0 then append "-" (utoa 10 (- z)) else utoa 10 z.

(** ["%c"] *)
Definition fmt_c (z : Z) : string := String (ascii_of_nat (Z.to_nat (z mod 256))) EmptyString.

(** ["%p"] (glibc) *)
Definition fmt_p (z : Z) : string :=
  if z =? 0 then "(nil)" else append "0x" (utoa 16 z).

Fixpoint pad_zeros (n : nat) (s : string) : string :=
  match n with
  | O => s
  | S k => if (Nat.ltb (String.length s) n) then append "0" (pad_zeros k s) else s
  end.

(** ["%.5f"] on the exact binary value, rounded half to even. *)
Definition fmt_f5 (f : spec_float) : string :=
  match f with
  | S754_nan => "nan"
  | S754_infinity s => if s then "-inf" else "inf"
  | S754_zero s => if s then "-0.00000" else "0.00000"
  | S754_finite s m e =>
      let num := Zpos m * 100000 * (if 0 <=? e then 2 ^ e else 1) in
      let den := if 0 <=? e then 1 else 2 ^ (- e) in
      let q := num / den in
      let r := num mod den in
      let k := if (2 * r >? den) || ((2 * r =? den) && Z.odd q) then q + 1 else q in
      append (if s then "-" else "")
        (append (utoa 10 (k / 100000))
           (append "." (pad_zeros 5 (utoa 10 (k mod 100000)))))
  end.

(** [snprintf] into a buffer of [n] bytes keeps at most [n - 1] characters. *)
Definition trunc (n : nat) (s : string) : string := substring 0 (n - 1) s.

(** [snprintf(buf, 256, "%s\n    - %s", head, user_msg)] *)
Definition with_user_msg (head user_msg : string) : string :=
  trunc 256 (append head (append (String "010"%char EmptyString) (append "    - " user_msg))).

(* ------------------------------------------------------------------ *)
(** ** Assertions (the [Assert] interface) *)

(** The operands of [areEqual]/[areNotEqual]: the two [object]s read at
    the [AssertType] given with them; [OpUnsupported] is an [AssertType]
    value outside the enum. *)
Inductive Operands :=
| OpInt (e a : Z)
| OpLong (e a : Z)
| OpFloat (e a : spec_float)
| OpDouble (e a : spec_float)
| OpChar (e a : Z)
| OpPtr (e a : Z)
| OpString (e a : string)
| OpUnsupported.

(** One call of an [Assert] operation.  [user] is the formatted user
    message: [None] when [fmt] is NULL, otherwise the text produced by
    [format_msg(fmt, args)]. *)
Inductive Assertion :=
| IsTrue (condition : Z) (user : option string)
| IsFalse (condition : Z) (user : option string)
| IsNull (ptr : Z) (user : option string)
| IsNotNull (ptr : Z) (user : option string)
| AreEqual (ops : Operands) (user : option string)
| AreNotEqual (ops : Operands) (user : option string)
| FloatWithin (value min max : spec_float) (user : option string)
| StringEqual (expected actual : string) (case_sensitive : Z) (user : option string)
| Throw (user : option string)
| Fail (user : option string)
| Skip (user : option string).

(** [fmt ? format_msg(fmt, args) : ""], truncated to the 256-byte buffer. *)
Definition user_text (user : option string) : string :=
  match user with Some s => trunc 256 s | None => "" end.

Definition MESSAGE_TRUE_FAIL := "Expected true, but was false".
Definition MESSAGE_FALSE_FAIL := "Expected false, but was true".

(** The failure message of the simple assertions: the fixed text, or
    [snprintf(buf, 256, "%s\n    - %s", text, user_msg)]. *)
Definition fail_msg (head : string) (user : option string) : string :=
  let u := user_text user in
  if String.eqb u "" then head else with_user_msg head u.

(** [gen_equals_fail_msg] *)
Definition gen_equals_fail_msg (ops : Operands) (user : option string) : string :=
  let strs :=
    match ops with
    | OpInt e a => Some (fmt_d e, fmt_d a)
    | OpFloat e a | OpDouble e a => Some (fmt_f5 e, fmt_f5 a)
    | OpChar e a => Some (fmt_c e, fmt_c a)
    | OpString e a => Some (e, a)
    | OpPtr e a => Some (fmt_p e, fmt_p a)
    | OpLong _ _ | OpUnsupported => None
    end in
  match strs with
  | None => "Unsupported type for comparison"
  | Some (es, as_) =>
      let base := trunc 256 (append "Expected " (append (trunc 20 es)
                    (append ", but was " (trunc 20 as_)))) in
      let u := user_text user in
      if String.eqb u "" then base
      else trunc 256 (append base (append (String "010"%char EmptyString) (append "    - " u)))
  end.

(** [tolower] on ASCII *)
Definition tolower (c : ascii) : ascii :=
  let n := nat_of_ascii c in
  if (Nat.leb 65 n && Nat.leb n 90)%bool then ascii_of_nat (n + 32) else c.

Fixpoint map_string (f : ascii -> ascii) (s : string) : string :=
  match s with
  | EmptyString => EmptyString
  | String c r => String (f c) (map_string f r)
  end.

(** [strcmp(a, b) == 0] and [strcasecmp(a, b) == 0] *)
Definition str_equal (case_sensitive : Z) (a b : string) : bool :=
  if negb (case_sensitive =? 0) then String.eqb a b
  else String.eqb (map_string tolower a) (map_string tolower b).

(** The (state, message) each assertion hands to [set_test_context]. *)
Definition assert_outcome (a : Assertion) : TestState * option string :=
  match a with
  | IsTrue c u => if c =? 0 then (FAIL, Some (fail_msg MESSAGE_TRUE_FAIL u)) else (PASS, None)
  | IsFalse c u => if negb (c =? 0) then (FAIL, Some (fail_msg MESSAGE_FALSE_FAIL u)) else (PASS, None)
  | IsNull p u => if negb (p =? 0) then (FAIL, Some (fail_msg "Pointer is not NULL" u)) else (PASS, None)
  | IsNotNull p u => if p =? 0 then (FAIL, Some (fail_msg "Pointer is NULL" u)) else (PASS, None)
  | AreEqual ops u =>
      let differ :=
        match ops with
        | OpInt e a | OpLong e a | OpChar e a | OpPtr e a => Some (negb (e =? a))
        | OpFloat e a => Some (fdiff_gt prec32 emax32 e a FLT_EPSILON)
        | OpDouble e a => Some (fdiff_gt prec64 emax64 e a DBL_EPSILON)
        | OpString _ _ | OpUnsupported => None
        end in
      match differ, ops with
      | Some true, _ => (FAIL, Some (gen_equals_fail_msg ops u))
      | Some false, _ => (PASS, None)
      | None, OpString _ _ => (FAIL, Some "Use Assert.stringEqual for string comparison")
      | None, _ => (FAIL, Some "Unsupported type for comparison")
      end
  | AreNotEqual ops u =>
      let same :=
        match ops with
        | OpInt e a | OpChar e a | OpPtr e a => Some (e =? a)
        | OpFloat e a => Some (SFleb (SFabs (SFsub prec32 emax32 e a)) FLT_EPSILON)
        | OpDouble e a => Some (SFleb (SFabs (SFsub prec64 emax64 e a)) DBL_EPSILON)
        | OpLong _ _ | OpString _ _ | OpUnsupported => None
        end in
      match same, ops with
      | Some true, _ => (FAIL, Some (gen_equals_fail_msg ops u))
      | Some false, _ => (PASS, None)
      | None, OpString _ _ => (FAIL, Some "Use Assert.stringEqual for string comparison")
      | None, _ => (FAIL, Some "Unsupported type for comparison")
      end
  | FloatWithin v lo hi u =>
      if (SFltb v lo || SFltb hi v)%bool then (FAIL, Some (fail_msg "Value out of range" u))
      else (PASS, None)
  | StringEqual e a cs u =>
      if str_equal cs e a then (PASS, None)
      else (FAIL, Some (gen_equals_fail_msg (OpString e a) u))
  | Throw u => (FAIL, Some (fail_msg "Explicit throw triggered" u))
  | Fail u => (FAIL, Some (fail_msg "Explicit failure triggered" u))
  | Skip u => (SKIP, Some (fail_msg "Testcase skipped" u))
  end.

(* ------------------------------------------------------------------ *)
(** ** Heap objects: test cases, test sets, hook bundles *)

(** A function pointer, named by the function it points to. *)
Definition Callback := string.

(** A statement of a test body: a call of an [Assert] operation, or any
    other code, observed as [EvCode n] when it runs. *)
Inductive Stmt :=
| SAssert (a : Assertion)
| SCode (n : nat).

(** [struct st_case_s] (sigtest.c); [func] is the union of a plain body
    ([TestFunc]) and a fuzz body ([FuzzyFunc]) taking the input value. *)
Record TestCase := mkTestCase {
  tc_name : string;
  tc_state : TestState;          (* info.result.state *)
  tc_message : option string;    (* info.result.message *)
  tc_has_next : bool;            (* info.has_next *)
  func_test : list Stmt;         (* func.test *)
  func_fuzz : FuzzValue -> list Stmt; (* func.fuzz *)
  expect_fail : bool;
  expect_throw : bool;
  is_fuzz : bool;
  fuzz_type : FuzzTypeValue;
  tc_next : option nat
}.

(** [struct st_set_s] (sigtest.c); the log stream and logger are left out. *)
Record TestSet := mkTestSet {
  ts_name : string;
  ts_tc_info : option nat;       (* info.tc_info *)
  ts_count : Z;
  ts_passed : Z;
  ts_failed : Z;
  ts_skipped : Z;
  ts_cleanup : option Callback;
  ts_setup : option Callback;
  ts_teardown : option Callback;
  ts_cases : option nat;
  ts_tail : option nat;
  ts_current : option nat;
  ts_next : option nat;
  ts_hooks : option nat
}.

(** [struct st_hooks_s]: the callback slots, and whether [context] is
    non-NULL (what it points to is opaque). *)
Record st_hooks := mkHooks {
  h_name : string;
  before_set : option Callback;
  after_set : option Callback;
  before_test : option Callback;
  after_test : option Callback;
  on_start_test : option Callback;
  on_end_test : option Callback;
  on_error : option Callback;
  on_test_result : option Callback;
  on_set_summary : option Callback;
  on_memory_alloc : option Callback;
  on_memory_free : option Callback;
  on_debug_log : option Callback;
  h_context : bool               (* context != NULL *)
}.

(** What the process does, in order. *)
Inductive Event :=
| EvCode (n : nat)                        (* body code other than an assertion *)
| EvHook (cb : Callback)                  (* a hook callback is called *)
| EvResult (cb : Callback) (st : TestState) (* on_test_result for a case in state st *)
| EvTally (st : TestState)                (* the pass/fail/skip counters are incremented *)
| EvSetup (f : Callback)                  (* the set's per-case setup runs *)
| EvTeardown (f : Callback)               (* the set's per-case teardown runs *)
| EvCleanup (f : Callback)                (* the set's cleanup runs *)
| EvFuzzValue (v : FuzzValue)             (* writef("value = %-10.3s", ...) *)
| EvLog (s : string).                     (* any other text written *)

(** The process state: the heap and the globals of sigtest.c. *)
Record World := mkWorld {
  w_sets : list TestSet;
  w_cases : list TestCase;
  w_hooks : list st_hooks;
  test_sets : option nat;
  current_set : option nat;
  hook_registry : list (option nat); (* the HookRegistry entries' [hooks], head first *)
  current_hooks : option nat;
  w_trace : list Event
}.

Definition emit (e : Event) (w : World) : World :=
  mkWorld (w_sets w) (w_cases w) (w_hooks w) (test_sets w) (current_set w)
          (hook_registry w) (current_hooks w) (w_trace w ++ [e]).

Definition set_cases (cs : list TestCase) (w : World) : World :=
  mkWorld (w_sets w) cs (w_hooks w) (test_sets w) (current_set w)
          (hook_registry w) (current_hooks w) (w_trace w).

Definition set_sets (ss : list TestSet) (w : World) : World :=
  mkWorld ss (w_cases w) (w_hooks w) (test_sets w) (current_set w)
          (hook_registry w) (current_hooks w) (w_trace w).

Definition set_hook_store (hs : list st_hooks) (w : World) : World :=
  mkWorld (w_sets w) (w_cases w) hs (test_sets w) (current_set w)
          (hook_registry w) (current_hooks w) (w_trace w).

Definition set_globals (ts cs : option nat) (ch : option nat) (w : World) : World :=
  mkWorld (w_sets w) (w_cases w) (w_hooks w) ts cs (hook_registry w) ch (w_trace w).

Definition with_result (st : TestState) (msg : option string) (c : TestCase) : TestCase :=
  mkTestCase (tc_name c) st msg (tc_has_next c) (func_test c) (func_fuzz c)
             (expect_fail c) (expect_throw c) (is_fuzz c) (fuzz_type c) (tc_next c).

Definition with_next (n : option nat) (c : TestCase) : TestCase :=
  mkTestCase (tc_name c) (tc_state c) (tc_message c) (tc_has_next c) (func_test c) (func_fuzz c)
             (expect_fail c) (expect_throw c) (is_fuzz c) (fuzz_type c) n.

Definition with_has_next (b : bool) (c : TestCase) : TestCase :=
  mkTestCase (tc_name c) (tc_state c) (tc_message c) b (func_test c) (func_fuzz c)
             (expect_fail c) (expect_throw c) (is_fuzz c) (fuzz_type c) (tc_next c).

(** Write [f c] to the case at pointer [p]; [None] for a dangling pointer. *)
Definition update_case (p : nat) (f : TestCase -> TestCase) (w : World) : option World :=
  match w_cases w !! p with
  | Some c => Some (set_cases (<[p := f c]> (w_cases w)) w)
  | None => None
  end.

Definition update_set (p : nat) (f : TestSet -> TestSet) (w : World) : option World :=
  match w_sets w !! p with
  | Some s => Some (set_sets (<[p := f s]> (w_sets w)) w)
  | None => None
  end.

(* ------------------------------------------------------------------ *)
(** ** [set_test_context] and the abrupt unwind *)

(** [set_test_context(result, message)]: returns the new world and whether
    [longjmp(jmpbuffer, 1)] is taken.  [None] is a dangling pointer. *)
Definition set_test_context (result : TestState) (message : option string) (w : World)
  : option (World * bool) :=
  match current_set w with
  | None => Some (w, false)
  | Some sp =>
      match w_sets w !! sp with
      | None => None
      | Some s =>
          match ts_current s with
          | None => Some (w, false)
          | Some cp =>
              match update_case cp (with_result result message) w with
              | None => None
              | Some w' => Some (w', negb (TestState_eqb result PASS))
              end
          end
      end
  end.

(** Calling one [Assert] operation. *)
Definition run_assertion (a : Assertion) (w : World) : option (World * bool) :=
  let '(st, msg) := assert_outcome a in set_test_context st msg w.

(** Running a test body up to its end or up to the [longjmp]; the boolean
    tells whether the body was left by the unwind. *)
Fixpoint exec_body (b : list Stmt) (w : World) : option (World * bool) :=
  match b with
  | [] => Some (w, false)
  | SCode n :: rest => exec_body rest (emit (EvCode n) w)
  | SAssert a :: rest =>
      match run_assertion a w with
      | None => None
      | Some (w', true) => Some (w', true)
      | Some (w', false) => exec_body rest w'
      end
  end.

(* ------------------------------------------------------------------ *)
(** ** Fuzz datasets (fuzzing.h) *)

Definition INT_MIN := - 2 ^ 31.
Definition INT_MAX := 2 ^ 31 - 1.
Definition SIZE_MAX := 2 ^ 64 - 1.
Definition SCHAR_MIN := -128.
Definition SCHAR_MAX := 127.
(** [FLT_MAX = (2^24 - 1) * 2^104] *)
Definition FLT_MAX : spec_float := S754_finite false (2 ^ 24 - 1) 104.

Definition fuzz_int_values : list Z :=
  [INT_MIN; INT_MIN + 1; -1; 0; 1; INT_MAX - 1; INT_MAX].
Definition fuzz_size_t_values : list Z :=
  [0; 1; SIZE_MAX / 2; SIZE_MAX - 1; SIZE_MAX].
Definition fuzz_float_values : list spec_float :=
  [S754_infinity true; SFopp FLT_MAX; float_litf true 1 0; S754_zero true;
   S754_zero false; float_litf false 1 0; FLT_MAX; S754_infinity false; S754_nan;
   float_litf false 117549435 (-46); float_litf true 117549435 (-46)].
Definition fuzz_byte_values : list Z :=
  [SCHAR_MIN; -1; 0; 1; SCHAR_MAX].

(** The dataset selected at [FUZZING_INIT], as the values the body reads. *)
Definition fuzz_dataset (t : FuzzType) : list FuzzValue :=
  match t with
  | FUZZ_INT => map FVInt fuzz_int_values
  | FUZZ_SIZE_T => map FVSize fuzz_size_t_values
  | FUZZ_FLOAT => map FVFloat fuzz_float_values
  | FUZZ_BYTE => map FVByte fuzz_byte_values
  end.

(* ------------------------------------------------------------------ *)
(** ** The runner *)

(** [RunnerState] *)
Inductive RunnerState :=
| RUNNER_INIT | SET_LOOP | SET_INIT | BEFORE_SET | CASE_LOOP | CASE_INIT
| BEFORE_TEST | SETUP_TEST | START_TEST | EXECUTE_TEST | FUZZING_INIT
| END_TEST | TEARDOWN_TEST | AFTER_TEST | PROCESS_RESULT | AFTER_SET
| RUNNER_SUMMARY | RUNNER_DONE.

(** The locals of [run_tests]. *)
Record Machine := mkMachine {
  m_world : World;
  m_state : RunnerState;
  total_tests : Z;
  set_sequence : Z;
  total_sets : Z;
  m_hooks : option nat;      (* hooks *)
  set_iter : option nat;     (* current_set_iter *)
  tc_iter : option nat;      (* current_tc_iter *)
  m_tc : option nat;         (* tc *)
  tc_total : Z;
  tc_passed : Z;
  tc_failed : Z;
  tc_skipped : Z;
  m_return : option RunnerState (* the value of a [return] out of the loop *)
}.

Definition fill (d : Callback) (o : option Callback) : option Callback :=
  match o with Some f => Some f | None => Some d end.

(** The back-filling of [runner_init]. *)
Definition backfill (h : st_hooks) : st_hooks :=
  mkHooks (h_name h) (before_set h) (after_set h)
    (fill "default_before_test" (before_test h))
    (fill "default_after_test" (after_test h))
    (fill "default_on_start_test" (on_start_test h))
    (fill "default_on_end_test" (on_end_test h))
    (fill "default_on_error" (on_error h))
    (fill "default_on_test_result" (on_test_result h))
    (on_set_summary h) (on_memory_alloc h) (on_memory_free h) (on_debug_log h) (h_context h).

(** The loop of [runner_init] over the registered sets: returns the world,
    [total_sets] and [hooks].  Running out of [fuel] is a cyclic list. *)
Fixpoint runner_init_loop (fuel : nat) (set : option nat) (test_hooks : option nat)
    (total : Z) (hooks : option nat) (w : World) : option (World * Z * option nat) :=
  match set with
  | None => Some (w, total, hooks)
  | Some sp =>
      match fuel with
      | O => None
      | S fuel' =>
          s ← w_sets w !! sp;
          let hooks' :=
            match test_hooks, ts_hooks s with
            | None, None =>
                match hook_registry w with
                | Some h :: _ => Some h
                | _ => hooks
                end
            | Some th, _ => Some th
            | None, Some sh => Some sh
            end in
          let w1 := set_globals (test_sets w) (current_set w) hooks' w in
          w2 ← match hooks' with
               | None => Some w1
               | Some hp =>
                   h ← w_hooks w1 !! hp;
                   Some (set_hook_store (<[hp := backfill h]> (w_hooks w1)) w1)
               end;
          runner_init_loop fuel' (ts_next s) test_hooks (total + 1) hooks' w2
      end
  end.

Definition runner_init (sets test_hooks : option nat) (w : World)
  : option (World * Z * option nat) :=
  runner_init_loop (S (length (w_sets w))) sets test_hooks 0 None w.

(** Field updates of the runner's locals. *)
Definition m_with_world (w : World) (m : Machine) : Machine :=
  mkMachine w (m_state m) (total_tests m) (set_sequence m) (total_sets m) (m_hooks m)
    (set_iter m) (tc_iter m) (m_tc m) (tc_total m) (tc_passed m) (tc_failed m) (tc_skipped m)
    (m_return m).
Definition m_goto (st : RunnerState) (m : Machine) : Machine :=
  mkMachine (m_world m) st (total_tests m) (set_sequence m) (total_sets m) (m_hooks m)
    (set_iter m) (tc_iter m) (m_tc m) (tc_total m) (tc_passed m) (tc_failed m) (tc_skipped m)
    (m_return m).
Definition m_with_init (tot : Z) (hooks : option nat) (m : Machine) : Machine :=
  mkMachine (m_world m) (m_state m) (total_tests m) (set_sequence m) tot hooks
    (set_iter m) (tc_iter m) (m_tc m) (tc_total m) (tc_passed m) (tc_failed m) (tc_skipped m)
    (m_return m).
Definition m_with_sequence (n : Z) (m : Machine) : Machine :=
  mkMachine (m_world m) (m_state m) (total_tests m) n (total_sets m) (m_hooks m)
    (set_iter m) (tc_iter m) (m_tc m) (tc_total m) (tc_passed m) (tc_failed m) (tc_skipped m)
    (m_return m).
Definition m_with_set_iter (i : option nat) (m : Machine) : Machine :=
  mkMachine (m_world m) (m_state m) (total_tests m) (set_sequence m) (total_sets m) (m_hooks m)
    i (tc_iter m) (m_tc m) (tc_total m) (tc_passed m) (tc_failed m) (tc_skipped m)
    (m_return m).
Definition m_with_tc_iter (i : option nat) (m : Machine) : Machine :=
  mkMachine (m_world m) (m_state m) (total_tests m) (set_sequence m) (total_sets m) (m_hooks m)
    (set_iter m) i (m_tc m) (tc_total m) (tc_passed m) (tc_failed m) (tc_skipped m)
    (m_return m).
Definition m_with_tc (t : option nat) (m : Machine) : Machine :=
  mkMachine (m_world m) (m_state m) (total_tests m) (set_sequence m) (total_sets m) (m_hooks m)
    (set_iter m) (tc_iter m) t (tc_total m) (tc_passed m) (tc_failed m) (tc_skipped m)
    (m_return m).
Definition m_with_counts (tot tp tf ts tt : Z) (m : Machine) : Machine :=
  mkMachine (m_world m) (m_state m) tt (set_sequence m) (total_sets m) (m_hooks m)
    (set_iter m) (tc_iter m) (m_tc m) tot tp tf ts (m_return m).

(** [return st;] out of the loop of [run_tests]: the loop ends there. *)
Definition m_return_with (st : RunnerState) (m : Machine) : Machine :=
  mkMachine (m_world m) RUNNER_DONE (total_tests m) (set_sequence m) (total_sets m) (m_hooks m)
    (set_iter m) (tc_iter m) (m_tc m) (tc_total m) (tc_passed m) (tc_failed m) (tc_skipped m)
    (Some st).

Definition with_message (msg : option string) (c : TestCase) : TestCase :=
  with_result (tc_state c) msg c.

Definition set_counts (passed failed skipped : Z) (tc_info : option nat) (s : TestSet) : TestSet :=
  mkTestSet (ts_name s) tc_info (ts_count s) passed failed skipped (ts_cleanup s)
    (ts_setup s) (ts_teardown s) (ts_cases s) (ts_tail s) (ts_current s) (ts_next s) (ts_hooks s).

Definition set_current (cur : option nat) (s : TestSet) : TestSet :=
  mkTestSet (ts_name s) (ts_tc_info s) (ts_count s) (ts_passed s) (ts_failed s) (ts_skipped s)
    (ts_cleanup s) (ts_setup s) (ts_teardown s) (ts_cases s) (ts_tail s) cur (ts_next s) (ts_hooks s).

Definition newline : string := String "010"%char EmptyString.

(** Call an optional hook slot: [EvHook cb] when set, [dflt] otherwise. *)
Definition call_hook (slot : option Callback) (dflt : list Event) (w : World) : World :=
  match slot with
  | Some cb => emit (EvHook cb) w
  | None => foldl (fun w e => emit e w) w dflt
  end.

(** [hooks->...]: dereferencing the active hook bundle. *)
Definition deref_hooks (m : Machine) : option st_hooks :=
  hp ← m_hooks m; w_hooks (m_world m) !! hp.

(** [hooks->context->info.logger = ...], done before [hooks] is tested:
    it faults when [context] is NULL. *)
Definition set_context_logger (h : st_hooks) : option unit :=
  if h_context h then Some tt else None.

(** The loop of [execute_fuzzing]: returns the world and [failed_count]. *)
Fixpoint fuzz_loop (tcp : nat) (body : FuzzValue -> list Stmt) (vals : list FuzzValue)
    (failed_count : Z) (w : World) : option (World * Z) :=
  match vals with
  | [] => Some (w, failed_count)
  | v :: rest =>
      match exec_body (body v) (emit (EvFuzzValue v) w) with
      | None => None
      | Some (w2, true) =>
        c ← w_cases w2 !! tcp;
        let msg := match tc_message c with Some s => s | None => "Unknown failure" end in
        let w3 := emit (EvLog (append "Failed:" (append newline (append "  - " msg)))) w2 in
        w4 ← (match tc_message c with
              | Some _ => update_case tcp (with_message None) w3
              | None => Some w3
              end);
        fuzz_loop tcp body rest (failed_count + 1) w4
      | Some (w2, false) => fuzz_loop tcp body rest failed_count (emit (EvLog "Okay") w2)
      end
  end.

(** The aggregate message of a failed fuzz case. *)
Definition fuzz_summary (count failed_count : Z) : string :=
  append (fmt_d (count - failed_count)) (append " of " (append (fmt_d count) " fuzz iterations passed")).

(** [execute_fuzzing(tc, jmpbuffer, dataset, count, elem_size)] *)
Definition execute_fuzzing (tcp : nat) (dataset : list FuzzValue) (w : World) : option World :=
  c ← w_cases w !! tcp;
  match fuzz_loop tcp (func_fuzz c) dataset 0 w with
  | None => None
  | Some (w1, failed_count) =>
  if failed_count =? 0 then update_case tcp (with_result PASS None) w1
  else update_case tcp (with_result FAIL
         (Some (fuzz_summary (Z.of_nat (length dataset)) failed_count))) w1
  end.

(** Expectation inversion at the start of [process_result]. *)
Definition invert (c : TestCase) : TestState * option string :=
  if expect_fail c then
    match tc_state c with
    | FAIL => (PASS, match tc_message c with
                     | Some _ => Some "Expected failure occurred"
                     | None => None
                     end)
    | SKIP => (SKIP, tc_message c)
    | PASS => (FAIL, Some "Expected failure but passed")
    end
  else if expect_throw c then
    match tc_state c with
    | FAIL => (PASS, match tc_message c with
                     | Some _ => Some "Expected throw occurred"
                     | None => None
                     end)
    | SKIP => (SKIP, tc_message c)
    | PASS => (FAIL, Some "Expected throw but passed")
    end
  else (tc_state c, tc_message c).

(** The default [set->logger->log(...)] line of [process_result]. *)
Definition default_result_line (st : TestState) (msg : option string) : string :=
  match st with
  | PASS => append "[PASS]" newline
  | SKIP => append "[SKIP]" newline
  | FAIL => append "[FAIL]" (append newline (append "     "
              (match msg with Some s => s | None => "Unknown" end)))
  end.

(** [process_result(tc, current_set, hooks, ...)] *)
Definition process_result (m : Machine) : option Machine :=
  tcp ← m_tc m;
  sp ← current_set (m_world m);
  c ← w_cases (m_world m) !! tcp;
  let '(st, msg) := invert c in
  w1 ← update_case tcp (with_result st msg) (m_world m);
  h ← deref_hooks m;
  _ ← set_context_logger h;
  let w2 := match on_test_result h with
            | Some cb => emit (EvResult cb st) w1
            | None => emit (EvLog (default_result_line st msg)) w1
            end in
  s ← w_sets w2 !! sp;
  let '(tp, tf, tsk, sp', sf', ss') :=
    match st with
    | PASS => (tc_passed m + 1, tc_failed m, tc_skipped m, ts_passed s + 1, ts_failed s, ts_skipped s)
    | SKIP => (tc_passed m, tc_failed m, tc_skipped m + 1, ts_passed s, ts_failed s, ts_skipped s + 1)
    | FAIL => (tc_passed m, tc_failed m + 1, tc_skipped m, ts_passed s, ts_failed s + 1, ts_skipped s)
    end in
  w3 ← update_set sp (set_counts sp' sf' ss' (Some tcp)) w2;
  let w4 := emit (EvTally st) w3 in
  Some (m_with_counts (tc_total m + 1) tp tf tsk (total_tests m + 1) (m_with_world w4 m)).

(** [teardown_test(current_set)] *)
Definition teardown_test (w : World) : option World :=
  sp ← current_set w;
  s ← w_sets w !! sp;
  Some (match ts_teardown s with Some f => emit (EvTeardown f) w | None => w end).

(** [execute_test(tc, jmpbuffer)]: a plain body runs inside the [setjmp]
    boundary; a fuzz case goes on to [FUZZING_INIT]. *)
Definition execute_test (tcp : nat) (w : World) : option (World * RunnerState) :=
  c ← w_cases w !! tcp;
  if is_fuzz c then Some (w, FUZZING_INIT)
  else match exec_body (func_test c) w with
       | None => None
       | Some (w1, _) => Some (w1, END_TEST)
       end.

(** The header line of the default [before_set] (the timestamp is left out). *)
Definition set_header (seq : Z) (s : TestSet) : string :=
  append "[" (append (fmt_d seq) (append "] " (append (ts_name s)
    (append " : " (fmt_d (ts_count s)))))).

(** The statistics line of the default set summary. *)
Definition set_stats (seq tot p f sk : Z) : string :=
  append "[" (append (fmt_d seq) (append "]     TESTS=" (append (fmt_d tot)
    (append " PASS=" (append (fmt_d p) (append " FAIL=" (append (fmt_d f)
      (append " SKIP=" (fmt_d sk))))))))).

(** One iteration of the [while (state != RUNNER_DONE)] loop of
    [run_tests(sets, test_hooks)]. *)
Definition step (sets test_hooks : option nat) (m : Machine) : option Machine :=
  let w := m_world m in
  match m_state m with
  | RUNNER_INIT =>
      match runner_init sets test_hooks w with
      | None => None
      | Some (w1, tot, hooks) => Some (m_goto SET_LOOP (m_with_init tot hooks (m_with_world w1 m)))
      end
  | SET_LOOP =>
      match set_iter m with
      | None => Some (m_goto RUNNER_SUMMARY m)
      | Some sp =>
          let w1 := set_globals (test_sets w) (Some sp) (current_hooks w) w in
          Some (m_goto SET_INIT (m_with_sequence (set_sequence m + 1) (m_with_world w1 m)))
      end
  | SET_INIT =>
      sp ← set_iter m;
      _ ← w_sets w !! sp;
      let w1 := set_globals (test_sets w) (Some sp) (current_hooks w) w in
      Some (m_goto BEFORE_SET (m_with_counts 0 0 0 0 (total_tests m) (m_with_world w1 m)))
  | BEFORE_SET =>
      h ← deref_hooks m;
      _ ← set_context_logger h;
      sp ← current_set w;
      s ← w_sets w !! sp;
      let w1 := call_hook (before_set h) [EvLog (set_header (set_sequence m) s)] w in
      Some (m_goto CASE_LOOP (m_with_tc_iter (ts_cases s) (m_with_world w1 m)))
  | CASE_LOOP =>
      match tc_iter m with
      | None => Some (m_goto AFTER_SET m)
      | Some _ => Some (m_goto CASE_INIT m)
      end
  | CASE_INIT =>
      tcp ← tc_iter m;
      c ← w_cases w !! tcp;
      w1 ← update_case tcp (with_has_next (bool_decide (tc_next c ≠ None))) w;
      sp ← current_set w1;
      w2 ← update_set sp (set_current (Some tcp)) w1;
      Some (m_goto BEFORE_TEST (m_with_tc (Some tcp) (m_with_world w2 m)))
  | BEFORE_TEST =>
      h ← deref_hooks m;
      _ ← set_context_logger h;
      Some (m_goto SETUP_TEST (m_with_world (call_hook (before_test h) [] w) m))
  | SETUP_TEST =>
      sp ← current_set w;
      s ← w_sets w !! sp;
      let w1 := match ts_setup s with Some f => emit (EvSetup f) w | None => w end in
      Some (m_goto START_TEST (m_with_world w1 m))
  | START_TEST =>
      h ← deref_hooks m;
      _ ← set_context_logger h;
      let w1 := call_hook (on_start_test h) [EvHook "default_on_start_test"] w in
      Some (m_goto EXECUTE_TEST (m_with_world w1 m))
  | EXECUTE_TEST =>
      tcp ← m_tc m;
      match execute_test tcp w with
      | None => None
      | Some (w1, st) => Some (m_goto st (m_with_world w1 m))
      end
  | FUZZING_INIT =>
      tcp ← m_tc m;
      c ← w_cases w !! tcp;
      match fuzz_type c with
      | FuzzEnum t =>
          w1 ← execute_fuzzing tcp (fuzz_dataset t) w;
          Some (m_goto END_TEST (m_with_world w1 m))
      | FuzzOther _ =>
          w1 ← update_case tcp (with_result FAIL (Some "Invalid FuzzType in fuzz test")) w;
          Some (m_return_with END_TEST (m_with_world w1 m))
      end
  | END_TEST =>
      h ← deref_hooks m;
      _ ← set_context_logger h;
      Some (m_goto TEARDOWN_TEST (m_with_world (call_hook (on_end_test h) [] w) m))
  | TEARDOWN_TEST =>
      m1 ← process_result m;
      it ← tc_iter m1;
      c ← w_cases (m_world m1) !! it;
      w2 ← teardown_test (m_world m1);
      Some (m_goto AFTER_TEST (m_with_world w2 (m_with_tc_iter (tc_next c) m1)))
  | AFTER_TEST =>
      h ← deref_hooks m;
      _ ← set_context_logger h;
      Some (m_goto CASE_LOOP (m_with_world (call_hook (after_test h) [] w) m))
  | PROCESS_RESULT =>
      match tc_iter m with
      | None => Some (m_goto CASE_LOOP m)
      | Some it =>
          c ← w_cases w !! it;
          Some (m_goto CASE_LOOP (m_with_tc_iter (tc_next c) m))
      end
  | AFTER_SET =>
      h ← deref_hooks m;
      _ ← set_context_logger h;
      sp ← current_set w;
      s ← w_sets w !! sp;
      let w1 := call_hook (after_set h) [] w in
      let w2 := call_hook (on_set_summary h)
                  [EvLog (set_stats (set_sequence m) (tc_total m) (tc_passed m)
                                    (tc_failed m) (tc_skipped m))] w1 in
      let w3 := match ts_cleanup s with Some f => emit (EvCleanup f) w2 | None => w2 end in
      si ← set_iter m;
      s' ← w_sets w3 !! si;
      Some (m_goto SET_LOOP (m_with_set_iter (ts_next s') (m_with_world w3 m)))
  | RUNNER_SUMMARY =>
      sp ← sets;
      s ← w_sets w !! sp;
      let line := append "Tests run: " (append (fmt_d (total_tests m))
                    (append ", Passed: " (append (fmt_d (ts_passed s))
                    (append ", Failed: " (append (fmt_d (ts_failed s))
                    (append ", Skipped: " (fmt_d (ts_skipped s)))))))) in
      Some (m_goto RUNNER_DONE (m_with_world (emit (EvLog line) w) m))
  | RUNNER_DONE => Some m
  end.

Fixpoint run_loop (sets test_hooks : option nat) (fuel : nat) (m : Machine) : option Machine :=
  match m_state m with
  | RUNNER_DONE => Some m
  | _ => match fuel with
         | O => None
         | S fuel' => m' ← step sets test_hooks m; run_loop sets test_hooks fuel' m'
         end
  end.

(** [runner_done(sets)] *)
Definition runner_done (sets : option nat) (w : World) : option Z :=
  sp ← sets;
  s ← w_sets w !! sp;
  Some (if ts_failed s >? 0 then 1 else 0).

(** The locals of [run_tests] at entry ([current_set = NULL]). *)
Definition init_machine (sets : option nat) (w : World) : Machine :=
  mkMachine (set_globals (test_sets w) None (current_hooks w) w) RUNNER_INIT
    0 1 0 None sets None None 0 0 0 0 None.

(** Enough iterations for a registry whose lists are acyclic and disjoint. *)
Definition run_fuel (w : World) : nat :=
  4 + 6 * length (w_sets w) + 11 * length (w_sets w) * length (w_cases w).

(** The [int] value of an enumerator of [RunnerState].  The enum is
    declared in internal/runner_states.h, which is not among the sources
    modelled here; the model numbers the enumerators in the order the
    [switch] of [run_tests] lists them.  No property below depends on
    these values. *)
Definition RunnerState_to_int (st : RunnerState) : Z :=
  match st with
  | RUNNER_INIT => 0 | SET_LOOP => 1 | SET_INIT => 2 | BEFORE_SET => 3 | CASE_LOOP => 4
  | CASE_INIT => 5 | BEFORE_TEST => 6 | SETUP_TEST => 7 | START_TEST => 8
  | EXECUTE_TEST => 9 | FUZZING_INIT => 10 | END_TEST => 11 | TEARDOWN_TEST => 12
  | AFTER_TEST => 13 | PROCESS_RESULT => 14 | AFTER_SET => 15 | RUNNER_SUMMARY => 16
  | RUNNER_DONE => 17
  end.

(** [run_tests(sets, test_hooks)]: the exit status and the final world;
    after a [return] out of the loop, the value returned there. *)
Definition run_tests (sets test_hooks : option nat) (w : World) : option (Z * World) :=
  m ← run_loop sets test_hooks (run_fuel w) (init_machine sets w);
  match m_return m with
  | Some st => Some (RunnerState_to_int st, m_world m)
  | None =>
      code ← runner_done sets (m_world m);
      Some (code, m_world m)
  end.

(* ------------------------------------------------------------------ *)
(** ** Registration *)

(** [testset(name, config, cleanup)]: a fresh set becomes the head of
    [test_sets] and [current_set].  [__real_malloc] leaves the set's
    [hooks] field unwritten; the model reads it as NULL, i.e. it follows
    an allocator that returns zeroed memory.  With any other content the
    later [set->hooks] reads in [register_hooks] and [runner_init] are
    undefined behaviour, which the model does not cover. *)
Definition testset (name : string) (cleanup : option Callback) (w : World) : World :=
  let sp := length (w_sets w) in
  let s := mkTestSet name None 0 0 0 0 cleanup None None None None None (test_sets w) None in
  set_globals (Some sp) (Some sp) (current_hooks w) (set_sets (w_sets w ++ [s]) w).

(** [create_testcase(name)] with the fields the caller then sets
    ([fuzz_type] is left unset there; it is read only for a fuzz case,
    whose [fuzz_testcase] sets it). *)
Definition create_testcase (name : string) : TestCase :=
  mkTestCase name PASS None false [] (fun _ => []) false false false (FuzzEnum FUZZ_INT) None.

(** The common tail of the registration functions: make sure a set is
    current, append the fresh case [tc] to it and increment [count]. *)
Definition register_case (tc : TestCase) (w0 : World) : option World :=
  let w := match current_set w0 with
           | None => testset "default" None w0
           | Some _ => w0
           end in
  sp ← current_set w;
  s ← w_sets w !! sp;
  let n := length (w_cases w) in
  let w1 := set_cases (w_cases w ++ [tc]) w in
  match ts_cases s with
  | None =>
      update_set sp (fun s => mkTestSet (ts_name s) (ts_tc_info s) (ts_count s + 1)
        (ts_passed s) (ts_failed s) (ts_skipped s) (ts_cleanup s) (ts_setup s)
        (ts_teardown s) (Some n) (Some n) (ts_current s) (ts_next s) (ts_hooks s)) w1
  | Some _ =>
      tp ← ts_tail s;
      w2 ← update_case tp (with_next (Some n)) w1;
      update_set sp (fun s => mkTestSet (ts_name s) (ts_tc_info s) (ts_count s + 1)
        (ts_passed s) (ts_failed s) (ts_skipped s) (ts_cleanup s) (ts_setup s)
        (ts_teardown s) (ts_cases s) (Some n) (ts_current s) (ts_next s) (ts_hooks s)) w2
  end.

Definition with_func (body : list Stmt) (ef et : bool) (c : TestCase) : TestCase :=
  mkTestCase (tc_name c) (tc_state c) (tc_message c) (tc_has_next c) body (func_fuzz c)
             ef et (is_fuzz c) (fuzz_type c) (tc_next c).

(** [testcase(name, func)] *)
Definition testcase (name : string) (body : list Stmt) (w : World) : option World :=
  register_case (with_func body false false (create_testcase name)) w.

(** [fail_testcase(name, func)] *)
Definition fail_testcase (name : string) (body : list Stmt) (w : World) : option World :=
  register_case (with_func body true false (create_testcase name)) w.

(** [testcase_throws(name, func)] *)
Definition testcase_throws (name : string) (body : list Stmt) (w : World) : option World :=
  register_case (with_func body false true (create_testcase name)) w.

(** [fuzz_testcase(name, func, type)] *)
Definition fuzz_testcase (name : string) (f : FuzzValue -> list Stmt) (t : FuzzTypeValue)
    (w : World) : option World :=
  let c := create_testcase name in
  register_case (mkTestCase (tc_name c) (tc_state c) (tc_message c) (tc_has_next c)
                   (func_test c) f (expect_fail c) (expect_throw c) true t (tc_next c)) w.

Definition set_case_ops (setup teardown : option Callback) (s : TestSet) : TestSet :=
  mkTestSet (ts_name s) (ts_tc_info s) (ts_count s) (ts_passed s) (ts_failed s)
    (ts_skipped s) (ts_cleanup s) setup teardown (ts_cases s) (ts_tail s) (ts_current s)
    (ts_next s) (ts_hooks s).

(** [setup_testcase(setup)] *)
Definition setup_testcase (f : Callback) (w : World) : option World :=
  match current_set w with
  | None => Some w
  | Some sp => update_set sp (fun s => set_case_ops (Some f) (ts_teardown s) s) w
  end.

(** [teardown_testcase(teardown)] *)
Definition teardown_testcase (f : Callback) (w : World) : option World :=
  match current_set w with
  | None => Some w
  | Some sp => update_set sp (fun s => set_case_ops (ts_setup s) (Some f) s) w
  end.

(** A hook bundle defined by a hook implementation (a static object). *)
Definition define_hooks (h : st_hooks) (w : World) : World :=
  set_hook_store (w_hooks w ++ [h]) w.

(** [register_hooks(hooks)] *)
Definition register_hooks (hp : option nat) (w : World) : option World :=
  let w1 := mkWorld (w_sets w) (w_cases w) (w_hooks w) (test_sets w) (current_set w)
                    (hp :: hook_registry w) hp (w_trace w) in
  match current_set w1 with
  | None => Some w1
  | Some sp =>
      s ← w_sets w1 !! sp;
      match ts_hooks s with
      | Some _ => Some w1
      | None =>
          update_set sp (fun s => mkTestSet (ts_name s) (ts_tc_info s) (ts_count s)
            (ts_passed s) (ts_failed s) (ts_skipped s) (ts_cleanup s) (ts_setup s)
            (ts_teardown s) (ts_cases s) (ts_tail s) (ts_current s) (ts_next s) hp) w1
      end
  end.

(** [default_hooks] and the process state after [init_default_hooks]. *)
Definition default_hooks : st_hooks :=
  mkHooks "default" None None (Some "default_before_test") (Some "default_after_test")
    (Some "default_on_start_test") (Some "default_on_end_test") (Some "default_on_error")
    (Some "default_on_test_result") None None None (Some "default_on_debug_log") true.

Definition init_world : World := mkWorld [] [] [default_hooks] None None [Some 0%nat] None [].

(** One call of the registration surface. *)
Inductive RegOp :=
| RTestset (name : string) (cleanup : option Callback)
| RTestcase (name : string) (body : list Stmt)
| RFailTestcase (name : string) (body : list Stmt)
| RTestcaseThrows (name : string) (body : list Stmt)
| RFuzzTestcase (name : string) (f : FuzzValue -> list Stmt) (t : FuzzTypeValue)
| RSetup (f : Callback)
| RTeardown (f : Callback)
| RDefineHooks (h : st_hooks)
| RRegisterHooks (hp : option nat).

Definition reg_op (op : RegOp) (w : World) : option World :=
  match op with
  | RTestset n c => Some (testset n c w)
  | RTestcase n b => testcase n b w
  | RFailTestcase n b => fail_testcase n b w
  | RTestcaseThrows n b => testcase_throws n b w
  | RFuzzTestcase n f t => fuzz_testcase n f t w
  | RSetup f => setup_testcase f w
  | RTeardown f => teardown_testcase f w
  | RDefineHooks h => Some (define_hooks h w)
  | RRegisterHooks hp => register_hooks hp w
  end.

(** The process states reachable from start-up through registration
    calls and complete runs. *)
Inductive Reachable : World -> Prop :=
| reach_init : Reachable init_world
| reach_reg w op w' : Reachable w -> reg_op op w = Some w' -> Reachable w'
| reach_run w sets th code w' : Reachable w -> run_tests sets th w = Some (code, w') -> Reachable w'.

(** Registration from start-up, as in a test program's constructors. *)
Fixpoint register_all (ops : list RegOp) (w : World) : option World :=
  match ops with
  | [] => Some w
  | op :: rest => w' ← reg_op op w; register_all rest w'
  end.

(* ------------------------------------------------------------------ *)
(** ** Observations of a whole program: registration, then [main] *)

(** The [main] of a test program: register, then
    [run_tests(test_sets, current_hooks)]. *)
Definition main_run (ops : list RegOp) : option (Z * World) :=
  w ← register_all ops init_world;
  run_tests (test_sets w) (current_hooks w) w.

(** The exit status and the final state of every registered case. *)
Definition run_outcome (ops : list RegOp) : option (Z * list TestState) :=
  r ← main_run ops;
  Some (fst r, map tc_state (w_cases (snd r))).

(** The fuzz values handed to fuzz bodies, in order. *)
Definition fuzz_values_of (tr : list Event) : list FuzzValue :=
  omap (fun e => match e with EvFuzzValue v => Some v | _ => None end) tr.

(** A fuzz case whose body asserts nothing. *)
Definition one_fuzz_case (t : FuzzType) : list RegOp :=
  [RTestset "fuzz" None; RFuzzTestcase "values" (fun _ => []) (FuzzEnum t)].

Definition iterated_values (t : FuzzType) : option (list FuzzValue) :=
  r ← main_run (one_fuzz_case t);
  Some (fuzz_values_of (w_trace (snd r))).

(** A hook bundle with no callback set and a NULL context. *)
Definition empty_hooks : st_hooks :=
  mkHooks "user" None None None None None None None None None None None None false.

(** The machines of one call [run_tests(sets, test_hooks)] made in a
    reachable process state. *)
Inductive RunReachable (sets th : option nat) : Machine -> Prop :=
| run_start w : Reachable w -> RunReachable sets th (init_machine sets w)
| run_step m m' : RunReachable sets th m -> step sets th m = Some m' -> RunReachable sets th m'.

(** [n] iterations of the runner loop. *)
Fixpoint steps (sets th : option nat) (n : nat) (m : Machine) : option Machine :=
  match n with
  | O => Some m
  | S n' => m' ← step sets th m; steps sets th n' m'
  end.

(** Expectation inversion as the specification words it: the state and
    message a case reports, given the outcome found in it after its body. *)
Definition expected_inversion (c : TestCase) : TestState * option string :=
  if expect_fail c then
    match tc_state c with
    | FAIL => (PASS, Some "Expected failure occurred")
    | PASS => (FAIL, Some "Expected failure but passed")
    | SKIP => (SKIP, tc_message c)
    end
  else if expect_throw c then
    match tc_state c with
    | FAIL => (PASS, Some "Expected throw occurred")
    | PASS => (FAIL, Some "Expected throw but passed")
    | SKIP => (SKIP, tc_message c)
    end
  else (tc_state c, tc_message c).

(** The state and message of every case. *)
Definition case_results (w : World) : list (TestState * option string) :=
  map (fun c => (tc_state c, tc_message c)) (w_cases w).

(** A [main] that registers, then calls [run_tests] twice. *)
Definition two_runs (ops : list RegOp)
  : option (list (TestState * option string) * list (TestState * option string)) :=
  w ← register_all ops init_world;
  r1 ← run_tests (test_sets w) (current_hooks w) w;
  r2 ← run_tests (test_sets (snd r1)) (current_hooks (snd r1)) (snd r1);
  Some (case_results (snd r1), case_results (snd r2)).

(** An expect-fail case whose body runs no assertion. *)
Definition expect_fail_ops : list RegOp := [RTestset "S" None; RFailTestcase "f" []].

(** A set with setup and teardown functions, holding a fuzz case whose
    type is [(FuzzType)4], a value none of the enumerators has, then a
    plain case. *)
Definition invalid_fuzz_ops : list RegOp :=
  [RTestset "S" None; RSetup "su"; RTeardown "td";
   RFuzzTestcase "z" (fun _ => []) (FuzzOther 4); RTestcase "t" []].

(** Whether a statement of a body runs through: code, or a passing assertion. *)
Definition stmt_passes (st : Stmt) : bool :=
  match st with
  | SCode _ => true
  | SAssert a => TestState_eqb (fst (assert_outcome a)) PASS
  end.

(** The events of the plain code of a body. *)
Definition code_events (b : list Stmt) : list Event :=
  flat_map (fun st => match st with SCode n => [EvCode n] | SAssert _ => [] end) b.

(** Appending events to the trace. *)
Definition emit_all (es : list Event) (w : World) : World :=
  mkWorld (w_sets w) (w_cases w) (w_hooks w) (test_sets w) (current_set w)
          (hook_registry w) (current_hooks w) (w_trace w ++ es).

(** A set whose only case [c], at index 0, is executing. *)
Definition executing_world_of (c : TestCase) : World :=
  mkWorld [mkTestSet "S" None 1 0 0 0 None None None (Some 0%nat) (Some 0%nat) (Some 0%nat) None None]
          [c] [default_hooks] (Some 0%nat) (Some 0%nat) [Some 0%nat] None [].

(** The same with a plain case of body [b]. *)
Definition executing_world (b : list Stmt) : World :=
  executing_world_of (with_func b false false (create_testcase "t")).

(** A fuzz case as [fuzz_testcase] creates it. *)
Definition fuzz_case (f : FuzzValue -> list Stmt) (t : FuzzType) : TestCase :=
  mkTestCase "z" PASS None false [] f false false true (FuzzEnum t) None.

(** A fuzz body whose only assertion fails for the int 0. *)
Definition fails_on_zero (v : FuzzValue) : list Stmt :=
  match v with
  | FVInt z => [SAssert (IsTrue (if z =? 0 then 0 else 1) None)]
  | _ => []
  end.

(** The runner about to run [FUZZING_INIT] for the fuzz case [c] of [executing_world_of]. *)
Definition fuzzing_machine (c : TestCase) : Machine :=
  mkMachine (executing_world_of c) FUZZING_INIT 0 1 1 (Some 0%nat) (Some 0%nat) None (Some 0%nat)
    0 0 0 0 None.

(** The event by which [process_result] reports state [st] and message [msg]. *)
Definition result_event (h : st_hooks) (st : TestState) (msg : option string) : Event :=
  match on_test_result h with
  | Some cb => EvResult cb st
  | None => EvLog (default_result_line st msg)
  end.

(** The events of [teardown_test] for set [s]. *)
Definition teardown_events (s : TestSet) : list Event :=
  match ts_teardown s with Some f => [EvTeardown f] | None => [] end.

(** The runner about to run [TEARDOWN_TEST] for the case [c] of a set
    with teardown function "td". *)
Definition teardown_machine (c : TestCase) : Machine :=
  mkMachine (set_sets [mkTestSet "S" None 1 0 0 0 None None (Some "td") (Some 0%nat) (Some 0%nat)
                         (Some 0%nat) None None] (executing_world_of c))
    TEARDOWN_TEST 0 1 1 (Some 0%nat) (Some 0%nat) (Some 0%nat) (Some 0%nat) 0 0 0 0 None.

(** Every callback slot set in [h] holds the same callback in [h1]. *)
Definition slots_kept (h h1 : st_hooks) : Prop :=
  forall (slot : st_hooks -> option Callback) f,
    In slot [before_set; after_set; before_test; after_test; on_start_test; on_end_test;
             on_error; on_test_result; on_set_summary; on_memory_alloc; on_memory_free;
             on_debug_log] ->
    slot h = Some f -> slot h1 = Some f.

(** [ps] is the sequence of case pointers reached from [q] by following
    the [next] fields [nx] up to NULL. *)
Inductive chain (nx : list (option nat)) : option nat -> list nat -> Prop :=
| chain_nil : chain nx None []
| chain_cons p q ps : nx !! p = Some q -> chain nx q ps -> chain nx (Some p) (p :: ps).

(** The [next] fields of the case store. *)
Definition next_fields (w : World) : list (option nat) := tc_next <$> w_cases w.

(** Case [i] is in the sequence of set [sp]. *)
Definition in_set (w : World) (sp i : nat) : Prop :=
  exists s ps, w_sets w !! sp = Some s /\ chain (next_fields w) (ts_cases s) ps /\ In i ps.

(** The fields of a set that describe its case sequence. *)
Definition set_shape (s : TestSet) : option nat * option nat * Z :=
  (ts_cases s, ts_tail s, ts_count s).

(** What the case sequences of a process state depend on. *)
Definition shape (w : World) : list (option nat) * list (option nat * option nat * Z) :=
  (next_fields w, set_shape <$> w_sets w).

(** The registry invariant: each set's [cases] pointer starts a NULL-terminated
    sequence without repetition whose length is [count] and whose last element
    is [tail]; every case of the store is in the sequence of exactly one set. *)
Definition registry_ok (w : World) : Prop :=
  (forall sp s, w_sets w !! sp = Some s ->
     exists ps, chain (next_fields w) (ts_cases s) ps /\ NoDup ps /\
       ts_count s = Z.of_nat (length ps) /\ ts_tail s = last ps) /\
  (forall i, (i < length (w_cases w))%nat -> exists sp, in_set w sp i) /\
  (forall sp1 sp2 i, in_set w sp1 i -> in_set w sp2 i -> sp1 = sp2).

(** A property of every case of the store, except possibly the one at [q]. *)
Definition cases_except (q : option nat) (P : TestCase -> Prop) (w : World) : Prop :=
  forall i c, Some i <> q -> w_cases w !! i = Some c -> P c.

(** A failed case always carries a message. *)
Definition fail_has_msg (c : TestCase) : Prop := tc_state c = FAIL -> tc_message c <> None.

Definition msg_inv (w : World) : Prop := cases_except None fail_has_msg w.

(** Whether running a body ends in the unwind: it reaches a non-PASS assertion. *)
Definition body_fails (b : list Stmt) : bool := negb (forallb stmt_passes b).

(** The number of values whose iteration fails. *)
Definition count_failing (body : FuzzValue -> list Stmt) (vals : list FuzzValue) : Z :=
  Z.of_nat (length (filter (fun v => body_fails (body v) = true) vals)).

(** [w'] is [w] after running bodies that handed [vs] to the fuzz body:
    same sets and current set, as many cases, and a trace extended by
    events whose fuzz values are [vs]. *)
Definition fuzz_frame (w w' : World) (vs : list FuzzValue) : Prop :=
  w_sets w' = w_sets w /\ current_set w' = current_set w /\
  length (w_cases w') = length (w_cases w) /\
  exists tr, w_trace w' = (w_trace w ++ tr)%list /\ fuzz_values_of tr = vs.

(** The [next] field of every case points to a case registered after it. *)
Definition order_ok (w : World) : Prop :=
  forall i j, next_fields w !! i = Some (Some j) -> (i < j)%nat.

(** [NULL] for the first set, else the set registered just before. *)
Definition pred_ptr (n : nat) : option nat :=
  match n with O => None | S j => Some j end.

(** What the list of sets depends on: its head and the [next] fields. *)
Definition set_links (w : World) : option nat * list (option nat) :=
  (test_sets w, ts_next <$> w_sets w).

(** The list of sets starts at the newest set and links each set to the
    one registered before it. *)
Definition links_ok (w : World) : Prop :=
  fst (set_links w) = pred_ptr (length (snd (set_links w))) /\
  forall i, (i < length (snd (set_links w)))%nat -> snd (set_links w) !! i = Some (pred_ptr i).

(** The [failed] counters of the sets. *)
Definition failed_view (w : World) : list Z := ts_failed <$> w_sets w.

(** The fields of a case that decide the path of the runner through it. *)
Definition case_ctl (c : TestCase) : option nat * bool * FuzzTypeValue :=
  (tc_next c, is_fuzz c, fuzz_type c).

(** The fields of a set that decide the path of the runner through the sets. *)
Definition set_ctl (s : TestSet) : option nat * option nat := (ts_cases s, ts_next s).

(** What a run leaves unchanged and its path depends on. *)
Definition static_view (w : World) :=
  (test_sets w, case_ctl <$> w_cases w, set_ctl <$> w_sets w).

(** The same with the current set. *)
Definition ctl_view (w : World) := (current_set w, static_view w).

(** Two runner states at the same point of the same path. *)
Definition ctl_rel (m1 m2 : Machine) : Prop :=
  ctl_view (m_world m1) = ctl_view (m_world m2) /\ m_state m1 = m_state m2 /\
  set_iter m1 = set_iter m2 /\ tc_iter m1 = tc_iter m2 /\ m_tc m1 = m_tc m2 /\
  m_return m1 = m_return m2.


(** The registry search of [init_hooks]: the first entry, from the head,
    whose bundle has the given name; [Some None] when there is none, [None]
    when an entry's [hooks] is NULL or dangling (dereferenced). *)
Fixpoint find_hooks (name : string) (reg : list (option nat)) (hs : list st_hooks)
  : option (option nat) :=
  match reg with
  | [] => Some None
  | e :: rest =>
      hp ← e;
      h ← hs !! hp;
      if String.eqb (h_name h) name then Some (Some hp) else find_hooks name rest hs
  end.

(** The bundle [init_hooks(name)] allocates: named [name], every slot
    and the context NULL. *)
Definition fresh_hooks (n : string) : st_hooks :=
  mkHooks n None None None None None None None None None None None None false.

(** [init_hooks(name)]: NULL for a NULL or empty name, the registered
    bundle of that name, or a fresh bundle with every slot NULL (not
    registered); the allocation is taken to succeed. *)
Definition init_hooks (name : option string) (w : World) : option (World * option nat) :=
  match name with
  | None => Some (w, None)
  | Some n =>
      if String.eqb n "" then Some (w, None) else
      match find_hooks n (hook_registry w) (w_hooks w) with
      | None => None
      | Some (Some hp) => Some (w, Some hp)
      | Some None => Some (define_hooks (fresh_hooks n) w, Some (length (w_hooks w)))
      end
  end.

(* ================================================================== *)
(** * Properties *)

Example floatWithin_literal_value : float_arg 100000001 (-8) = S754_finite false 8388608 (-23).
Proof. vm_compute. reflexivity. Qed.

Example areEqual_msg :
  assert_outcome (AreEqual (OpInt 5 6) None) = (FAIL, Some "Expected 5, but was 6").
Proof. vm_compute. reflexivity. Qed.

Example fmt_f5_ex : fmt_f5 (float_arg 15 (-1)) = "1.50000".
Proof. vm_compute. reflexivity. Qed.

(** [1.17549435e-38f] is [FLT_MIN = 2^-126]. *)
Example smallest_normal_literal : float_litf false 117549435 (-46) = S754_finite false 8388608 (-149).
Proof. vm_compute. reflexivity. Qed.

(** ** C1 *)

(** C1 (code_bug).  Two sets: "A" holds a failing case, "B" (registered
    later, hence the head of [test_sets]) a passing one.  The run returns
    exit status 0 although a case of "A" ended FAIL: [runner_done] reads the
    [failed] counter of the head set only. *)
Theorem run_tests_status_ignores_failure_in_later_set :
  run_outcome [RTestset "A" None; RTestcase "a_fail" [SAssert (Fail None)];
               RTestset "B" None; RTestcase "b_pass" [SAssert (IsTrue 1 None)]]
  = Some (0, [FAIL; PASS]).
Proof. vm_compute. reflexivity. Qed.

(** ** C2 *)

(** C2 (counterexample).  A byte fuzz case is not run over the full range
    of byte values: the value 2 is never handed to the body. *)
Lemma byte_dataset_not_full_range :
  exists l, iterated_values FUZZ_BYTE = Some l /\ ~ In (FVByte 2) l.
Proof.
  exists [FVByte (-128); FVByte (-1); FVByte 0; FVByte 1; FVByte 127].
  split; [vm_compute; reflexivity|].
  simpl. intros H. repeat destruct H as [H|H]; try discriminate; exact H.
Qed.

(** ** C7 *)

(** C7 (counterexample).  A registered bundle with no callback set keeps
    its [before_set] slot unset after [runner_init]: not every unset slot
    is back-filled. *)
Lemma runner_init_leaves_before_set_unset :
  exists w w1 tot,
    register_all [RDefineHooks empty_hooks; RRegisterHooks (Some 1%nat);
                  RTestset "S" None] init_world = Some w /\
    runner_init (test_sets w) (current_hooks w) w = Some (w1, tot, Some 1%nat) /\
    option_map before_set (w_hooks w1 !! 1%nat) = Some None.
Proof. do 3 eexists. split; [reflexivity|]. split; [vm_compute; reflexivity|]. reflexivity. Qed.

(** ** C9 *)

(** C9.  [Assert.floatWithin(1.00000001, 1.0, 1.0)] passes: the argument
    differs from 1 by less than the float epsilon and arrives as [1.0f];
    [Assert.floatWithin(2.0, 1.0, 1.0)] fails. *)
Theorem floatWithin_examples :
  float_arg 100000001 (-8) = float_arg 1 0 /\
  assert_outcome (FloatWithin (float_arg 100000001 (-8)) (float_arg 1 0) (float_arg 1 0) None)
    = (PASS, None) /\
  assert_outcome (FloatWithin (float_arg 2 0) (float_arg 1 0) (float_arg 1 0) None)
    = (FAIL, Some "Value out of range").
Proof. vm_compute. repeat split. Qed.

(** ** C10 *)

(** C10.  With no current set, or a current set with no current case,
    every assertion leaves the process state untouched and returns
    normally (no unwind). *)
Theorem assertion_without_current_case_is_noop (a : Assertion) (w : World) :
  (current_set w = None \/
   exists sp s, current_set w = Some sp /\ w_sets w !! sp = Some s /\ ts_current s = None) ->
  run_assertion a w = Some (w, false).
Proof.
  unfold run_assertion. destruct (assert_outcome a) as [st msg].
  unfold set_test_context. intros [H | (sp & s & H1 & H2 & H3)].
  - rewrite H. reflexivity.
  - rewrite H1, H2, H3. reflexivity.
Qed.

Lemma assertion_without_current_case_is_noop_witness :
  init_world = init_world /\ run_assertion (Fail None) init_world = Some (init_world, false).
Proof.
  split; [reflexivity|].
  apply (assertion_without_current_case_is_noop (Fail None) init_world). left. reflexivity.
Defined.

(* ------------------------------------------------------------------ *)
(** ** Frame facts about world updates *)

Lemma w_cases_emit e w : w_cases (emit e w) = w_cases w.
Proof. reflexivity. Qed.
Lemma w_sets_emit e w : w_sets (emit e w) = w_sets w.
Proof. reflexivity. Qed.
Lemma current_set_emit e w : current_set (emit e w) = current_set w.
Proof. reflexivity. Qed.
Lemma w_trace_emit e w : w_trace (emit e w) = (w_trace w ++ [e])%list.
Proof. reflexivity. Qed.

Lemma w_cases_call_hook slot d w : w_cases (call_hook slot d w) = w_cases w.
Proof.
  unfold call_hook. destruct slot; [reflexivity|].
  revert w. induction d as [|e d IH]; intros w; simpl; [reflexivity|]. rewrite IH. reflexivity.
Qed.
Lemma w_sets_call_hook slot d w : w_sets (call_hook slot d w) = w_sets w.
Proof.
  unfold call_hook. destruct slot; [reflexivity|].
  revert w. induction d as [|e d IH]; intros w; simpl; [reflexivity|]. rewrite IH. reflexivity.
Qed.
Lemma current_set_call_hook slot d w : current_set (call_hook slot d w) = current_set w.
Proof.
  unfold call_hook. destruct slot; [reflexivity|].
  revert w. induction d as [|e d IH]; intros w; simpl; [reflexivity|]. rewrite IH. reflexivity.
Qed.

Lemma update_case_Some p f w w' :
  update_case p f w = Some w' ->
  exists c, w_cases w !! p = Some c /\ w' = set_cases (<[p := f c]> (w_cases w)) w.
Proof.
  unfold update_case. destruct (w_cases w !! p) eqn:E; intros H; [|discriminate].
  injection H as <-. eauto.
Qed.

Lemma update_set_Some p f w w' :
  update_set p f w = Some w' ->
  exists s, w_sets w !! p = Some s /\ w' = set_sets (<[p := f s]> (w_sets w)) w.
Proof.
  unfold update_set. destruct (w_sets w !! p) eqn:E; intros H; [|discriminate].
  injection H as <-. eauto.
Qed.

(** Running a body only emits events and writes through
    [set_test_context]: any property of worlds kept by those two is kept. *)
Section BodyInduction.
Variable I : World -> Prop.
Hypothesis I_emit : forall e w, I w -> I (emit e w).
Hypothesis I_assert : forall a w w' j, I w -> run_assertion a w = Some (w', j) -> I w'.

Lemma exec_body_preserves b : forall w w' j, I w -> exec_body b w = Some (w', j) -> I w'.
Proof.
  induction b as [|st b IH]; intros w w' j Hw H; simpl in H.
  - injection H as <- <-. exact Hw.
  - destruct st as [a|n].
    + destruct (run_assertion a w) as [[w1 [|]]|] eqn:E; try discriminate.
      * injection H as <- <-. eauto.
      * eapply IH; [|exact H]. eauto.
    + eapply IH; [|exact H]. eauto.
Qed.

Variable tcp : nat.
Hypothesis I_reset : forall w w', I w -> update_case tcp (with_message None) w = Some w' -> I w'.

Lemma fuzz_loop_preserves body vals :
  forall k w w' k', I w -> fuzz_loop tcp body vals k w = Some (w', k') -> I w'.
Proof.
  induction vals as [|v vals IH]; intros k w w' k' Hw H; simpl in H.
  - injection H as <- <-. exact Hw.
  - destruct (exec_body (body v) (emit (EvFuzzValue v) w)) as [[w2 [|]]|] eqn:E;
      try discriminate.
    + assert (I w2) by (eapply exec_body_preserves; [|exact E]; eauto).
      destruct (w_cases w2 !! tcp) as [c|] eqn:Ec; simpl in H; [|discriminate].
      destruct (tc_message c) eqn:Em.
      * destruct (update_case tcp (with_message None) _) as [w4|] eqn:E4; [|discriminate].
        simpl in H. eapply IH; [|exact H]. eapply I_reset; [|exact E4]. eauto.
      * simpl in H. eapply IH; [|exact H]. eauto.
    + assert (I w2) by (eapply exec_body_preserves; [|exact E]; eauto).
      eapply IH; [|exact H]. eauto.
Qed.
End BodyInduction.

Lemma update_case_except q p f w w' (P : TestCase -> Prop) :
  update_case p f w = Some w' -> cases_except q P w ->
  (forall c, w_cases w !! p = Some c -> Some p <> q -> P (f c)) ->
  cases_except q P w'.
Proof.
  intros H Hw Hf. apply update_case_Some in H as (c & Hc & ->).
  intros i c' Hi Hl. simpl in Hl. apply list_lookup_insert_Some in Hl as [(<- & <- & _)|(_ & Hl)].
  - apply Hf; assumption.
  - eapply Hw; eassumption.
Qed.

Lemma update_case_except_all p f w w' (P : TestCase -> Prop) :
  update_case p f w = Some w' -> cases_except (Some p) P w ->
  (forall c, w_cases w !! p = Some c -> P (f c)) ->
  cases_except None P w'.
Proof.
  intros H Hw Hf. apply update_case_Some in H as (c & Hc & ->).
  intros i c' _ Hl. simpl in Hl. apply list_lookup_insert_Some in Hl as [(<- & <- & _)|(Hne & Hl)].
  - apply Hf; assumption.
  - eapply Hw; [|eassumption]. congruence.
Qed.

Lemma cases_except_weaken q P w : cases_except None P w -> cases_except q P w.
Proof. intros H i c _ Hl. eapply H; [discriminate|exact Hl]. Qed.

Lemma assert_outcome_fail_msg a : fst (assert_outcome a) = FAIL -> snd (assert_outcome a) <> None.
Proof.
  destruct a; simpl;
    repeat match goal with
           | |- context [if ?b then _ else _] => destruct b
           | |- context [match ?x with _ => _ end] => destruct x
           end; simpl; congruence.
Qed.

Lemma run_assertion_except q a w w' j :
  cases_except q fail_has_msg w -> run_assertion a w = Some (w', j) ->
  cases_except q fail_has_msg w'.
Proof.
  unfold run_assertion. pose proof (assert_outcome_fail_msg a) as Ha.
  destruct (assert_outcome a) as [st msg]. simpl in Ha.
  unfold set_test_context. intros Hw H.
  destruct (current_set w) as [sp|]; [|injection H as <- _; exact Hw].
  destruct (w_sets w !! sp) as [s|]; [|discriminate].
  destruct (ts_current s) as [cp|]; [|injection H as <- _; exact Hw].
  destruct (update_case cp (with_result st msg) w) as [w1|] eqn:E; [|discriminate].
  injection H as <- _. eapply update_case_except; [exact E|exact Hw|].
  intros c _ _. exact Ha.
Qed.

Lemma exec_body_except q b w w' j :
  cases_except q fail_has_msg w -> exec_body b w = Some (w', j) ->
  cases_except q fail_has_msg w'.
Proof.
  apply exec_body_preserves.
  - intros e w0 H. exact H.
  - intros. eapply run_assertion_except; eassumption.
Qed.

Lemma execute_fuzzing_msg_inv tcp ds w w' :
  msg_inv w -> execute_fuzzing tcp ds w = Some w' -> msg_inv w'.
Proof.
  unfold execute_fuzzing. intros Hw H.
  destruct (w_cases w !! tcp) as [c|]; [|discriminate]. simpl in H.
  destruct (fuzz_loop tcp (func_fuzz c) ds 0 w) as [[w1 k]|] eqn:E; [|discriminate].
  assert (cases_except (Some tcp) fail_has_msg w1) as H1.
  { eapply (fuzz_loop_preserves (cases_except (Some tcp) fail_has_msg)); [| | |apply cases_except_weaken, Hw|exact E].
    - intros e w0 Hw0. exact Hw0.
    - intros. eapply run_assertion_except; eassumption.
    - intros w0 w0' Hw0 Hu. eapply update_case_except; [exact Hu|exact Hw0|].
      intros c' _ Hne. congruence. }
  destruct (k =? 0).
  - eapply update_case_except_all; [exact H|exact H1|]. intros c' _. unfold fail_has_msg. simpl. discriminate.
  - eapply update_case_except_all; [exact H|exact H1|]. intros c' _. unfold fail_has_msg. simpl. discriminate.
Qed.

Lemma invert_fail_has_msg c :
  fail_has_msg c -> fail_has_msg (with_result (fst (invert c)) (snd (invert c)) c).
Proof.
  unfold fail_has_msg, invert. simpl.
  destruct (expect_fail c), (expect_throw c), (tc_state c), (tc_message c); simpl; intros H;
    try congruence; intros _; apply H; reflexivity.
Qed.

Lemma process_result_msg_inv m m1 :
  msg_inv (m_world m) -> process_result m = Some m1 -> msg_inv (m_world m1).
Proof.
  unfold process_result. intros Hw H.
  destruct (m_tc m) as [tcp|]; [|discriminate]. simpl in H.
  destruct (current_set (m_world m)) as [sp|]; [|discriminate]. simpl in H.
  destruct (w_cases (m_world m) !! tcp) as [c|] eqn:Ec; [|discriminate]. simpl in H.
  pose proof (invert_fail_has_msg c) as Hinv.
  destruct (invert c) as [st msg]. simpl in Hinv.
  destruct (update_case tcp (with_result st msg) (m_world m)) as [w1|] eqn:E1; [|discriminate].
  simpl in H.
  assert (msg_inv w1) as H1.
  { eapply update_case_except; [exact E1|exact Hw|]. intros c' Hc' _.
    rewrite Ec in Hc'. injection Hc' as <-. apply Hinv. eapply Hw; [discriminate|exact Ec]. }
  destruct (deref_hooks m) as [h|]; [|discriminate]. simpl in H.
  destruct (set_context_logger h); [|discriminate]. simpl in H.
  set (w2 := match on_test_result h with
             | Some cb => emit (EvResult cb st) w1
             | None => emit (EvLog (default_result_line st msg)) w1
             end) in H.
  assert (w_cases w2 = w_cases w1) as E2 by (subst w2; destruct (on_test_result h); reflexivity).
  destruct (w_sets w2 !! sp) as [s|]; [|discriminate]. simpl in H.
  destruct st;
    (destruct (update_set sp _ w2) as [w3|] eqn:E3; [|discriminate]);
    simpl in H; injection H as <-; simpl;
    apply update_set_Some in E3 as (s' & _ & ->);
    intros i c' Hne Hl; simpl in Hl; rewrite E2 in Hl; eapply H1; eassumption.
Qed.

Lemma runner_init_loop_frame fuel set th tot hooks w w' tot' hooks' :
  runner_init_loop fuel set th tot hooks w = Some (w', tot', hooks') ->
  w_cases w' = w_cases w /\ w_sets w' = w_sets w /\ current_set w' = current_set w /\
  test_sets w' = test_sets w /\ hook_registry w' = hook_registry w /\ w_trace w' = w_trace w.
Proof.
  revert set tot hooks w. induction fuel as [|fuel IH]; intros set tot hooks w H; simpl in H.
  - destruct set; [discriminate|]. injection H as <- _ _. tauto.
  - destruct set as [sp|]; [|injection H as <- _ _; tauto].
    destruct (w_sets w !! sp) as [s|] eqn:Es; [|discriminate]. simpl in H.
    set (hk := match th, ts_hooks s with
               | None, None => match hook_registry w with Some h :: _ => Some h | _ => hooks end
               | Some th0, _ => Some th0
               | None, Some sh => Some sh
               end) in H.
    destruct hk as [hp|].
    + destruct (w_hooks _ !! hp) as [h|]; [|discriminate]. simpl in H.
      apply IH in H. simpl in H. tauto.
    + simpl in H. apply IH in H. simpl in H. tauto.
Qed.

Lemma runner_init_frame sets th w w' tot hooks :
  runner_init sets th w = Some (w', tot, hooks) ->
  w_cases w' = w_cases w /\ w_sets w' = w_sets w /\ current_set w' = current_set w /\
  test_sets w' = test_sets w /\ hook_registry w' = hook_registry w /\ w_trace w' = w_trace w.
Proof. apply runner_init_loop_frame. Qed.

Lemma msg_inv_cases w w' : w_cases w' = w_cases w -> msg_inv w -> msg_inv w'.
Proof. intros E H i c Hi Hl. rewrite E in Hl. eapply H; eassumption. Qed.

Lemma teardown_test_cases w w' : teardown_test w = Some w' -> w_cases w' = w_cases w.
Proof.
  unfold teardown_test. intros H.
  destruct (current_set w); [|discriminate]. simpl in H.
  destruct (w_sets w !! _); [|discriminate]. simpl in H. injection H as <-.
  destruct (ts_teardown _); reflexivity.
Qed.

Lemma execute_test_msg_inv tcp w w' st :
  msg_inv w -> execute_test tcp w = Some (w', st) -> msg_inv w'.
Proof.
  unfold execute_test. intros Hw H.
  destruct (w_cases w !! tcp) as [c|]; [|discriminate]. simpl in H.
  destruct (is_fuzz c); [injection H as <- _; exact Hw|].
  destruct (exec_body (func_test c) w) as [[w1 j]|] eqn:E; [|discriminate].
  injection H as <- _. eapply exec_body_except; [exact Hw|exact E].
Qed.

Lemma step_msg_inv sets th m m' :
  msg_inv (m_world m) -> step sets th m = Some m' -> msg_inv (m_world m').
Proof.
  intros Hw H. unfold step in H. destruct (m_state m).
  all: repeat (simpl in H; match type of H with
    | (match ?x with _ => _ end) = Some _ => destruct x eqn:?; try discriminate
    | mbind _ ?x = Some _ => destruct x eqn:?; try discriminate
    | Some _ = Some _ => injection H as <-
    end).
  all: simpl; try (eapply msg_inv_cases; [|exact Hw]; simpl;
                   rewrite ?w_cases_call_hook; reflexivity).
  all: try (repeat match goal with |- context [match ?x with _ => _ end] => destruct x end;
             eapply msg_inv_cases; [|exact Hw]; simpl; rewrite ?w_cases_call_hook; reflexivity).
  all: repeat match goal with
    | E : runner_init _ _ _ = Some _ |- _ => apply runner_init_frame in E as (E & _);
        eapply msg_inv_cases; [exact E|exact Hw]
    | E : update_set _ _ ?w = Some ?w' |- msg_inv ?w' =>
        apply update_set_Some in E as (? & _ & ->); apply (msg_inv_cases w); [reflexivity|]
    | E : update_case _ (with_has_next _) ?w = Some ?w' |- msg_inv ?w' =>
        eapply update_case_except; [exact E|exact Hw|]; intros ? Hc _; exact (Hw _ _ ltac:(discriminate) Hc)
    | E : update_case _ (with_result FAIL (Some _)) ?w = Some ?w' |- msg_inv ?w' =>
        eapply update_case_except_all; [exact E|apply cases_except_weaken, Hw|];
        intros ? _; unfold fail_has_msg; simpl; discriminate
    | E : teardown_test ?w = Some ?w' |- msg_inv ?w' =>
        eapply msg_inv_cases; [exact (teardown_test_cases _ _ E)|]
    | E : process_result _ = Some ?m1 |- msg_inv (m_world ?m1) => exact (process_result_msg_inv _ _ Hw E)
    | E : execute_fuzzing _ _ _ = Some ?w |- msg_inv ?w => exact (execute_fuzzing_msg_inv _ _ _ _ Hw E)
    | E : execute_test _ _ = Some (?w, _) |- msg_inv ?w => exact (execute_test_msg_inv _ _ _ _ Hw E)
    | |- msg_inv (match ?x with _ => _ end) => destruct x
    | |- msg_inv ?w => eapply msg_inv_cases; [|exact Hw]; simpl; rewrite ?w_cases_call_hook; reflexivity
    end.
Qed.

Lemma run_loop_msg_inv sets th fuel m m' :
  msg_inv (m_world m) -> run_loop sets th fuel m = Some m' -> msg_inv (m_world m').
Proof.
  revert m. induction fuel as [|fuel IH]; intros m Hw H; simpl in H.
  - destruct (m_state m); try discriminate. injection H as <-. exact Hw.
  - assert (forall m1, step sets th m = Some m1 -> run_loop sets th fuel m1 = Some m' ->
              msg_inv (m_world m')) as K.
    { intros m1 E1 E2. eapply IH; [eapply step_msg_inv; eassumption|exact E2]. }
    destruct (m_state m); try (injection H as <-; exact Hw);
      destruct (step sets th m) as [m1|] eqn:E; try discriminate; exact (K m1 eq_refl H).
Qed.

Lemma run_tests_world sets th w code w' :
  run_tests sets th w = Some (code, w') ->
  exists m, run_loop sets th (run_fuel w) (init_machine sets w) = Some m /\ m_world m = w'.
Proof.
  unfold run_tests. intros H.
  destruct (run_loop _ _ _ _) as [m|] eqn:E; [|discriminate]. simpl in H.
  exists m. split; [reflexivity|].
  destruct (m_return m); [injection H as _ <-; reflexivity|].
  destruct (runner_done _ _); [|discriminate]. simpl in H. injection H as _ <-. reflexivity.
Qed.

Lemma run_tests_msg_inv sets th w code w' :
  msg_inv w -> run_tests sets th w = Some (code, w') -> msg_inv w'.
Proof.
  intros Hw H. destruct (run_tests_world _ _ _ _ _ H) as (m & E & <-).
  eapply run_loop_msg_inv; [|exact E]. exact Hw.
Qed.

Lemma register_case_msg_inv tc w0 w' :
  tc_state tc = PASS -> msg_inv w0 -> register_case tc w0 = Some w' -> msg_inv w'.
Proof.
  intros Htc Hw0 H. unfold register_case in H.
  set (w := match current_set w0 with None => testset "default" None w0 | Some _ => w0 end) in H.
  assert (msg_inv w) as Hw by (subst w; destruct (current_set _); [exact Hw0|]; exact Hw0).
  clearbody w.
  assert (msg_inv (set_cases (w_cases w ++ [tc]) w)) as H1.
  { intros i c _ Hl. simpl in Hl. apply lookup_app_Some in Hl as [Hl|(_ & Hl)].
    - eapply Hw; [discriminate|exact Hl].
    - apply list_lookup_singleton_Some in Hl as [_ <-]. unfold fail_has_msg. congruence. }
  destruct (current_set w) as [sp|]; [|discriminate]. simpl in H.
  destruct (w_sets w !! sp) as [s|]; [|discriminate]. simpl in H.
  destruct (ts_cases s).
  - destruct (ts_tail s) as [tp|]; [|discriminate]. simpl in H.
    destruct (update_case tp _ _) as [w2|] eqn:E2; [|discriminate]. simpl in H.
    apply update_set_Some in H as (? & _ & ->). apply (msg_inv_cases w2); [reflexivity|].
    eapply update_case_except; [exact E2|exact H1|]. intros c Hc _ Hf.
    exact (H1 _ _ ltac:(discriminate) Hc Hf).
  - apply update_set_Some in H as (? & _ & ->). apply (msg_inv_cases (set_cases (w_cases w ++ [tc]) w)); [reflexivity|exact H1].
Qed.

Lemma reg_op_msg_inv op w w' : msg_inv w -> reg_op op w = Some w' -> msg_inv w'.
Proof.
  intros Hw H. destruct op; simpl in H;
    try (eapply register_case_msg_inv; [|exact Hw|exact H]; reflexivity).
  - injection H as <-. exact Hw.
  - unfold setup_testcase in H. destruct (current_set w); [|injection H as <-; exact Hw].
    apply update_set_Some in H as (? & _ & ->). apply (msg_inv_cases w); [reflexivity|exact Hw].
  - unfold teardown_testcase in H. destruct (current_set w); [|injection H as <-; exact Hw].
    apply update_set_Some in H as (? & _ & ->). apply (msg_inv_cases w); [reflexivity|exact Hw].
  - injection H as <-. exact Hw.
  - unfold register_hooks in H. simpl in H.
    destruct (current_set w); [|injection H as <-; exact Hw].
    destruct (w_sets w !! _) as [s|]; [|discriminate]. simpl in H.
    destruct (ts_hooks s); [injection H as <-; exact Hw|].
    apply update_set_Some in H as (? & _ & ->). apply (msg_inv_cases w); [reflexivity|exact Hw].
Qed.

Lemma reachable_msg_inv w : Reachable w -> msg_inv w.
Proof.
  induction 1.
  - intros i c _ Hl. simpl in Hl. rewrite lookup_nil in Hl. discriminate.
  - eapply reg_op_msg_inv; eassumption.
  - eapply run_tests_msg_inv; eassumption.
Qed.

Lemma run_reachable_msg_inv sets th m : RunReachable sets th m -> msg_inv (m_world m).
Proof.
  induction 1 as [w Hr|m m' _ IH E].
  - apply (msg_inv_cases w); [reflexivity|]. apply reachable_msg_inv, Hr.
  - eapply step_msg_inv; eassumption.
Qed.

Lemma steps_run_reachable sets th n m m' :
  RunReachable sets th m -> steps sets th n m = Some m' -> RunReachable sets th m'.
Proof.
  revert m. induction n as [|n IH]; intros m Hm H; simpl in H.
  - injection H as <-. exact Hm.
  - destruct (step sets th m) as [m1|] eqn:E; [|discriminate]. simpl in H.
    eapply IH; [econstructor 2; eassumption|exact H].
Qed.

Lemma register_all_reachable ops w w' :
  Reachable w -> register_all ops w = Some w' -> Reachable w'.
Proof.
  revert w. induction ops as [|op ops IH]; intros w Hw H; simpl in H.
  - injection H as <-. exact Hw.
  - destruct (reg_op op w) as [w1|] eqn:E; [|discriminate]. simpl in H.
    eapply IH; [econstructor 2; eassumption|exact H].
Qed.

Lemma process_result_case m m1 tcp c :
  m_tc m = Some tcp -> w_cases (m_world m) !! tcp = Some c -> process_result m = Some m1 ->
  w_cases (m_world m1) !! tcp = Some (with_result (fst (invert c)) (snd (invert c)) c).
Proof.
  unfold process_result. intros Ht Hc H. rewrite Ht in H. simpl in H.
  destruct (current_set (m_world m)) as [sp|]; [|discriminate]. simpl in H.
  rewrite Hc in H. simpl in H.
  destruct (invert c) as [st msg]. simpl.
  destruct (update_case tcp (with_result st msg) (m_world m)) as [w1|] eqn:E1; [|discriminate].
  simpl in H. apply update_case_Some in E1 as (c0 & Hc0 & ->).
  rewrite Hc in Hc0. injection Hc0 as <-.
  destruct (deref_hooks m) as [h|]; [|discriminate]. simpl in H.
  destruct (set_context_logger h); [|discriminate]. simpl in H.
  destruct (w_sets _ !! sp) as [s|]; [|discriminate]. simpl in H.
  destruct st;
    (destruct (update_set sp _ _) as [w3|] eqn:E3; [|discriminate]);
    simpl in H; injection H as <-; simpl;
    apply update_set_Some in E3 as (s' & _ & ->); simpl;
    destruct (on_test_result h); simpl;
    apply list_lookup_insert_eq; eapply lookup_lt_Some; exact Hc.
Qed.

Lemma invert_expected c : fail_has_msg c ->
  invert c = expected_inversion c.
Proof.
  unfold fail_has_msg, invert, expected_inversion. intros H.
  destruct (expect_fail c), (expect_throw c), (tc_state c), (tc_message c);
    try reflexivity; exfalso; apply H; reflexivity.
Qed.

Lemma teardown_step_case sets th m m' tcp c :
  m_state m = TEARDOWN_TEST -> m_tc m = Some tcp ->
  w_cases (m_world m) !! tcp = Some c -> step sets th m = Some m' ->
  w_cases (m_world m') !! tcp = Some (with_result (fst (invert c)) (snd (invert c)) c).
Proof.
  intros Hs Ht Hc H. unfold step in H. rewrite Hs in H.
  destruct (process_result m) as [m1|] eqn:E1; [|discriminate]. simpl in H.
  destruct (tc_iter m1); [|discriminate]. simpl in H.
  destruct (w_cases (m_world m1) !! _); [|discriminate]. simpl in H.
  destruct (teardown_test (m_world m1)) as [w2|] eqn:E2; [|discriminate]. simpl in H.
  injection H as <-. simpl. rewrite (teardown_test_cases _ _ E2).
  eapply process_result_case; eassumption.
Qed.

(** ** C3 *)

(** C3 (counterexample).  The result of a case is not reset before its
    body runs: an expect-fail case whose body runs no assertion reports
    FAIL "Expected failure but passed" in a first [run_tests], and PASS
    "Expected failure occurred" in a second one. *)
Lemma expect_fail_rerun_reports_pass :
  two_runs expect_fail_ops =
  Some ([(FAIL, Some "Expected failure but passed")],
        [(PASS, Some "Expected failure occurred")]).
Proof. vm_compute. reflexivity. Qed.

(** C3 (amended).  In every run, the step that leaves [TEARDOWN_TEST]
    replaces the state and message the current case holds after its body
    (the outcome of this body, or the previous result when the body ran no
    assertion) by their expectation inversion: for an expect-fail or
    expect-throw case a FAIL becomes PASS with "Expected failure occurred"
    or "Expected throw occurred", a PASS becomes FAIL with "Expected
    failure but passed" or "Expected throw but passed", and a SKIP is kept
    with its message; other cases keep their outcome. *)
Theorem expectation_inversion_at_teardown sets th m m' tcp c :
  RunReachable sets th m -> m_state m = TEARDOWN_TEST -> m_tc m = Some tcp ->
  w_cases (m_world m) !! tcp = Some c -> step sets th m = Some m' ->
  exists c', w_cases (m_world m') !! tcp = Some c' /\
             (tc_state c', tc_message c') = expected_inversion c.
Proof.
  intros Hr Hs Ht Hc H.
  pose proof (run_reachable_msg_inv _ _ _ Hr) as Hinv.
  eexists. split; [exact (teardown_step_case _ _ _ _ _ _ Hs Ht Hc H)|].
  simpl. rewrite <- (invert_expected c); [destruct (invert c); reflexivity|].
  exact (Hinv tcp c ltac:(discriminate) Hc).
Qed.

Lemma expectation_inversion_at_teardown_witness :
  exists w m m' c,
    register_all expect_fail_ops init_world = Some w /\
    steps (test_sets w) (current_hooks w) 11 (init_machine (test_sets w) w) = Some m /\
    m_state m = TEARDOWN_TEST /\ m_tc m = Some 0%nat /\
    w_cases (m_world m) !! 0%nat = Some c /\
    step (test_sets w) (current_hooks w) m = Some m' /\
    exists c', w_cases (m_world m') !! 0%nat = Some c' /\
               (tc_state c', tc_message c') = expected_inversion c.
Proof.
  let v := eval vm_compute in (register_all expect_fail_ops init_world) in
  match v with Some ?w => exists w end.
  do 3 eexists.
  match goal with |- context [steps ?a ?b ?n ?i = Some ?e] =>
    let v := eval vm_compute in (steps a b n i) in match v with Some ?x => unify e x end end.
  match goal with |- context [step ?a ?b ?i = Some ?e] =>
    let v := eval vm_compute in (step a b i) in match v with Some ?x => unify e x end end.
  match goal with |- context [?l !! 0%nat = Some ?e] =>
    let v := eval vm_compute in (l !! 0%nat) in match v with Some ?x => unify e x end end.
  match goal with |- ?A /\ ?B /\ ?C /\ ?D /\ ?E /\ ?F /\ _ =>
    assert (H1 : A) by (vm_compute; reflexivity);
    assert (H2 : B) by (vm_compute; reflexivity);
    assert (H3 : C) by (vm_compute; reflexivity);
    assert (H4 : D) by (vm_compute; reflexivity);
    assert (H5 : E) by (vm_compute; reflexivity);
    assert (H6 : F) by (vm_compute; reflexivity);
    refine (conj H1 (conj H2 (conj H3 (conj H4 (conj H5 (conj H6 _))))))
  end.
  eapply expectation_inversion_at_teardown; [|eassumption..].
  eapply steps_run_reachable; [|exact H2].
  apply run_start. eapply register_all_reachable; [constructor|exact H1].
Defined.

Lemma with_result_twice st msg st' msg' c :
  with_result st msg (with_result st' msg' c) = with_result st msg c.
Proof. reflexivity. Qed.

Lemma run_assertion_current a w sp s cp c :
  current_set w = Some sp -> w_sets w !! sp = Some s -> ts_current s = Some cp ->
  w_cases w !! cp = Some c ->
  run_assertion a w =
    Some (set_cases (<[cp := with_result (fst (assert_outcome a)) (snd (assert_outcome a)) c]>
                      (w_cases w)) w,
          negb (TestState_eqb (fst (assert_outcome a)) PASS)).
Proof.
  intros H1 H2 H3 H4. unfold run_assertion.
  destruct (assert_outcome a) as [st msg]. simpl.
  unfold set_test_context, update_case. rewrite H1, H2, H3, H4. reflexivity.
Qed.

Lemma exec_body_passing pre rest : forall w sp s cp c,
  current_set w = Some sp -> w_sets w !! sp = Some s -> ts_current s = Some cp ->
  w_cases w !! cp = Some c -> forallb stmt_passes pre = true ->
  exists c1, exec_body (pre ++ rest) w =
    exec_body rest (set_cases (<[cp := c1]> (w_cases w)) (emit_all (code_events pre) w)) /\
    (forall st msg, with_result st msg c1 = with_result st msg c).
Proof.
  induction pre as [|st pre IH]; intros w sp s cp c H1 H2 H3 H4 Hp.
  - exists c. split; [|reflexivity]. f_equal.
    destruct w; unfold set_cases, emit_all; simpl in *. rewrite list_insert_id by exact H4.
    rewrite app_nil_r. reflexivity.
  - simpl in Hp. apply andb_prop in Hp as [Hs Hp]. destruct st as [a|n]; simpl.
    + rewrite (run_assertion_current a w sp s cp c H1 H2 H3 H4).
      simpl in Hs. destruct (fst (assert_outcome a)) eqn:Ea; try discriminate Hs. simpl.
      set (w1 := set_cases _ w).
      destruct (IH w1 sp s cp (with_result PASS (snd (assert_outcome a)) c)) as (c1 & E & Hc1);
        try assumption.
      { subst w1; simpl. apply list_lookup_insert_eq. eapply lookup_lt_Some; exact H4. }
      exists c1. split; [|intros; rewrite Hc1; reflexivity].
      rewrite E. f_equal. subst w1. unfold set_cases, emit_all; simpl.
      rewrite list_insert_insert_eq. reflexivity.
    + set (w1 := emit (EvCode n) w).
      destruct (IH w1 sp s cp c) as (c1 & E & Hc1); try assumption.
      exists c1. split; [|exact Hc1].
      rewrite E. f_equal. subst w1. unfold set_cases, emit_all, emit; simpl.
      rewrite <- app_assoc. reflexivity.
Qed.

(** ** C5 *)

(** C5.  While case [cp] executes, an assertion whose result is PASS
    writes PASS into the case and returns normally.  In a body whose
    assertions before [a] all pass, a non-PASS [a] writes its result and
    message into the case and leaves the body at once: the body ends with
    the unwind flag, nothing after [a] runs (the trace holds only the code
    before [a]), and [execute_test] goes on to [END_TEST]. *)
Theorem first_failing_assertion_unwinds pre a post w sp s cp c :
  current_set w = Some sp -> w_sets w !! sp = Some s -> ts_current s = Some cp ->
  w_cases w !! cp = Some c -> forallb stmt_passes pre = true ->
  fst (assert_outcome a) <> PASS ->
  let w' := set_cases (<[cp := with_result (fst (assert_outcome a)) (snd (assert_outcome a)) c]>
                         (w_cases w)) (emit_all (code_events pre) w) in
  exec_body ((pre ++ SAssert a :: post)%list) w = Some (w', true) /\
  (forall tcp ct, w_cases w !! tcp = Some ct -> is_fuzz ct = false ->
     func_test ct = (pre ++ SAssert a :: post)%list -> execute_test tcp w = Some (w', END_TEST)) /\
  (forall a', fst (assert_outcome a') = PASS ->
     run_assertion a' w =
       Some (set_cases (<[cp := with_result PASS (snd (assert_outcome a')) c]> (w_cases w)) w, false)).
Proof.
  intros H1 H2 H3 H4 Hp Ha w'.
  assert (E : exec_body (pre ++ SAssert a :: post) w = Some (w', true)).
  { destruct (exec_body_passing pre (SAssert a :: post) w sp s cp c H1 H2 H3 H4 Hp)
      as (c1 & -> & Hc1).
    set (w1 := set_cases (<[cp:=c1]> (w_cases w)) (emit_all (code_events pre) w)).
    assert (H4' : w_cases w1 !! cp = Some c1).
    { simpl. apply list_lookup_insert_eq. eapply lookup_lt_Some; exact H4. }
    simpl. rewrite (run_assertion_current a w1 sp s cp c1 H1 H2 H3 H4').
    subst w' w1. rewrite Hc1. simpl. rewrite list_insert_insert_eq.
    destruct (fst (assert_outcome a)); [congruence|reflexivity|reflexivity]. }
  split; [exact E|split].
  - intros tcp ct Hct Hf Hb. unfold execute_test. rewrite Hct. simpl. rewrite Hf, Hb, E. reflexivity.
  - intros a' Ha'. rewrite (run_assertion_current a' w sp s cp c H1 H2 H3 H4), Ha'. reflexivity.
Qed.

Lemma first_failing_assertion_unwinds_witness :
  let b := [SCode 1; SAssert (IsTrue 1 None); SAssert (Fail None); SCode 2] in
  let w := executing_world b in
  exists s c,
  current_set w = Some 0%nat /\ w_sets w !! 0%nat = Some s /\ ts_current s = Some 0%nat /\
  w_cases w !! 0%nat = Some c /\ forallb stmt_passes [SCode 1; SAssert (IsTrue 1 None)] = true /\
  fst (assert_outcome (Fail None)) <> PASS /\
  exec_body b w =
    Some (set_cases (<[0%nat := with_result FAIL (snd (assert_outcome (Fail None))) c]> (w_cases w))
            (emit_all [EvCode 1] w), true).
Proof.
  intros b w. do 2 eexists.
  split; [reflexivity|]. split; [reflexivity|]. split; [reflexivity|].
  split; [reflexivity|]. split; [reflexivity|]. split; [discriminate|].
  exact (proj1 (first_failing_assertion_unwinds [SCode 1; SAssert (IsTrue 1 None)] (Fail None) [SCode 2]
                  w 0 _ 0 _ eq_refl eq_refl eq_refl eq_refl eq_refl ltac:(discriminate))).
Defined.

Lemma fuzz_values_of_app t1 t2 :
  fuzz_values_of (t1 ++ t2) = (fuzz_values_of t1 ++ fuzz_values_of t2)%list.
Proof. unfold fuzz_values_of. apply omap_app. Qed.

Lemma fuzz_frame_refl w : fuzz_frame w w [].
Proof. repeat split. exists []. rewrite app_nil_r. split; reflexivity. Qed.

Lemma fuzz_frame_trans w1 w2 w3 vs1 vs2 :
  fuzz_frame w1 w2 vs1 -> fuzz_frame w2 w3 vs2 -> fuzz_frame w1 w3 (vs1 ++ vs2).
Proof.
  intros (E1 & C1 & L1 & tr1 & T1 & F1) (E2 & C2 & L2 & tr2 & T2 & F2).
  repeat split; try congruence.
  exists (tr1 ++ tr2)%list. split.
  - rewrite T2, T1, app_assoc. reflexivity.
  - rewrite fuzz_values_of_app, F1, F2. reflexivity.
Qed.

Lemma fuzz_frame_emit w e : fuzz_frame w (emit e w) (fuzz_values_of [e]).
Proof. repeat split. exists [e]. split; reflexivity. Qed.

Lemma fuzz_frame_set_cases w cs :
  length cs = length (w_cases w) -> fuzz_frame w (set_cases cs w) [].
Proof. intros L. repeat split; [exact L|]. exists []. rewrite app_nil_r. split; reflexivity. Qed.

Lemma exec_body_frame b : forall w sp s cp,
  current_set w = Some sp -> w_sets w !! sp = Some s -> ts_current s = Some cp ->
  is_Some (w_cases w !! cp) ->
  exists w', exec_body b w = Some (w', body_fails b) /\ fuzz_frame w w' [].
Proof.
  induction b as [|st b IH]; intros w sp s cp H1 H2 H3 [c H4].
  - exists w. split; [reflexivity|apply fuzz_frame_refl].
  - destruct st as [a|n]; simpl.
    + rewrite (run_assertion_current a w sp s cp c H1 H2 H3 H4).
      set (w1 := set_cases _ w).
      assert (F1 : fuzz_frame w w1 []) by (apply fuzz_frame_set_cases, length_insert).
      unfold body_fails; simpl.
      destruct (fst (assert_outcome a)); simpl.
      * destruct (IH w1 sp s cp) as (w' & E & F); try assumption.
        { simpl. rewrite list_lookup_insert_eq; [eexists; reflexivity|]. eapply lookup_lt_Some; exact H4. }
        exists w'. split; [exact E|]. exact (fuzz_frame_trans _ _ _ [] [] F1 F).
      * exists w1. split; [reflexivity|exact F1].
      * exists w1. split; [reflexivity|exact F1].
    + destruct (IH (emit (EvCode n) w) sp s cp) as (w' & E & F); try assumption.
      { eexists; exact H4. }
      exists w'. split; [exact E|]. exact (fuzz_frame_trans _ _ _ [] [] (fuzz_frame_emit w (EvCode n)) F).
Qed.

Lemma fuzz_frame_lookup w w' p :
  fuzz_frame w w' [] -> is_Some (w_cases w !! p) -> is_Some (w_cases w' !! p).
Proof.
  intros (_ & _ & L & _) H. apply lookup_lt_is_Some in H. apply lookup_lt_is_Some. lia.
Qed.

Lemma fuzz_loop_spec tcp body vals : forall k w sp s,
  current_set w = Some sp -> w_sets w !! sp = Some s -> ts_current s = Some tcp ->
  is_Some (w_cases w !! tcp) ->
  exists w', fuzz_loop tcp body vals k w = Some (w', k + count_failing body vals) /\
             fuzz_frame w w' vals.
Proof.
  induction vals as [|v vals IH]; intros k w sp s H1 H2 H3 H4.
  - exists w. split; [unfold count_failing; simpl; rewrite Z.add_0_r; reflexivity|apply fuzz_frame_refl].
  - simpl. set (w0 := emit (EvFuzzValue v) w).
    assert (F0 : fuzz_frame w w0 [v]) by apply fuzz_frame_emit.
    destruct (exec_body_frame (body v) w0 sp s tcp H1 H2 H3 H4) as (w2 & E2 & F2).
    rewrite E2.
    assert (F02 := fuzz_frame_trans _ _ _ _ _ F0 F2). simpl in F02.
    assert (L2 : is_Some (w_cases w2 !! tcp)) by exact (fuzz_frame_lookup _ _ _ F2 H4).
    destruct F02 as (S2 & C2 & Lc2 & T2).
    assert (Hc : forall n, count_failing body (v :: vals) =
                           (if body_fails (body v) then 1 else 0) + count_failing body vals + n - n).
    { intros n. unfold count_failing. rewrite filter_cons.
      case_decide as Hd; destruct (body_fails (body v)); simpl; try congruence; lia. }
    destruct (body_fails (body v)).
    + destruct L2 as [c Hc2]. rewrite Hc2. simpl.
      set (w3 := emit (EvLog _) w2).
      assert (F3 : fuzz_frame w2 w3 []) by apply fuzz_frame_emit.
      destruct (tc_message c).
      * unfold update_case. simpl. rewrite Hc2. simpl.
        set (w4 := set_cases _ w3).
        assert (F4 : fuzz_frame w3 w4 []) by (apply fuzz_frame_set_cases, length_insert).
        destruct (IH (k + 1) w4 sp s) as (w' & E & F); try (simpl; congruence).
        { apply lookup_lt_is_Some. simpl. rewrite length_insert. simpl.
          apply lookup_lt_is_Some. eexists; exact Hc2. }
        exists w'. split; [rewrite E, (Hc 0); f_equal; f_equal; lia|].
        replace (v :: vals) with ([v] ++ [] ++ [] ++ vals)%list by reflexivity.
        eapply fuzz_frame_trans; [exact F0|].
        eapply fuzz_frame_trans; [exact F2|].
        eapply fuzz_frame_trans; [exact F3|].
        replace vals with ([] ++ vals)%list by reflexivity.
        eapply fuzz_frame_trans; [exact F4|exact F].
      * destruct (IH (k + 1) w3 sp s) as (w' & E & F); try (simpl; congruence).
        { eexists; exact Hc2. }
        exists w'. split; [simpl; rewrite E, (Hc 0); f_equal; f_equal; lia|].
        replace (v :: vals) with ([v] ++ [] ++ [] ++ vals)%list by reflexivity.
        eapply fuzz_frame_trans; [exact F0|].
        eapply fuzz_frame_trans; [exact F2|].
        eapply fuzz_frame_trans; [exact F3|exact F].
    + set (w3 := emit (EvLog "Okay") w2).
      assert (F3 : fuzz_frame w2 w3 []) by apply fuzz_frame_emit.
      destruct (IH k w3 sp s) as (w' & E & F); try (simpl; congruence).
      exists w'. split; [rewrite E, (Hc 0); f_equal; f_equal; lia|].
      replace (v :: vals) with ([v] ++ [] ++ [] ++ vals)%list by reflexivity.
      eapply fuzz_frame_trans; [exact F0|].
      eapply fuzz_frame_trans; [exact F2|].
      eapply fuzz_frame_trans; [exact F3|exact F].
Qed.

Lemma execute_fuzzing_spec tcp ds w sp s c :
  current_set w = Some sp -> w_sets w !! sp = Some s -> ts_current s = Some tcp ->
  w_cases w !! tcp = Some c ->
  let K := count_failing (func_fuzz c) ds in
  exists w' c', execute_fuzzing tcp ds w = Some w' /\ w_cases w' !! tcp = Some c' /\
    (tc_state c', tc_message c') =
      (if K =? 0 then (PASS, None) else (FAIL, Some (fuzz_summary (Z.of_nat (length ds)) K))) /\
    fuzz_frame w w' ds.
Proof.
  intros H1 H2 H3 H4 K.
  destruct (fuzz_loop_spec tcp (func_fuzz c) ds 0 w sp s H1 H2 H3 ltac:(eexists; exact H4))
    as (w1 & E1 & F1).
  assert (L1 : is_Some (w_cases w1 !! tcp)).
  { destruct F1 as (_ & _ & L & _). apply lookup_lt_is_Some. rewrite L.
    apply lookup_lt_is_Some. eexists; exact H4. }
  destruct L1 as [c1 Hc1].
  unfold execute_fuzzing. rewrite H4. simpl. rewrite E1. simpl. fold K.
  unfold update_case. rewrite Hc1, Z.add_0_l.
  assert (F2 : forall st msg, fuzz_frame w (set_cases (<[tcp := with_result st msg c1]> (w_cases w1)) w1) ds).
  { intros st msg. replace ds with (ds ++ [])%list by apply app_nil_r.
    eapply fuzz_frame_trans; [exact F1|]. apply fuzz_frame_set_cases, length_insert. }
  assert (Lk : forall x, <[tcp := x]> (w_cases w1) !! tcp = Some x).
  { intros x. apply list_lookup_insert_eq. eapply lookup_lt_Some; exact Hc1. }
  destruct (K =? 0); do 2 eexists; (split; [reflexivity|]); simpl;
    (split; [apply Lk|]); (split; [reflexivity|apply F2]).
Qed.

(** ** C4 *)

(** C4.  While fuzz case [tcp] executes, [execute_fuzzing] over a dataset
    [ds] runs the body on every value of [ds], in order, a failing
    iteration included; with [K] the number of values whose body reaches a
    non-PASS assertion, the case ends PASS with no message when [K = 0],
    and FAIL with the message "N-K of N fuzz iterations passed" otherwise.
    For the 7 ints and one failing iteration that message is
    "6 of 7 fuzz iterations passed". *)
Theorem fuzz_case_aggregate_result tcp ds w sp s c :
  current_set w = Some sp -> w_sets w !! sp = Some s -> ts_current s = Some tcp ->
  w_cases w !! tcp = Some c ->
  let K := count_failing (func_fuzz c) ds in
  (exists w' c', execute_fuzzing tcp ds w = Some w' /\ w_cases w' !! tcp = Some c' /\
     (tc_state c', tc_message c') =
       (if K =? 0 then (PASS, None) else (FAIL, Some (fuzz_summary (Z.of_nat (length ds)) K))) /\
     exists tr, w_trace w' = (w_trace w ++ tr)%list /\ fuzz_values_of tr = ds) /\
  fuzz_summary (Z.of_nat (length (fuzz_dataset FUZZ_INT))) 1 = "6 of 7 fuzz iterations passed".
Proof.
  intros H1 H2 H3 H4 K. split; [|vm_compute; reflexivity].
  destruct (execute_fuzzing_spec tcp ds w sp s c H1 H2 H3 H4) as (w' & c' & E & L & R & F).
  exists w', c'. split; [exact E|]. split; [exact L|]. split; [exact R|].
  destruct F as (_ & _ & _ & T). exact T.
Qed.

Lemma fuzz_case_aggregate_result_witness :
  let w := executing_world_of (fuzz_case fails_on_zero FUZZ_INT) in
  count_failing fails_on_zero (fuzz_dataset FUZZ_INT) = 1 /\
  exists w' c', execute_fuzzing 0 (fuzz_dataset FUZZ_INT) w = Some w' /\
    w_cases w' !! 0%nat = Some c' /\
    (tc_state c', tc_message c') = (FAIL, Some "6 of 7 fuzz iterations passed") /\
    exists tr, w_trace w' = (w_trace w ++ tr)%list /\ fuzz_values_of tr = fuzz_dataset FUZZ_INT.
Proof.
  intros w. split; [vm_compute; reflexivity|].
  destruct (fuzz_case_aggregate_result 0 (fuzz_dataset FUZZ_INT) w 0 _ _
              eq_refl eq_refl eq_refl eq_refl) as [(w' & c' & E & L & R & T) _].
  exists w', c'. split; [exact E|]. split; [exact L|]. split; [|exact T].
  rewrite R. vm_compute. reflexivity.
Defined.

(** C2 (amended).  At [FUZZING_INIT] the runner hands the body of the
    current fuzz case, in order, exactly the literal dataset of its type
    (one of the enumerators of [FuzzType]: another value takes the
    [default:] branch, which selects no dataset), then goes to [END_TEST].  The datasets are: int {INT_MIN, INT_MIN+1,
    -1, 0, 1, INT_MAX-1, INT_MAX}; size_t {0, 1, SIZE_MAX/2, SIZE_MAX-1,
    SIZE_MAX}; float {-inf, -FLT_MAX, -1, -0, 0, 1, FLT_MAX, +inf, NaN,
    2^-126, -2^-126}; byte {-128, -1, 0, 1, 127}, five values and not the
    full range. *)
Theorem fuzzing_init_iterates_literal_dataset sets th m tcp sp s c t :
  m_state m = FUZZING_INIT -> m_tc m = Some tcp ->
  current_set (m_world m) = Some sp -> w_sets (m_world m) !! sp = Some s ->
  ts_current s = Some tcp -> w_cases (m_world m) !! tcp = Some c ->
  fuzz_type c = FuzzEnum t ->
  (exists m' tr, step sets th m = Some m' /\ m_state m' = END_TEST /\
     w_trace (m_world m') = (w_trace (m_world m) ++ tr)%list /\
     fuzz_values_of tr = fuzz_dataset t) /\
  fuzz_dataset FUZZ_INT =
    map FVInt [-2147483648; -2147483647; -1; 0; 1; 2147483646; 2147483647] /\
  fuzz_dataset FUZZ_SIZE_T =
    map FVSize [0; 1; 9223372036854775807; 18446744073709551614; 18446744073709551615] /\
  fuzz_dataset FUZZ_FLOAT =
    map FVFloat [S754_infinity true; S754_finite true 16777215 104; S754_finite true 8388608 (-23);
                 S754_zero true; S754_zero false; S754_finite false 8388608 (-23);
                 S754_finite false 16777215 104; S754_infinity false; S754_nan;
                 S754_finite false 8388608 (-149); S754_finite true 8388608 (-149)] /\
  fuzz_dataset FUZZ_BYTE = map FVByte [-128; -1; 0; 1; 127].
Proof.
  intros Hs Ht H1 H2 H3 H4 H5.
  split; [|vm_compute; repeat split].
  destruct (execute_fuzzing_spec tcp (fuzz_dataset t) (m_world m) sp s c H1 H2 H3 H4)
    as (w' & c' & E & _ & _ & _ & _ & _ & tr & T1 & T2).
  unfold step. rewrite Hs, Ht. simpl. rewrite H4. simpl. rewrite H5, E. simpl.
  eexists; exists tr. split; [reflexivity|]. split; [reflexivity|]. split; [exact T1|exact T2].
Qed.

Lemma fuzzing_init_iterates_literal_dataset_witness :
  let m := fuzzing_machine (fuzz_case (fun _ => []) FUZZ_BYTE) in
  exists m' tr, step (Some 0%nat) (Some 0%nat) m = Some m' /\ m_state m' = END_TEST /\
    w_trace (m_world m') = (w_trace (m_world m) ++ tr)%list /\
    fuzz_values_of tr = map FVByte [-128; -1; 0; 1; 127].
Proof.
  intros m.
  destruct (fuzzing_init_iterates_literal_dataset (Some 0%nat) (Some 0%nat) m 0 0 _ _ FUZZ_BYTE
              eq_refl eq_refl eq_refl eq_refl eq_refl eq_refl eq_refl) as [(m' & tr & E & S & T & V) (_ & _ & _ & B)].
  exists m', tr. split; [exact E|]. split; [exact S|]. split; [exact T|].
  rewrite V. exact B.
Defined.

Lemma process_result_spec m tcp sp c s h :
  m_tc m = Some tcp -> current_set (m_world m) = Some sp ->
  w_cases (m_world m) !! tcp = Some c -> w_sets (m_world m) !! sp = Some s ->
  deref_hooks m = Some h -> h_context h = true ->
  exists m1 s1, process_result m = Some m1 /\
    w_trace (m_world m1) =
      (w_trace (m_world m) ++ [result_event h (fst (invert c)) (snd (invert c));
                               EvTally (fst (invert c))])%list /\
    current_set (m_world m1) = Some sp /\
    w_sets (m_world m1) !! sp = Some s1 /\ ts_teardown s1 = ts_teardown s /\
    length (w_cases (m_world m1)) = length (w_cases (m_world m)) /\
    tc_iter m1 = tc_iter m /\ m_state m1 = m_state m /\
    tc_total m1 = tc_total m + 1 /\ total_tests m1 = total_tests m + 1.
Proof.
  intros Ht Hsp Hc Hs Hh Hx. unfold process_result. rewrite Ht. simpl. rewrite Hsp. simpl.
  rewrite Hc. simpl. destruct (invert c) as [st msg]. simpl.
  unfold update_case. rewrite Hc. simpl. rewrite Hh. simpl.
  unfold set_context_logger. rewrite Hx. simpl.
  set (w1 := set_cases _ _).
  assert (Hs2 : w_sets (match on_test_result h with
                        | Some cb => emit (EvResult cb st) w1
                        | None => emit (EvLog (default_result_line st msg)) w1 end) !! sp = Some s).
  { destruct (on_test_result h); exact Hs. }
  rewrite Hs2. simpl.
  assert (Hlen : (sp < length (w_sets (m_world m)))%nat) by (eapply lookup_lt_Some; exact Hs).
  destruct st; unfold update_set; rewrite Hs2; simpl;
    do 2 eexists; (split; [reflexivity|]); simpl;
    (split; [unfold result_event; destruct (on_test_result h); simpl; rewrite <- app_assoc; reflexivity|]);
    (split; [destruct (on_test_result h); exact Hsp|]);
    (split; [destruct (on_test_result h); apply list_lookup_insert_eq; exact Hlen|]);
    (split; [reflexivity|]);
    (split; [destruct (on_test_result h); apply length_insert|]);
    repeat split.
Qed.

Lemma execute_test_next tcp w w' st :
  execute_test tcp w = Some (w', st) -> st = FUZZING_INIT \/ st = END_TEST.
Proof.
  unfold execute_test. intros H.
  destruct (w_cases w !! tcp) as [c|]; [|discriminate]. simpl in H.
  destruct (is_fuzz c); [injection H as _ <-; left; reflexivity|].
  destruct (exec_body _ _) as [[]|]; [|discriminate]. injection H as _ <-. right. reflexivity.
Qed.

Lemma step_next_state sets th m m' :
  step sets th m = Some m' ->
  (m_state m' = TEARDOWN_TEST -> m_state m = END_TEST) /\
  (m_state m' = END_TEST -> m_state m = EXECUTE_TEST \/ m_state m = FUZZING_INIT).
Proof.
  intros H. unfold step in H. destruct (m_state m) eqn:Es.
  all: repeat (simpl in H; match type of H with
    | (match ?x with _ => _ end) = Some _ => destruct x eqn:?; try discriminate
    | mbind _ ?x = Some _ => destruct x eqn:?; try discriminate
    | Some _ = Some _ => injection H as <-
    end).
  all: simpl; split; intros; first [congruence | left; congruence | right; congruence | idtac].
  all: match goal with E : execute_test _ _ = Some (_, ?st) |- _ =>
         destruct (execute_test_next _ _ _ _ E); subst; first [congruence | left; congruence] end.
Qed.

Lemma teardown_test_spec w sp s :
  current_set w = Some sp -> w_sets w !! sp = Some s ->
  teardown_test w = Some (emit_all (teardown_events s) w).
Proof.
  intros H1 H2. unfold teardown_test. rewrite H1. simpl. rewrite H2. simpl. f_equal.
  unfold teardown_events, emit_all, emit. destruct (ts_teardown s); [reflexivity|].
  destruct w; simpl. rewrite app_nil_r. reflexivity.
Qed.

(** ** C6 *)

(** C6 (code bug).  A fuzz case registered with a [FuzzType] value that is
    none of the enumerators takes the [default:] branch of [FUZZING_INIT]:
    it is set FAIL "Invalid FuzzType in fuzz test" and [return END_TEST;]
    leaves [run_tests] at once.  The set's setup ran for the case, but its
    result is never processed (no report, no counter incremented) and the
    set's teardown never runs; the next case of the set never runs. *)
Theorem invalid_fuzz_type_skips_teardown :
  exists code w, main_run invalid_fuzz_ops = Some (code, w) /\
    case_results w = [(FAIL, Some "Invalid FuzzType in fuzz test"); (PASS, None)] /\
    w_trace w = [EvLog "[2] S : 2"; EvHook "default_before_test"; EvSetup "su";
                 EvHook "default_on_start_test"] /\
    map (fun s => (ts_passed s, ts_failed s, ts_skipped s)) (w_sets w) = [(0, 0, 0)] /\
    ~ In (EvTeardown "td") (w_trace w) /\
    (forall st, ~ In (EvTally st) (w_trace w)) /\
    (forall cb st, ~ In (EvResult cb st) (w_trace w)).
Proof.
  match eval vm_compute in (main_run invalid_fuzz_ops) with
  | Some (?c, ?w) => pose (W := w); exists c, W end.
  split; [vm_compute; reflexivity|].
  split; [vm_compute; reflexivity|].
  assert (T : w_trace W = [EvLog "[2] S : 2"; EvHook "default_before_test"; EvSetup "su";
                           EvHook "default_on_start_test"]) by (vm_compute; reflexivity).
  split; [exact T|]. split; [vm_compute; reflexivity|]. rewrite T.
  split; [|split]; [intros H| intros st H| intros cb st H];
    repeat (destruct H as [H|H]; [discriminate|]); exact H.
Qed.

(** ** The step out of [TEARDOWN_TEST] *)

(** The step out of [TEARDOWN_TEST] first processes the result of the
    case (its inverted state reported through [on_test_result], or the
    default line, then the counters: [EvTally]), and only then runs the
    set's teardown function, whatever the outcome; [TEARDOWN_TEST] is
    entered only from [END_TEST], which is entered only from
    [EXECUTE_TEST] or [FUZZING_INIT].  (A fuzz case of an invalid type
    never gets there: the [default:] branch of [FUZZING_INIT] returns out
    of the loop.) *)
Theorem result_processed_before_teardown sets th m tcp c sp s h it :
  m_state m = TEARDOWN_TEST -> m_tc m = Some tcp -> w_cases (m_world m) !! tcp = Some c ->
  current_set (m_world m) = Some sp -> w_sets (m_world m) !! sp = Some s ->
  deref_hooks m = Some h -> h_context h = true ->
  tc_iter m = Some it -> is_Some (w_cases (m_world m) !! it) ->
  (exists m', step sets th m = Some m' /\ m_state m' = AFTER_TEST /\
     w_trace (m_world m') =
       (w_trace (m_world m) ++ [result_event h (fst (invert c)) (snd (invert c));
                                EvTally (fst (invert c))] ++ teardown_events s)%list /\
     tc_total m' = tc_total m + 1 /\ total_tests m' = total_tests m + 1) /\
  (forall m1 m2, step sets th m1 = Some m2 -> step sets th m2 = Some m ->
     m_state m2 = END_TEST /\ (m_state m1 = EXECUTE_TEST \/ m_state m1 = FUZZING_INIT)).
Proof.
  intros Hs Ht Hc Hsp Hss Hh Hx Hi Hit. split.
  - destruct (process_result_spec m tcp sp c s h Ht Hsp Hc Hss Hh Hx)
      as (m1 & s1 & E1 & T1 & Sp1 & Ss1 & Td1 & L1 & I1 & St1 & Tt1 & Tn1).
    assert (Hit1 : is_Some (w_cases (m_world m1) !! it)).
    { apply lookup_lt_is_Some. rewrite L1. apply lookup_lt_is_Some. exact Hit. }
    destruct Hit1 as [ci Hci].
    unfold step. rewrite Hs, E1. simpl. rewrite I1, Hi. simpl. rewrite Hci. simpl.
    rewrite (teardown_test_spec _ _ _ Sp1 Ss1). simpl.
    eexists. split; [reflexivity|]. split; [reflexivity|]. simpl.
    split; [|split; assumption].
    rewrite T1. unfold teardown_events. rewrite Td1. rewrite <- app_assoc. reflexivity.
  - intros m1 m2 E1 E2.
    destruct (step_next_state _ _ _ _ E2) as [K2 _]. specialize (K2 Hs).
    split; [exact K2|]. destruct (step_next_state _ _ _ _ E1) as [_ K1]. exact (K1 K2).
Qed.

Lemma result_processed_before_teardown_witness :
  let m := teardown_machine (with_result FAIL (Some "boom") (create_testcase "t")) in
  exists m', step (Some 0%nat) (Some 0%nat) m = Some m' /\ m_state m' = AFTER_TEST /\
    w_trace (m_world m') = [EvResult "default_on_test_result" FAIL; EvTally FAIL; EvTeardown "td"].
Proof.
  intros m.
  destruct (result_processed_before_teardown (Some 0%nat) (Some 0%nat) m 0 _ 0 _ _ 0
              eq_refl eq_refl eq_refl eq_refl eq_refl eq_refl eq_refl eq_refl
              ltac:(eexists; reflexivity))
    as [(m' & E & S & T & _) _].
  exists m'. split; [exact E|]. split; [exact S|]. rewrite T. reflexivity.
Defined.

Lemma backfill_idem h : backfill (backfill h) = backfill h.
Proof.
  destruct h as [n bs as_ bt at_ st et er tr ss ma mf dl].
  unfold backfill; simpl. destruct bt, at_, st, et, er, tr; reflexivity.
Qed.

Lemma runner_init_loop_hooks fuel : forall set th tot hooks w w' tot' hooks',
  runner_init_loop fuel set th tot hooks w = Some (w', tot', hooks') ->
  (forall i h, w_hooks w !! i = Some h ->
     w_hooks w' !! i = Some h \/ w_hooks w' !! i = Some (backfill h)) /\
  (set = None -> w' = w /\ tot' = tot /\ hooks' = hooks) /\
  (set <> None -> current_hooks w' = hooks' /\
     forall hp, hooks' = Some hp ->
       exists h, w_hooks w !! hp = Some h /\ w_hooks w' !! hp = Some (backfill h)).
Proof.
  induction fuel as [|fuel IH]; intros set th tot hooks w w' tot' hooks' H; simpl in H.
  - destruct set; [discriminate|]. injection H as <- <- <-.
    split; [intros; left; assumption|]. split; [auto|]. intros []; reflexivity.
  - destruct set as [sp|].
    2:{ injection H as <- <- <-. split; [intros; left; assumption|]. split; [auto|].
        intros []; reflexivity. }
    destruct (w_sets w !! sp) as [s|]; [|discriminate]. simpl in H.
    set (hk := match th, ts_hooks s with
               | None, None => match hook_registry w with Some h :: _ => Some h | _ => hooks end
               | Some th0, _ => Some th0
               | None, Some sh => Some sh
               end) in H.
    set (w1 := set_globals (test_sets w) (current_set w) hk w) in H.
    (* one iteration: the store of [w2] against the one of [w] *)
    assert (Step : forall w2, (match hk with
                     | None => Some w1
                     | Some hp => h ← w_hooks w1 !! hp;
                                  Some (set_hook_store (<[hp := backfill h]> (w_hooks w1)) w1)
                     end) = Some w2 ->
              current_hooks w2 = hk /\ length (w_hooks w2) = length (w_hooks w) /\
              (forall i h, w_hooks w !! i = Some h ->
                 w_hooks w2 !! i = Some h \/ w_hooks w2 !! i = Some (backfill h)) /\
              (forall hp, hk = Some hp ->
                 exists h, w_hooks w !! hp = Some h /\ w_hooks w2 !! hp = Some (backfill h))).
    { intros w2 E. destruct hk as [hp|].
      - destruct (w_hooks w1 !! hp) as [h0|] eqn:Eh; [|discriminate]. simpl in E.
        injection E as <-. simpl. split; [reflexivity|]. split; [apply length_insert|]. split.
        + intros i h Hi. destruct (decide (i = hp)) as [->|Hne].
          * right. simpl in Eh. rewrite Eh in Hi. injection Hi as ->.
            apply list_lookup_insert_eq. eapply lookup_lt_Some; exact Eh.
          * left. rewrite list_lookup_insert_ne by congruence. exact Hi.
        + intros hp' Ehp. injection Ehp as <-. exists h0. split; [exact Eh|].
          apply list_lookup_insert_eq. eapply lookup_lt_Some; exact Eh.
      - injection E as <-. split; [reflexivity|]. split; [reflexivity|].
        split; [intros; left; assumption|]. intros; discriminate. }
    match type of H with mbind _ ?x = _ => destruct x as [w2|] eqn:E2 end;
      [|discriminate]. simpl in H.
    destruct (Step w2 E2) as (C2 & L2 & K2 & P2).
    destruct (IH _ _ _ _ _ _ _ _ H) as (K & N & S).
    split; [|split; [discriminate|split]].
    + intros i h Hi. destruct (K2 i h Hi) as [Hi2|Hi2].
      * exact (K i h Hi2).
      * destruct (K i _ Hi2) as [->| ->]; right; [reflexivity|]. rewrite backfill_idem. reflexivity.
    + destruct (ts_next s); [apply (proj1 (S ltac:(discriminate)))|].
      destruct (N eq_refl) as (-> & _ & ->). exact C2.
    + intros hp Ehp. destruct (ts_next s).
      * destruct (proj2 (S ltac:(discriminate)) hp Ehp) as (h2 & Hh2 & Hw').
        assert (Hh : is_Some (w_hooks w !! hp)).
        { apply lookup_lt_is_Some. rewrite <- L2. apply lookup_lt_is_Some. eexists; exact Hh2. }
        destruct Hh as [h Hh]. exists h. split; [exact Hh|].
        destruct (K2 hp h Hh) as [Hw2|Hw2]; rewrite Hh2 in Hw2; injection Hw2 as ->;
          [exact Hw'|rewrite Hw', backfill_idem; reflexivity].
      * destruct (N eq_refl) as (-> & _ & ->). exact (P2 hp Ehp).
Qed.

Lemma runner_init_loop_again fuel : forall set th tot hooks w w' tot' hooks' v,
  runner_init_loop fuel set th tot hooks w = Some (w', tot', hooks') ->
  w_sets v = w_sets w -> hook_registry v = hook_registry w -> w_hooks v = w_hooks w' ->
  runner_init_loop fuel set th tot hooks v =
    Some (match set with
          | None => v
          | Some _ => set_globals (test_sets v) (current_set v) hooks' v
          end, tot', hooks').
Proof.
  induction fuel as [|fuel IH]; intros set th tot hooks w w' tot' hooks' v H Hs Hr Hh;
    simpl in H |- *.
  - destruct set; [discriminate|]. injection H as <- <- <-. reflexivity.
  - destruct set as [sp|]; [|injection H as <- <- <-; reflexivity].
    rewrite Hs. destruct (w_sets w !! sp) as [s|] eqn:Es; [|discriminate]. simpl in H |- *.
    rewrite Hr.
    set (hk := match th, ts_hooks s with
               | None, None => match hook_registry w with Some h :: _ => Some h | _ => hooks end
               | Some th0, _ => Some th0
               | None, Some sh => Some sh
               end) in H |- *.
    match type of H with mbind _ ?x = _ => destruct x as [w2|] eqn:E2 end;
      [|discriminate]. simpl in H.
    pose proof (runner_init_loop_hooks _ _ _ _ _ _ _ _ _ H) as (K & N & S).
    set (v1 := set_globals (test_sets v) (current_set v) hk v).
    assert (Ev : (match hk with
                  | Some hp => w_hooks v !! hp ≫= (fun h => Some (set_hook_store (<[hp:=backfill h]> (w_hooks v)) v1))
                  | None => Some v1
                  end) = Some v1).
    { destruct hk as [hp|]; [|reflexivity].
      destruct (w_hooks w !! hp) as [h0|] eqn:Eh; simpl in E2; [|discriminate].
      simpl in E2. injection E2 as <-. simpl in K.
      assert (Hf : w_hooks w' !! hp = Some (backfill h0)).
      { assert (L : (hp < length (w_hooks w))%nat) by (eapply lookup_lt_Some; exact Eh).
        destruct (K hp (backfill h0)) as [E|E]; [apply list_lookup_insert_eq; exact L| |];
          rewrite E; [reflexivity|rewrite backfill_idem; reflexivity]. }
      rewrite Hh, Hf. simpl. f_equal. rewrite backfill_idem, list_insert_id by exact Hf.
      subst v1. rewrite <- Hh. destruct v; reflexivity. }
    simpl. rewrite Ev. simpl.
    rewrite (IH _ _ _ _ _ _ _ _ v1 H).
    + destruct (ts_next s).
      * reflexivity.
      * destruct (N eq_refl) as (_ & _ & ->). reflexivity.
    + subst v1. simpl. rewrite Hs. destruct hk as [hp|]; simpl in E2;
        [destruct (w_hooks w !! hp); simpl in E2; [|discriminate]|]; injection E2 as <-; reflexivity.
    + subst v1. simpl. rewrite Hr. destruct hk as [hp|]; simpl in E2;
        [destruct (w_hooks w !! hp); simpl in E2; [|discriminate]|]; injection E2 as <-; reflexivity.
    + subst v1. simpl. exact Hh.
Qed.

Lemma backfill_slots_kept h : slots_kept h (backfill h).
Proof.
  intros slot f Hin Hs. simpl in Hin.
  repeat destruct Hin as [<-|Hin]; try contradiction; simpl in *; rewrite Hs; reflexivity.
Qed.

(** ** C7 *)

(** C7 (amended).  Resolving the hook bundle a second time for the same
    run gives the same bundle and leaves the process state as it is.  No
    callback slot that is set is ever overwritten: every bundle ends as it
    was or back-filled.  The active bundle is back-filled: its six test
    slots ([before_test], [after_test], [on_start_test], [on_end_test],
    [on_error], [on_test_result]) are set, while [before_set],
    [after_set], [on_set_summary], [on_memory_alloc], [on_memory_free] and
    [on_debug_log] keep their values, unset ones included. *)
Theorem runner_init_idempotent sets th w w1 tot hooks :
  runner_init sets th w = Some (w1, tot, hooks) ->
  runner_init sets th w1 = Some (w1, tot, hooks) /\
  (forall i h, w_hooks w !! i = Some h ->
     exists h1, w_hooks w1 !! i = Some h1 /\ (h1 = h \/ h1 = backfill h) /\ slots_kept h h1) /\
  (forall hp, hooks = Some hp ->
     exists h h1, w_hooks w !! hp = Some h /\ w_hooks w1 !! hp = Some h1 /\ h1 = backfill h /\
       is_Some (before_test h1) /\ is_Some (after_test h1) /\ is_Some (on_start_test h1) /\
       is_Some (on_end_test h1) /\ is_Some (on_error h1) /\ is_Some (on_test_result h1) /\
       before_set h1 = before_set h /\ after_set h1 = after_set h /\
       on_set_summary h1 = on_set_summary h /\ on_memory_alloc h1 = on_memory_alloc h /\
       on_memory_free h1 = on_memory_free h /\ on_debug_log h1 = on_debug_log h).
Proof.
  intros H.
  pose proof (runner_init_frame _ _ _ _ _ _ H) as (Fc & Fs & Fcs & Fts & Fr & Ft).
  pose proof (runner_init_loop_hooks _ _ _ _ _ _ _ _ _ H) as (K & N & S).
  split; [|split].
  - unfold runner_init. rewrite Fs.
    rewrite (runner_init_loop_again _ _ _ _ _ _ _ _ _ w1 H Fs Fr eq_refl).
    destruct sets; [|reflexivity].
    destruct (S ltac:(discriminate)) as [C _].
    destruct w1; simpl in *; subst; reflexivity.
  - intros i h Hi. destruct (K i h Hi) as [E|E]; (eexists; split; [exact E|]).
    + split; [left; reflexivity|]. intros slot f _ Hs; exact Hs.
    + split; [right; reflexivity|]. apply backfill_slots_kept.
  - intros hp Ehp. destruct sets.
    + destruct (proj2 (S ltac:(discriminate)) hp Ehp) as (h & Hh & Hh1).
      exists h, (backfill h). split; [exact Hh|]. split; [exact Hh1|]. split; [reflexivity|].
      unfold backfill, fill; simpl.
      destruct (before_test h), (after_test h), (on_start_test h), (on_end_test h), (on_error h),
        (on_test_result h); repeat split; eexists; reflexivity.
    + destruct (N eq_refl) as (_ & _ & ->). unfold runner_init in Ehp. discriminate.
Qed.

Lemma runner_init_idempotent_witness :
  exists w w1 tot,
    register_all [RDefineHooks empty_hooks; RRegisterHooks (Some 1%nat); RTestset "S" None]
      init_world = Some w /\
    runner_init (test_sets w) (current_hooks w) w = Some (w1, tot, Some 1%nat) /\
    runner_init (test_sets w) (current_hooks w) w1 = Some (w1, tot, Some 1%nat).
Proof.
  let v := eval vm_compute in
    (register_all [RDefineHooks empty_hooks; RRegisterHooks (Some 1%nat); RTestset "S" None]
       init_world) in
  match v with Some ?w => exists w end.
  do 2 eexists.
  match goal with |- _ /\ runner_init ?a ?b ?x = Some (?e1, ?e2, _) /\ _ =>
    let v := eval vm_compute in (runner_init a b x) in
    match v with Some (?y1, ?y2, _) => unify e1 y1; unify e2 y2 end end.
  match goal with |- ?A /\ ?B /\ _ =>
    assert (H1 : A) by (vm_compute; reflexivity);
    assert (H2 : B) by (vm_compute; reflexivity) end.
  split; [exact H1|]. split; [exact H2|].
  exact (proj1 (runner_init_idempotent _ _ _ _ _ _ H2)).
Defined.

(* ------------------------------------------------------------------ *)
(** ** Case sequences *)

Lemma chain_det nx q ps1 ps2 : chain nx q ps1 -> chain nx q ps2 -> ps1 = ps2.
Proof.
  intros H1. revert ps2. induction H1 as [|p q ps Hp H IH]; intros ps2 H2.
  - inversion H2. reflexivity.
  - inversion H2 as [|p' q' ps' Hp' H' E1 E2]; subst. rewrite Hp in Hp'. injection Hp' as <-.
    f_equal. apply IH, H'.
Qed.

Lemma chain_lookup nx q ps i : chain nx q ps -> In i ps -> is_Some (nx !! i).
Proof.
  induction 1 as [|p q ps Hp H IH]; simpl; [contradiction|].
  intros [<-|Hi]; [eexists; exact Hp|exact (IH Hi)].
Qed.

Lemma chain_app nx ext q ps : chain nx q ps -> chain (nx ++ ext)%list q ps.
Proof.
  induction 1 as [|p q ps Hp H IH]; [constructor|]. apply (chain_cons _ p q); [|exact IH].
  apply lookup_app_l_Some. exact Hp.
Qed.

Lemma chain_insert_notin nx t x q ps :
  chain nx q ps -> ~ In t ps -> chain (<[t := x]> nx) q ps.
Proof.
  induction 1 as [|p q ps Hp H IH]; intros Hn; [constructor|]. apply (chain_cons _ p q).
  - rewrite list_lookup_insert_ne; [exact Hp|]. intros ->. apply Hn. left. reflexivity.
  - apply IH. intros Hi. apply Hn. right. exact Hi.
Qed.

Lemma chain_last nx q ps t : chain nx q ps -> last ps = Some t -> nx !! t = Some None.
Proof.
  induction 1 as [|p q ps Hp H IH]; [discriminate|].
  destruct ps as [|p' ps'].
  - simpl. intros E. injection E as <-. inversion H. subst. exact Hp.
  - intros E. apply IH. exact E.
Qed.

Lemma chain_snoc nx q ps t :
  chain nx q ps -> last ps = Some t ->
  chain (<[t := Some (length nx)]> (nx ++ [None]))%list q (ps ++ [length nx])%list.
Proof.
  intros H Hl. pose proof (chain_last _ _ _ _ H Hl) as Ht.
  assert (Hlt : (t < length nx)%nat) by (eapply lookup_lt_Some; exact Ht).
  induction H as [|p q ps Hp H IH]; [discriminate|].
  destruct ps as [|p' ps'].
  - simpl in Hl. injection Hl as <-. inversion H; subst. simpl.
    apply (chain_cons _ p (Some (length nx))).
    + apply list_lookup_insert_eq. rewrite length_app. simpl. lia.
    + apply (chain_cons _ _ None); [|constructor].
      rewrite list_lookup_insert_ne by lia. rewrite lookup_app_r by lia.
      rewrite Nat.sub_diag. reflexivity.
  - simpl. apply (chain_cons _ p q); [|apply IH; exact Hl].
    assert (p <> t).
    { intros ->. inversion H; subst. rewrite Hp in Ht. discriminate. }
    rewrite list_lookup_insert_ne by congruence. apply lookup_app_l_Some. exact Hp.
Qed.

Lemma shape_eq w w' : w_cases w' = w_cases w -> w_sets w' = w_sets w -> shape w' = shape w.
Proof. unfold shape, next_fields. intros -> ->. reflexivity. Qed.

Lemma shape_emit e w : shape (emit e w) = shape w.
Proof. reflexivity. Qed.

Lemma shape_set_globals ts cs ch w : shape (set_globals ts cs ch w) = shape w.
Proof. reflexivity. Qed.

Lemma shape_call_hook slot d w : shape (call_hook slot d w) = shape w.
Proof. apply shape_eq; [apply w_cases_call_hook|apply w_sets_call_hook]. Qed.

Lemma shape_update_case p f w w' :
  update_case p f w = Some w' -> (forall c, tc_next (f c) = tc_next c) -> shape w' = shape w.
Proof.
  intros H Hf. apply update_case_Some in H as (c & Hc & ->).
  unfold shape, next_fields. simpl. rewrite list_fmap_insert, Hf, list_insert_id; [reflexivity|].
  rewrite list_lookup_fmap, Hc. reflexivity.
Qed.

Lemma shape_update_set p f w w' :
  update_set p f w = Some w' -> (forall s, set_shape (f s) = set_shape s) -> shape w' = shape w.
Proof.
  intros H Hf. apply update_set_Some in H as (s & Hs & ->).
  unfold shape, next_fields. simpl. rewrite (list_fmap_insert set_shape), Hf, list_insert_id; [reflexivity|].
  rewrite list_lookup_fmap, Hs. reflexivity.
Qed.

Lemma run_assertion_shape a w w' j : run_assertion a w = Some (w', j) -> shape w' = shape w.
Proof.
  unfold run_assertion. destruct (assert_outcome a) as [st msg].
  unfold set_test_context. intros H.
  destruct (current_set w) as [sp|]; [|injection H as <- _; reflexivity].
  destruct (w_sets w !! sp) as [s|]; [|discriminate].
  destruct (ts_current s) as [cp|]; [|injection H as <- _; reflexivity].
  destruct (update_case cp (with_result st msg) w) as [w1|] eqn:E; [|discriminate].
  injection H as <- _. eapply shape_update_case; [exact E|]. reflexivity.
Qed.

Lemma exec_body_shape b w w' j : exec_body b w = Some (w', j) -> shape w' = shape w.
Proof.
  apply (exec_body_preserves (fun x => shape x = shape w)); [| |reflexivity].
  - intros e x Hx. rewrite shape_emit. exact Hx.
  - intros a x x' j' Hx E. rewrite (run_assertion_shape _ _ _ _ E). exact Hx.
Qed.

Lemma execute_fuzzing_shape tcp ds w w' : execute_fuzzing tcp ds w = Some w' -> shape w' = shape w.
Proof.
  unfold execute_fuzzing. intros H.
  destruct (w_cases w !! tcp) as [c|]; [|discriminate]. simpl in H.
  destruct (fuzz_loop tcp (func_fuzz c) ds 0 w) as [[w1 k]|] eqn:E; [|discriminate].
  assert (shape w1 = shape w) as H1.
  { eapply (fuzz_loop_preserves (fun x => shape x = shape w)); [| | |reflexivity|exact E].
    - intros e x Hx. rewrite shape_emit. exact Hx.
    - intros a x x' j' Hx Ea. rewrite (run_assertion_shape _ _ _ _ Ea). exact Hx.
    - intros x x' Hx Eu. rewrite (shape_update_case _ _ _ _ Eu ltac:(intros; reflexivity)). exact Hx. }
  destruct (k =? 0); rewrite (shape_update_case _ _ _ _ H ltac:(intros; reflexivity)); exact H1.
Qed.

Lemma execute_test_shape tcp w w' st : execute_test tcp w = Some (w', st) -> shape w' = shape w.
Proof.
  unfold execute_test. intros H.
  destruct (w_cases w !! tcp) as [c|]; [|discriminate]. simpl in H.
  destruct (is_fuzz c); [injection H as <- _; reflexivity|].
  destruct (exec_body (func_test c) w) as [[w1 j]|] eqn:E; [|discriminate].
  injection H as <- _. exact (exec_body_shape _ _ _ _ E).
Qed.

Lemma teardown_test_shape w w' : teardown_test w = Some w' -> shape w' = shape w.
Proof.
  unfold teardown_test. intros H.
  destruct (current_set w); [|discriminate]. simpl in H.
  destruct (w_sets w !! _); [|discriminate]. simpl in H. injection H as <-.
  destruct (ts_teardown _); reflexivity.
Qed.

Lemma process_result_shape m m1 : process_result m = Some m1 -> shape (m_world m1) = shape (m_world m).
Proof.
  unfold process_result. intros H.
  destruct (m_tc m) as [tcp|]; [|discriminate]. simpl in H.
  destruct (current_set (m_world m)) as [sp|]; [|discriminate]. simpl in H.
  destruct (w_cases (m_world m) !! tcp) as [c|] eqn:Ec; [|discriminate]. simpl in H.
  destruct (invert c) as [st msg].
  destruct (update_case tcp (with_result st msg) (m_world m)) as [w1|] eqn:E1; [|discriminate].
  simpl in H. rewrite <- (shape_update_case _ _ _ _ E1 ltac:(intros; reflexivity)).
  destruct (deref_hooks m) as [h|]; [|discriminate]. simpl in H.
  destruct (set_context_logger h); [|discriminate]. simpl in H.
  set (w2 := match on_test_result h with
             | Some cb => emit (EvResult cb st) w1
             | None => emit (EvLog (default_result_line st msg)) w1
             end) in H.
  assert (shape w2 = shape w1) as E2 by (subst w2; destruct (on_test_result h); reflexivity).
  rewrite <- E2.
  destruct (w_sets w2 !! sp) as [s|]; [|discriminate]. simpl in H.
  destruct st;
    (destruct (update_set sp _ w2) as [w3|] eqn:E3; [|discriminate]);
    simpl in H; injection H as <-; simpl; rewrite shape_emit;
    exact (shape_update_set _ _ _ _ E3 ltac:(intros; reflexivity)).
Qed.

Lemma step_shape sets th m m' : step sets th m = Some m' -> shape (m_world m') = shape (m_world m).
Proof.
  intros H. unfold step in H. destruct (m_state m).
  all: repeat (simpl in H; match type of H with
    | (match ?x with _ => _ end) = Some _ => destruct x eqn:?; try discriminate
    | mbind _ ?x = Some _ => destruct x eqn:?; try discriminate
    | Some _ = Some _ => injection H as <-
    end).
  all: simpl.
  all: repeat (rewrite ?shape_emit, ?shape_call_hook, ?shape_set_globals; match goal with
    | |- ?x = ?x => reflexivity
    | E : runner_init _ _ _ = Some _ |- _ => apply runner_init_frame in E as (E1 & E2 & _);
        exact (shape_eq _ _ E1 E2)
    | E : update_set _ _ ?w = Some ?w' |- context [shape ?w'] =>
        rewrite (shape_update_set _ _ _ _ E ltac:(intros; reflexivity))
    | E : update_case _ _ ?w = Some ?w' |- context [shape ?w'] =>
        rewrite (shape_update_case _ _ _ _ E ltac:(intros; reflexivity))
    | E : teardown_test ?w = Some ?w' |- context [shape ?w'] => rewrite (teardown_test_shape _ _ E)
    | E : process_result _ = Some ?m1 |- context [shape (m_world ?m1)] => rewrite (process_result_shape _ _ E)
    | E : execute_fuzzing _ _ _ = Some ?w |- context [shape ?w] => rewrite (execute_fuzzing_shape _ _ _ _ E)
    | E : execute_test _ _ = Some (?w, _) |- context [shape ?w] => rewrite (execute_test_shape _ _ _ _ E)
    | |- context [match ?x with _ => _ end] => destruct x
    end).
Qed.

Lemma run_loop_shape sets th fuel m m' :
  run_loop sets th fuel m = Some m' -> shape (m_world m') = shape (m_world m).
Proof.
  revert m. induction fuel as [|fuel IH]; intros m H; simpl in H.
  - destruct (m_state m); try discriminate. injection H as <-. reflexivity.
  - assert (forall m1, step sets th m = Some m1 -> run_loop sets th fuel m1 = Some m' ->
              shape (m_world m') = shape (m_world m)) as K.
    { intros m1 E1 E2. rewrite (IH _ E2). exact (step_shape _ _ _ _ E1). }
    destruct (m_state m); try (injection H as <-; reflexivity);
      destruct (step sets th m) as [m1|] eqn:E; try discriminate; exact (K m1 eq_refl H).
Qed.

Lemma run_tests_shape sets th w code w' :
  run_tests sets th w = Some (code, w') -> shape w' = shape w.
Proof.
  intros H. destruct (run_tests_world _ _ _ _ _ H) as (m & E & <-).
  rewrite (run_loop_shape _ _ _ _ _ E). reflexivity.
Qed.

Lemma length_next_fields w : length (next_fields w) = length (w_cases w).
Proof. unfold next_fields. apply length_fmap. Qed.

Lemma chain_lt w q ps i : chain (next_fields w) q ps -> In i ps -> (i < length (w_cases w))%nat.
Proof.
  intros H Hi. destruct (chain_lookup _ _ _ _ H Hi) as [x Hx].
  rewrite <- length_next_fields. eapply lookup_lt_Some. exact Hx.
Qed.

Lemma last_In {A} (l : list A) x : last l = Some x -> In x l.
Proof.
  induction l as [|y l IH]; [discriminate|].
  destruct l as [|z l].
  - simpl. intros E. injection E as <-. left. reflexivity.
  - intros E. right. apply IH. exact E.
Qed.

Lemma NoDup_snoc {A} (l : list A) x : NoDup l -> ~ In x l -> NoDup (l ++ [x])%list.
Proof.
  intros Hl Hx. apply NoDup_app. split; [exact Hl|]. split; [|apply NoDup_singleton].
  intros y Hy Hy'. apply list_elem_of_singleton in Hy' as ->. apply Hx, list_elem_of_In, Hy.
Qed.

Lemma in_set_shape w w' sp i : shape w' = shape w -> in_set w' sp i -> in_set w sp i.
Proof.
  intros E (s' & ps & Hs & Hc & Hi). unfold shape in E. injection E as E1 E2.
  assert (Hl : (set_shape <$> w_sets w) !! sp = Some (set_shape s'))
    by (rewrite <- E2, list_lookup_fmap, Hs; reflexivity).
  rewrite list_lookup_fmap in Hl. destruct (w_sets w !! sp) as [s|] eqn:Es; [|discriminate].
  simpl in Hl. unfold set_shape in Hl. injection Hl as Ec Et Ecn.
  exists s, ps. rewrite Ec, <- E1. auto.
Qed.

Lemma registry_ok_shape w w' : shape w' = shape w -> registry_ok w -> registry_ok w'.
Proof.
  intros E (Ha & Hb & Hc). pose proof E as E'. unfold shape in E'. injection E' as E1 E2.
  split; [|split].
  - intros sp s' Hs'.
    assert (Hl : (set_shape <$> w_sets w) !! sp = Some (set_shape s'))
      by (rewrite <- E2, list_lookup_fmap, Hs'; reflexivity).
    rewrite list_lookup_fmap in Hl. destruct (w_sets w !! sp) as [s|] eqn:Es; [|discriminate].
    simpl in Hl. unfold set_shape in Hl. injection Hl as Ec Et Ecn.
    destruct (Ha sp s Es) as (ps & H1 & H2 & H3 & H4). exists ps.
    rewrite E1, <- Ec, <- Et, <- Ecn. auto.
  - intros i Hi.
    assert (length (w_cases w') = length (w_cases w)) as El
      by (rewrite <- !length_next_fields, E1; reflexivity).
    destruct (Hb i ltac:(lia)) as [sp Hsp]. exists sp.
    eapply in_set_shape; [symmetry; exact E|exact Hsp].
  - intros sp1 sp2 i H1 H2. eapply Hc; eapply in_set_shape; eassumption.
Qed.

Lemma init_registry_ok : registry_ok init_world.
Proof.
  split; [|split].
  - intros sp s Hs. simpl in Hs. rewrite lookup_nil in Hs. discriminate.
  - intros i Hi. simpl in Hi. lia.
  - intros sp1 sp2 i (s & _ & Hs & _). simpl in Hs. rewrite lookup_nil in Hs. discriminate.
Qed.

Lemma testset_registry_ok name cl w : registry_ok w -> registry_ok (testset name cl w).
Proof.
  intros (Ha & Hb & Hc).
  assert (Hback : forall sp i, in_set (testset name cl w) sp i -> in_set w sp i).
  { intros sp i (s & ps & Hs & Hch & Hi). simpl in Hs. apply lookup_app_Some in Hs as [Hs|(_ & Hs)].
    - exists s, ps. auto.
    - apply list_lookup_singleton_Some in Hs as [_ <-]. simpl in Hch.
      inversion Hch; subst. contradiction. }
  split; [|split].
  - intros sp s Hs. simpl in Hs. apply lookup_app_Some in Hs as [Hs|(_ & Hs)].
    + exact (Ha sp s Hs).
    + apply list_lookup_singleton_Some in Hs as [_ <-]. exists []. simpl.
      repeat split; constructor.
  - intros i Hi. destruct (Hb i Hi) as [sp (s & ps & Hs & Hch & Hin)].
    exists sp, s, ps. split; [|auto]. simpl. apply lookup_app_l_Some. exact Hs.
  - intros sp1 sp2 i H1 H2. exact (Hc _ _ _ (Hback _ _ H1) (Hback _ _ H2)).
Qed.

Lemma next_fields_set_sets ss w : next_fields (set_sets ss w) = next_fields w.
Proof. reflexivity. Qed.

Lemma next_fields_set_cases cs w : next_fields (set_cases cs w) = tc_next <$> cs.
Proof. reflexivity. Qed.

(** Registration of one more case at the end of the sequence of set [sp]. *)
Lemma registry_ok_append w w' sp s :
  registry_ok w -> w_sets w !! sp = Some s ->
  length (w_cases w') = S (length (w_cases w)) ->
  length (w_sets w') = length (w_sets w) ->
  (forall ps, chain (next_fields w) (ts_cases s) ps -> ts_tail s = last ps ->
     exists s', w_sets w' !! sp = Some s' /\
       chain (next_fields w') (ts_cases s') (ps ++ [length (w_cases w)])%list /\
       ts_count s' = ts_count s + 1 /\ ts_tail s' = Some (length (w_cases w))) ->
  (forall sp' s1 ps, sp' <> sp -> w_sets w !! sp' = Some s1 ->
     chain (next_fields w) (ts_cases s1) ps ->
     w_sets w' !! sp' = Some s1 /\ chain (next_fields w') (ts_cases s1) ps) ->
  registry_ok w'.
Proof.
  intros Hw Es Lc Ls Hsp Hoth. pose proof Hw as (Ha & Hb & Hc).
  set (n := length (w_cases w)) in *.
  destruct (Ha sp s Es) as (ps0 & Hch0 & Hnd0 & Hcnt0 & Htl0).
  destruct (Hsp ps0 Hch0 Htl0) as (s' & Es' & Hch' & Hcnt' & Htl').
  assert (Hold : forall sp1 s1', w_sets w' !! sp1 = Some s1' -> exists s1, w_sets w !! sp1 = Some s1).
  { intros sp1 s1' H. apply lookup_lt_Some in H. rewrite Ls in H.
    apply lookup_lt_is_Some_2 in H. exact H. }
  assert (Hback : forall sp1 i, in_set w' sp1 i -> (sp1 = sp /\ i = n) \/ in_set w sp1 i).
  { intros sp1 i (s1' & ps1 & Hs1 & Hch1 & Hi). destruct (decide (sp1 = sp)) as [->|Hne].
    - rewrite Es' in Hs1. injection Hs1 as <-.
      rewrite (chain_det _ _ _ _ Hch1 Hch') in Hi.
      apply in_app_or in Hi as [Hi|[<-|[]]]; [right; exists s, ps0; auto|left; auto].
    - right. destruct (Hold _ _ Hs1) as [s1 Hs1o].
      destruct (Ha _ _ Hs1o) as (ps1o & Hch1o & _).
      destruct (Hoth _ _ _ Hne Hs1o Hch1o) as [Hs1n Hch1n].
      rewrite Hs1 in Hs1n. injection Hs1n as <-.
      rewrite (chain_det _ _ _ _ Hch1 Hch1n) in Hi. exists s1', ps1o. auto. }
  assert (Hfwd : forall sp1 i, in_set w sp1 i -> in_set w' sp1 i).
  { intros sp1 i (s1 & ps1 & Hs1 & Hch1 & Hi). destruct (decide (sp1 = sp)) as [->|Hne].
    - rewrite Es in Hs1. injection Hs1 as <-. rewrite (chain_det _ _ _ _ Hch1 Hch0) in Hi.
      exists s', (ps0 ++ [n])%list. split; [exact Es'|]. split; [exact Hch'|].
      apply in_or_app. left. exact Hi.
    - destruct (Hoth _ _ _ Hne Hs1 Hch1) as [Hs1n Hch1n]. exists s1, ps1. auto. }
  split; [|split].
  - intros sp1 s1' Hs1. destruct (decide (sp1 = sp)) as [->|Hne].
    + rewrite Es' in Hs1. injection Hs1 as <-. exists (ps0 ++ [n])%list.
      split; [exact Hch'|]. split.
      * apply NoDup_snoc; [exact Hnd0|]. intros Hi. pose proof (chain_lt _ _ _ _ Hch0 Hi). lia.
      * split; [rewrite Hcnt', Hcnt0, length_app; simpl; lia|]. rewrite Htl', last_snoc. reflexivity.
    + destruct (Hold _ _ Hs1) as [s1 Hs1o].
      destruct (Ha _ _ Hs1o) as (ps1 & Hch1 & Hnd1 & Hcnt1 & Htl1).
      destruct (Hoth _ _ _ Hne Hs1o Hch1) as [Hs1n Hch1n].
      rewrite Hs1 in Hs1n. injection Hs1n as <-. exists ps1. auto.
  - intros i Hi. rewrite Lc in Hi. destruct (decide (i = n)) as [->|Hne].
    + exists sp, s', (ps0 ++ [n])%list. split; [exact Es'|]. split; [exact Hch'|].
      apply in_or_app. right. left. reflexivity.
    + destruct (Hb i ltac:(lia)) as [sp1 H1]. exists sp1. apply Hfwd, H1.
  - intros sp1 sp2 i H1 H2.
    destruct (Hback _ _ H1) as [[E1 Ei]|H1o], (Hback _ _ H2) as [[E2 Ei']|H2o].
    + congruence.
    + subst i. destruct H2o as (? & ? & _ & Hch & Hi). pose proof (chain_lt _ _ _ _ Hch Hi). lia.
    + subst i. destruct H1o as (? & ? & _ & Hch & Hi). pose proof (chain_lt _ _ _ _ Hch Hi). lia.
    + exact (Hc _ _ _ H1o H2o).
Qed.

Lemma register_case_registry_ok tc w0 w' :
  tc_next tc = None -> registry_ok w0 -> register_case tc w0 = Some w' -> registry_ok w'.
Proof.
  intros Htc Hw0 H. unfold register_case in H.
  set (w := match current_set w0 with None => testset "default" None w0 | Some _ => w0 end) in H.
  assert (registry_ok w) as Hw
    by (subst w; destruct (current_set w0); [exact Hw0|apply testset_registry_ok, Hw0]).
  clearbody w. pose proof Hw as (Ha & Hb & Hc).
  destruct (current_set w) as [sp|]; [|discriminate]. simpl in H.
  destruct (w_sets w !! sp) as [s|] eqn:Es; [|discriminate]. simpl in H.
  destruct (ts_cases s) as [hd|] eqn:Ecs.
  - destruct (ts_tail s) as [tp|] eqn:Et; [|discriminate]. simpl in H.
    destruct (update_case tp _ _) as [w2|] eqn:E2; [|discriminate]. simpl in H.
    apply update_set_Some in H as (s0 & Hs0 & ->).
    apply update_case_Some in E2 as (c & Hc0 & ->). simpl in Hs0. rewrite Es in Hs0.
    injection Hs0 as <-.
    assert (Enx : tc_next <$> <[tp := with_next (Some (length (w_cases w))) c]> (w_cases w ++ [tc])%list
        = <[tp := Some (length (next_fields w))]> (next_fields w ++ [None])%list).
    { unfold next_fields. rewrite list_fmap_insert, fmap_app. simpl. rewrite Htc, length_fmap.
      reflexivity. }
    apply (registry_ok_append w _ sp s Hw Es).
    + simpl. rewrite length_insert, length_app. simpl. lia.
    + simpl. apply length_insert.
    + intros ps Hch Htl. eexists. split.
      * simpl. apply list_lookup_insert_eq. eapply lookup_lt_Some. exact Es.
      * rewrite next_fields_set_sets, next_fields_set_cases. simpl. rewrite Enx, Ecs, <- length_next_fields. split; [|split; reflexivity].
        rewrite <- Ecs. apply chain_snoc; [exact Hch|]. congruence.
    + intros sp' s1 ps Hne Hs1 Hch. split.
      * simpl. rewrite list_lookup_insert_ne by congruence. exact Hs1.
      * rewrite next_fields_set_sets, next_fields_set_cases. simpl. rewrite Enx. apply chain_insert_notin; [apply chain_app, Hch|].
        intros Hin. apply Hne. apply (Hc sp' sp tp); [exists s1, ps; auto|].
        destruct (Ha sp s Es) as (ps0 & Hch0 & _ & _ & Htl0).
        exists s, ps0. split; [exact Es|]. split; [exact Hch0|]. apply last_In. congruence.
  - apply update_set_Some in H as (s0 & Hs0 & ->). simpl in Hs0. rewrite Es in Hs0.
    injection Hs0 as <-.
    apply (registry_ok_append w _ sp s Hw Es).
    + simpl. rewrite length_app. simpl. lia.
    + simpl. apply length_insert.
    + intros ps Hch Htl. rewrite Ecs in Hch. inversion Hch; subst. eexists. split.
      * simpl. apply list_lookup_insert_eq. eapply lookup_lt_Some. exact Es.
      * simpl. split; [|split; [lia|reflexivity]].
        apply (chain_cons _ _ None); [|constructor].
        unfold next_fields. simpl. rewrite list_lookup_fmap, lookup_app_r, Nat.sub_diag by lia.
        simpl. rewrite Htc. reflexivity.
    + intros sp' s1 ps Hne Hs1 Hch. split.
      * simpl. rewrite list_lookup_insert_ne by congruence. exact Hs1.
      * unfold next_fields. simpl. rewrite fmap_app. apply chain_app, Hch.
Qed.

Lemma reg_op_registry_ok op w w' : registry_ok w -> reg_op op w = Some w' -> registry_ok w'.
Proof.
  intros Hw H. destruct op; simpl in H;
    try (eapply register_case_registry_ok; [|exact Hw|exact H]; reflexivity).
  - injection H as <-. apply testset_registry_ok, Hw.
  - unfold setup_testcase in H. destruct (current_set w); [|injection H as <-; exact Hw].
    eapply registry_ok_shape; [|exact Hw]. eapply shape_update_set; [exact H|]. reflexivity.
  - unfold teardown_testcase in H. destruct (current_set w); [|injection H as <-; exact Hw].
    eapply registry_ok_shape; [|exact Hw]. eapply shape_update_set; [exact H|]. reflexivity.
  - injection H as <-. exact Hw.
  - unfold register_hooks in H. simpl in H.
    destruct (current_set w); [|injection H as <-; exact Hw].
    destruct (w_sets w !! _) as [s|]; [|discriminate]. simpl in H.
    destruct (ts_hooks s); [injection H as <-; exact Hw|].
    eapply registry_ok_shape; [|exact Hw].
    rewrite (shape_update_set _ _ _ _ H ltac:(intros; reflexivity)). reflexivity.
Qed.

Lemma reachable_registry_ok w : Reachable w -> registry_ok w.
Proof.
  induction 1.
  - exact init_registry_ok.
  - eapply reg_op_registry_ok; eassumption.
  - eapply registry_ok_shape; [eapply run_tests_shape; eassumption|assumption].
Qed.

(** C8.  In every process state reached from start-up by registration calls
    and complete runs (so after registration, and before and after a run),
    the [count] of each registered set equals the length of the NULL-terminated
    sequence of cases that starts at its [cases] pointer (a sequence without
    repetition), and every case of the store is in the sequence of exactly
    one set. *)
Theorem set_count_is_sequence_length w :
  Reachable w ->
  (forall sp s, w_sets w !! sp = Some s ->
     exists ps, chain (next_fields w) (ts_cases s) ps /\ NoDup ps /\
       ts_count s = Z.of_nat (length ps)) /\
  (forall i, (i < length (w_cases w))%nat ->
     exists sp, in_set w sp i /\ forall sp', in_set w sp' i -> sp' = sp).
Proof.
  intros Hr. destruct (reachable_registry_ok w Hr) as (Ha & Hb & Hc). split.
  - intros sp s Hs. destruct (Ha sp s Hs) as (ps & H1 & H2 & H3 & _). exists ps. auto.
  - intros i Hi. destruct (Hb i Hi) as [sp Hsp]. exists sp. split; [exact Hsp|].
    intros sp' Hsp'. exact (Hc _ _ _ Hsp' Hsp).
Qed.

Lemma set_count_is_sequence_length_witness :
  exists w code w',
    register_all [RTestset "A" None; RTestcase "a1" []; RTestcase "a2" [];
                  RTestset "B" None; RTestcase "b1" []] init_world = Some w /\
    run_tests (test_sets w) (current_hooks w) w = Some (code, w') /\
    ((forall sp s, w_sets w' !! sp = Some s ->
       exists ps, chain (next_fields w') (ts_cases s) ps /\ NoDup ps /\
         ts_count s = Z.of_nat (length ps)) /\
     (forall i, (i < length (w_cases w'))%nat ->
       exists sp, in_set w' sp i /\ forall sp', in_set w' sp' i -> sp' = sp)).
Proof.
  let v := eval vm_compute in
    (register_all [RTestset "A" None; RTestcase "a1" []; RTestcase "a2" [];
                   RTestset "B" None; RTestcase "b1" []] init_world) in
  match v with Some ?w => exists w end.
  do 2 eexists.
  match goal with |- _ /\ run_tests ?a ?b ?x = Some (?e1, ?e2) /\ _ =>
    let v := eval vm_compute in (run_tests a b x) in
    match v with Some (?y1, ?y2) => unify e1 y1; unify e2 y2 end end.
  match goal with |- ?A /\ ?B /\ _ =>
    assert (H1 : A) by (vm_compute; reflexivity);
    assert (H2 : B) by (vm_compute; reflexivity) end.
  split; [exact H1|]. split; [exact H2|].
  apply set_count_is_sequence_length.
  eapply reach_run; [|exact H2].
  eapply register_all_reachable; [exact reach_init|exact H1].
Defined.

(* ================================================================== *)
(** * Further properties of the code *)

(* ------------------------------------------------------------------ *)
(** ** Assertions *)

Lemma SFcompare_swap a b : SFcompare b a = option_map CompOpp (SFcompare a b).
Proof.
  destruct a as [sa|sa| |sa ma ea], b as [sb|sb| |sb mb eb]; simpl;
    try destruct sa; try destruct sb; try reflexivity.
  all: rewrite (Z.compare_antisym ea eb); destruct (Z.compare ea eb); simpl; try reflexivity.
  all: pose proof (Pos.compare_cont_antisym ma mb Eq) as K; simpl in K; rewrite <- K.
  all: destruct (Pos.compare_cont Eq ma mb); reflexivity.
Qed.

Lemma SFltb_SFleb_swap a b : SFcompare a b <> None -> SFltb a b = negb (SFleb b a).
Proof.
  unfold SFltb, SFleb. rewrite (SFcompare_swap a b).
  destruct (SFcompare a b) as [[| |]|]; simpl; congruence.
Qed.

Lemma SFabs_nan x : SFabs x = S754_nan <-> x = S754_nan.
Proof. destruct x; simpl; split; congruence. Qed.

Lemma SFcompare_eps_None eps d :
  eps <> S754_nan -> SFcompare eps d = None <-> d = S754_nan.
Proof.
  intros He. destruct eps as [s|s| |s m e]; try congruence;
    destruct d as [t|t| |t n f]; simpl; split; try congruence;
    try (destruct s; destruct t; discriminate); destruct s, t; discriminate.
Qed.

Lemma eq_neq_core eps d : eps <> S754_nan ->
  (SFltb eps d = false \/ SFleb d eps = false) /\
  (SFltb eps d = false /\ SFleb d eps = false <-> d = S754_nan).
Proof.
  intros He. destruct (SFcompare eps d) eqn:Ec.
  - assert (d <> S754_nan) as Hd by (intros ->; pose proof (proj2 (SFcompare_eps_None eps S754_nan He) eq_refl); congruence).
    rewrite (SFltb_SFleb_swap eps d) by congruence.
    destruct (SFleb d eps); simpl; split; [auto|split; [intros [? ?]; discriminate|congruence]
                                      |auto|split; [intros [? ?]; discriminate|congruence]].
  - apply (SFcompare_eps_None eps d He) in Ec as ->.
    unfold SFltb, SFleb. rewrite (SFcompare_swap S754_nan eps).
    destruct eps; simpl; try congruence; tauto.
Qed.

(** [areEqual] and [areNotEqual] on [FLOAT] or [DOUBLE] operands: at least
    one of the two passes, and both pass exactly when [expected - actual]
    is NaN (a NaN operand, or infinities of the same sign). *)
Theorem float_equal_not_equal_nan (e a : spec_float) (u u' : option string) :
  ((fst (assert_outcome (AreEqual (OpFloat e a) u)) = PASS \/
    fst (assert_outcome (AreNotEqual (OpFloat e a) u')) = PASS) /\
   (fst (assert_outcome (AreEqual (OpFloat e a) u)) = PASS /\
    fst (assert_outcome (AreNotEqual (OpFloat e a) u')) = PASS <->
    SFsub prec32 emax32 e a = S754_nan)) /\
  ((fst (assert_outcome (AreEqual (OpDouble e a) u)) = PASS \/
    fst (assert_outcome (AreNotEqual (OpDouble e a) u')) = PASS) /\
   (fst (assert_outcome (AreEqual (OpDouble e a) u)) = PASS /\
    fst (assert_outcome (AreNotEqual (OpDouble e a) u')) = PASS <->
    SFsub prec64 emax64 e a = S754_nan)).
Proof.
  simpl. unfold fdiff_gt. split.
  - pose proof (eq_neq_core FLT_EPSILON (SFabs (SFsub prec32 emax32 e a)) ltac:(discriminate))
      as [H1 H2].
    rewrite SFabs_nan in H2.
    destruct (SFltb FLT_EPSILON _), (SFleb (SFabs _) FLT_EPSILON); simpl;
      intuition congruence.
  - pose proof (eq_neq_core DBL_EPSILON (SFabs (SFsub prec64 emax64 e a)) ltac:(discriminate))
      as [H1 H2].
    rewrite SFabs_nan in H2.
    destruct (SFltb DBL_EPSILON _), (SFleb (SFabs _) DBL_EPSILON); simpl;
      intuition congruence.
Qed.

(** Every assertion reports [PASS] with no message, and any other state
    with a message; only [Assert.skip] reports [SKIP]. *)
Theorem assert_pass_iff_no_message (a : Assertion) :
  (fst (assert_outcome a) = PASS <-> snd (assert_outcome a) = None) /\
  (fst (assert_outcome a) = SKIP -> exists u, a = Skip u).
Proof.
  destruct a as [c u|c u|p u|p u|ops u|ops u|v lo hi u|e ac cs u|u|u|u]; simpl.
  all: try (destruct ops; simpl).
  all: repeat match goal with
         | |- context [if ?b then _ else _] => destruct b
         | |- context [match ?b with true => _ | false => _ end] => destruct b
         end; simpl.
  all: split; [split; congruence|intros; try discriminate; eauto].
Qed.

(** [areEqual] and [areNotEqual] on [INT], [CHAR] and [PTR] operands are
    exact complements: the first passes iff the two values are equal, the
    second iff they differ. *)
Theorem int_equal_not_equal_complement (k : Z -> Z -> Operands) (e a : Z) u u' :
  k = OpInt \/ k = OpChar \/ k = OpPtr ->
  (fst (assert_outcome (AreEqual (k e a) u)) = PASS <-> e = a) /\
  (fst (assert_outcome (AreNotEqual (k e a) u')) = PASS <-> e <> a).
Proof.
  intros Hk. destruct (Z.eqb_spec e a) as [<-|Hne].
  - destruct Hk as [Hk|[Hk|Hk]]; subst k; simpl; rewrite Z.eqb_refl; simpl;
      split; split; intros; congruence.
  - apply Z.eqb_neq in Hne as Hb.
    destruct Hk as [Hk|[Hk|Hk]]; subst k; simpl; rewrite Hb; simpl;
      split; split; intros; congruence.
Qed.

(** [LONG] operands: [areEqual] compares the two values, but
    [areNotEqual] has no [LONG] case and always fails with
    "Unsupported type for comparison", whatever the values. *)
Theorem long_not_equal_unsupported (e a : Z) u u' :
  (fst (assert_outcome (AreEqual (OpLong e a) u)) = PASS <-> e = a) /\
  assert_outcome (AreNotEqual (OpLong e a) u') = (FAIL, Some "Unsupported type for comparison").
Proof.
  simpl. split; [|reflexivity].
  destruct (Z.eqb_spec e a); simpl; split; congruence.
Qed.

Lemma SFcompare_None x y : SFcompare x y = None <-> x = S754_nan \/ y = S754_nan.
Proof.
  destruct x as [sx|sx| |sx mx ex], y as [sy|sy| |sy my ey]; simpl;
    try destruct sx; try destruct sy; try (split; [discriminate|intros [?|?]; discriminate]);
    try (split; [intros _|]; auto).
  all: repeat match goal with
         | |- context [match ?c with _ => _ end] => destruct c
         end; split; try discriminate; intros [?|?]; discriminate.
Qed.

Lemma SFltb_false x y :
  SFltb x y = false <-> x = S754_nan \/ y = S754_nan \/ SFleb y x = true.
Proof.
  destruct (SFcompare x y) eqn:E.
  - assert (x <> S754_nan /\ y <> S754_nan) as [Hx Hy].
    { split; intros ->.
      - pose proof (proj2 (SFcompare_None S754_nan y) (or_introl eq_refl)); congruence.
      - pose proof (proj2 (SFcompare_None x S754_nan) (or_intror eq_refl)); congruence. }
    rewrite (SFltb_SFleb_swap x y) by congruence.
    destruct (SFleb y x); simpl; intuition congruence.
  - apply SFcompare_None in E as E'.
    unfold SFltb. rewrite E. intuition.
Qed.

(** [floatWithin] fails only when the value compares below [min] or above
    [max]: a NaN value passes for any bounds, and a NaN bound checks
    nothing on its side. *)
Theorem float_within_nan_passes (v lo hi : spec_float) u :
  fst (assert_outcome (FloatWithin v lo hi u)) = PASS <->
  v = S754_nan \/
  ((lo = S754_nan \/ SFleb lo v = true) /\ (hi = S754_nan \/ SFleb v hi = true)).
Proof.
  assert (fst (assert_outcome (FloatWithin v lo hi u)) = PASS <->
          SFltb v lo = false /\ SFltb hi v = false) as ->.
  { simpl. destruct (SFltb v lo), (SFltb hi v); simpl; intuition congruence. }
  rewrite (SFltb_false v lo), (SFltb_false hi v). tauto.
Qed.

(** [stringEqual] with [case_sensitive] set passes exactly on equal
    strings, and whatever passes case-sensitively also passes
    case-insensitively. *)
Theorem string_equal_case_sensitivity (e a : string) (cs : Z) u u' :
  cs <> 0 ->
  (fst (assert_outcome (StringEqual e a cs u)) = PASS <-> e = a) /\
  (fst (assert_outcome (StringEqual e a cs u)) = PASS ->
   fst (assert_outcome (StringEqual e a 0 u')) = PASS).
Proof.
  intros Hcs. simpl. unfold str_equal.
  apply Z.eqb_neq in Hcs. rewrite Hcs. simpl.
  destruct (String.eqb_spec e a) as [<-|Hne]; simpl.
  - rewrite String.eqb_refl. split; [split; auto|auto].
  - split; [split; [discriminate|congruence]|discriminate].
Qed.

Lemma length_substring_0 n s : (String.length (substring 0 n s) <= n)%nat.
Proof.
  revert n; induction s as [|c s IH]; intros [|n]; simpl; try lia.
  specialize (IH n). lia.
Qed.

Lemma length_trunc_256 s : (String.length (trunc 256 s) <= 255)%nat.
Proof. apply length_substring_0. Qed.

Lemma length_gen_equals_fail_msg ops u : (String.length (gen_equals_fail_msg ops u) <= 255)%nat.
Proof.
  destruct ops; cbv beta iota zeta delta [gen_equals_fail_msg];
    try (match goal with |- context [if ?b then _ else _] => destruct b end;
         apply length_trunc_256).
  all: vm_compute; lia.
Qed.

Lemma length_fail_msg head u :
  (String.length head <= 255)%nat -> (String.length (fail_msg head u) <= 255)%nat.
Proof.
  intros H. unfold fail_msg.
  destruct (String.eqb (user_text u) ""); [exact H|apply length_trunc_256].
Qed.

(** Every message an assertion records fits the 256-byte buffer it is
    formatted into: at most 255 characters. *)
Theorem assert_message_fits_buffer (a : Assertion) (m : string) :
  snd (assert_outcome a) = Some m -> (String.length m <= 255)%nat.
Proof.
  intros H.
  destruct a as [c u|c u|p u|p u|ops u|ops u|v lo hi u|e ac cs u|u|u|u]; simpl in H.
  all: repeat match type of H with
         | context [if ?b then _ else _] => destruct b
         | context [match ?b with true => _ | false => _ end] => destruct b
         end; simpl in H; try discriminate.
  all: try (injection H as <-).
  all: try (apply length_fail_msg; vm_compute; lia).
  all: try apply length_gen_equals_fail_msg.
  all: destruct ops; simpl in H; try discriminate;
    repeat match type of H with
         | context [match ?b with true => _ | false => _ end] => destruct b
         end; try discriminate; injection H as <-;
    first [apply length_gen_equals_fail_msg | vm_compute; lia].
Qed.

(** ** Registration *)

Lemma order_ok_shape w w' : shape w' = shape w -> order_ok w -> order_ok w'.
Proof.
  intros E H i j Hij. unfold shape in E. injection E as E1 _.
  apply H. rewrite <- E1. exact Hij.
Qed.

Lemma order_ok_snoc nx : (forall i j, nx !! i = Some (Some j) -> (i < j)%nat) ->
  forall i j, (nx ++ [None])%list !! i = Some (Some j) -> (i < j)%nat.
Proof.
  intros H i j Hij. apply lookup_app_Some in Hij as [Hij|(_ & Hij)]; [exact (H _ _ Hij)|].
  apply list_lookup_singleton_Some in Hij as [_ ?]. discriminate.
Qed.

Lemma registry_tail_lt w sp s tp :
  registry_ok w -> w_sets w !! sp = Some s -> ts_tail s = Some tp -> (tp < length (w_cases w))%nat.
Proof.
  intros (Ha & _ & _) Hs Ht. destruct (Ha sp s Hs) as (ps & Hch & _ & _ & Htl).
  eapply chain_lt; [exact Hch|]. apply last_In. congruence.
Qed.

Lemma register_case_order_ok tc w0 w' :
  tc_next tc = None -> registry_ok w0 -> order_ok w0 -> register_case tc w0 = Some w' -> order_ok w'.
Proof.
  intros Htc Hw0 Ho0 H. unfold register_case in H.
  set (w := match current_set w0 with None => testset "default" None w0 | Some _ => w0 end) in H.
  assert (registry_ok w) as Hw
    by (subst w; destruct (current_set w0); [exact Hw0|apply testset_registry_ok, Hw0]).
  assert (order_ok w) as Ho by (subst w; destruct (current_set w0); exact Ho0).
  clearbody w.
  destruct (current_set w) as [sp|]; [|discriminate]. simpl in H.
  destruct (w_sets w !! sp) as [s|] eqn:Es; [|discriminate]. simpl in H.
  unfold order_ok in *.
  destruct (ts_cases s) as [hd|] eqn:Ecs.
  - destruct (ts_tail s) as [tp|] eqn:Et; [|discriminate]. simpl in H.
    destruct (update_case tp _ _) as [w2|] eqn:E2; [|discriminate]. simpl in H.
    apply update_set_Some in H as (s0 & _ & ->).
    apply update_case_Some in E2 as (c & Hc0 & ->).
    pose proof (registry_tail_lt w sp s tp Hw Es Et) as Htp.
    intros i j Hij.
    rewrite next_fields_set_sets, next_fields_set_cases in Hij.
    simpl in Hij. rewrite list_fmap_insert, fmap_app in Hij. simpl in Hij. rewrite Htc in Hij.
    destruct (decide (i = tp)) as [->|Hne].
    + rewrite list_lookup_insert_eq in Hij
        by (rewrite length_app, length_fmap; simpl; lia).
      injection Hij as <-. exact Htp.
    + rewrite list_lookup_insert_ne in Hij by congruence.
      exact (order_ok_snoc _ Ho i j Hij).
  - apply update_set_Some in H as (s0 & _ & ->).
    intros i j Hij.
    rewrite next_fields_set_sets, next_fields_set_cases, fmap_app in Hij. simpl in Hij.
    rewrite Htc in Hij. exact (order_ok_snoc _ Ho i j Hij).
Qed.

Lemma reg_op_order_ok op w w' :
  registry_ok w -> order_ok w -> reg_op op w = Some w' -> order_ok w'.
Proof.
  intros Hw Ho H. destruct op; simpl in H;
    try (eapply register_case_order_ok; [|exact Hw|exact Ho|exact H]; reflexivity).
  - injection H as <-. exact Ho.
  - unfold setup_testcase in H. destruct (current_set w); [|injection H as <-; exact Ho].
    eapply order_ok_shape; [|exact Ho]. eapply shape_update_set; [exact H|]. reflexivity.
  - unfold teardown_testcase in H. destruct (current_set w); [|injection H as <-; exact Ho].
    eapply order_ok_shape; [|exact Ho]. eapply shape_update_set; [exact H|]. reflexivity.
  - injection H as <-. exact Ho.
  - unfold register_hooks in H. simpl in H.
    destruct (current_set w); [|injection H as <-; exact Ho].
    destruct (w_sets w !! _) as [s|]; [|discriminate]. simpl in H.
    destruct (ts_hooks s); [injection H as <-; exact Ho|].
    eapply order_ok_shape; [|exact Ho].
    rewrite (shape_update_set _ _ _ _ H ltac:(intros; reflexivity)). reflexivity.
Qed.

Lemma reachable_order_ok w : Reachable w -> order_ok w.
Proof.
  induction 1 as [|w op w' Hr IH E|w sets th code w' Hr IH E].
  - intros i j Hij. discriminate.
  - eapply reg_op_order_ok; [apply reachable_registry_ok, Hr|exact IH|exact E].
  - eapply order_ok_shape; [eapply run_tests_shape; exact E|exact IH].
Qed.

Lemma chain_increasing nx q ps :
  (forall i j, nx !! i = Some (Some j) -> (i < j)%nat) -> chain nx q ps ->
  forall k a b, ps !! k = Some a -> ps !! S k = Some b -> (a < b)%nat.
Proof.
  intros Hnx. induction 1 as [|p q ps Hp Hch IH]; intros k a b Ha Hb; [discriminate|].
  destruct k as [|k].
  - simpl in Ha, Hb. injection Ha as <-.
    destruct Hch as [|p' q' ps']; [discriminate|]. simpl in Hb. injection Hb as <-.
    exact (Hnx _ _ Hp).
  - exact (IH k a b Ha Hb).
Qed.

Lemma increasing_sorted (ps : list nat) :
  (forall k a b, ps !! k = Some a -> ps !! S k = Some b -> (a < b)%nat) ->
  forall d k a b, ps !! k = Some a -> ps !! (k + S d)%nat = Some b -> (a < b)%nat.
Proof.
  intros H d. induction d as [|d IH]; intros k a b Ha Hb.
  - rewrite Nat.add_1_r in Hb. exact (H _ _ _ Ha Hb).
  - assert (is_Some (ps !! (k + S d)%nat)) as [x Hx]
      by (apply lookup_lt_is_Some; apply lookup_lt_Some in Hb; lia).
    pose proof (IH k a x Ha Hx).
    rewrite (Nat.add_succ_r k (S d)) in Hb. pose proof (H _ _ _ Hx Hb). lia.
Qed.

(** The cases of a set are linked in registration order: along the
    sequence the runner follows from the set's [cases] pointer through the
    [next] fields, a case always comes before every case registered after
    it, in every reachable process state. *)
Theorem cases_run_in_registration_order w sp s ps k1 k2 a b :
  Reachable w -> w_sets w !! sp = Some s -> chain (next_fields w) (ts_cases s) ps ->
  (k1 < k2)%nat -> ps !! k1 = Some a -> ps !! k2 = Some b -> (a < b)%nat.
Proof.
  intros Hr Hs Hch Hk Ha Hb.
  pose proof (chain_increasing _ _ _ (reachable_order_ok w Hr) Hch) as Hinc.
  replace k2 with (k1 + S (k2 - k1 - 1))%nat in Hb by lia.
  exact (increasing_sorted ps Hinc _ _ _ _ Ha Hb).
Qed.

Lemma links_eq w w' : test_sets w' = test_sets w -> w_sets w' = w_sets w -> set_links w' = set_links w.
Proof. unfold set_links. intros -> ->. reflexivity. Qed.

Lemma links_emit e w : set_links (emit e w) = set_links w.
Proof. reflexivity. Qed.

Lemma links_call_hook slot d w : set_links (call_hook slot d w) = set_links w.
Proof.
  apply links_eq; [|apply w_sets_call_hook].
  unfold call_hook. destruct slot; [reflexivity|].
  revert w. induction d as [|e d IH]; intros w; simpl; [reflexivity|]. rewrite IH. reflexivity.
Qed.

Lemma links_update_case p f w w' : update_case p f w = Some w' -> set_links w' = set_links w.
Proof. intros H. apply update_case_Some in H as (c & _ & ->). reflexivity. Qed.

Lemma links_update_set p f w w' :
  update_set p f w = Some w' -> (forall s, ts_next (f s) = ts_next s) -> set_links w' = set_links w.
Proof.
  intros H Hf. apply update_set_Some in H as (s & Hs & ->).
  unfold set_links. simpl. rewrite list_fmap_insert, Hf, list_insert_id; [reflexivity|].
  rewrite list_lookup_fmap, Hs. reflexivity.
Qed.

Lemma run_assertion_links a w w' j : run_assertion a w = Some (w', j) -> set_links w' = set_links w.
Proof.
  unfold run_assertion. destruct (assert_outcome a) as [st msg].
  unfold set_test_context. intros H.
  destruct (current_set w) as [sp|]; [|injection H as <- _; reflexivity].
  destruct (w_sets w !! sp) as [s|]; [|discriminate].
  destruct (ts_current s) as [cp|]; [|injection H as <- _; reflexivity].
  destruct (update_case cp (with_result st msg) w) as [w1|] eqn:E; [|discriminate].
  injection H as <- _. exact (links_update_case _ _ _ _ E).
Qed.

Lemma execute_fuzzing_links tcp ds w w' :
  execute_fuzzing tcp ds w = Some w' -> set_links w' = set_links w.
Proof.
  unfold execute_fuzzing. intros H.
  destruct (w_cases w !! tcp) as [c|]; [|discriminate]. simpl in H.
  destruct (fuzz_loop tcp (func_fuzz c) ds 0 w) as [[w1 k]|] eqn:E; [|discriminate].
  assert (set_links w1 = set_links w) as H1.
  { eapply (fuzz_loop_preserves (fun x => set_links x = set_links w)); [| | |reflexivity|exact E].
    - intros e x Hx. exact Hx.
    - intros a x x' j' Hx Ea. rewrite (run_assertion_links _ _ _ _ Ea). exact Hx.
    - intros x x' Hx Eu. rewrite (links_update_case _ _ _ _ Eu). exact Hx. }
  destruct (k =? 0); rewrite (links_update_case _ _ _ _ H); exact H1.
Qed.

Lemma execute_test_links tcp w w' st :
  execute_test tcp w = Some (w', st) -> set_links w' = set_links w.
Proof.
  unfold execute_test. intros H.
  destruct (w_cases w !! tcp) as [c|]; [|discriminate]. simpl in H.
  destruct (is_fuzz c); [injection H as <- _; reflexivity|].
  destruct (exec_body (func_test c) w) as [[w1 j]|] eqn:E; [|discriminate].
  injection H as <- _.
  apply (exec_body_preserves (fun x => set_links x = set_links w)) in E; [exact E| | |reflexivity].
  - intros e x Hx. exact Hx.
  - intros a x x' j' Hx Ea. rewrite (run_assertion_links _ _ _ _ Ea). exact Hx.
Qed.

Lemma teardown_test_links w w' : teardown_test w = Some w' -> set_links w' = set_links w.
Proof.
  unfold teardown_test. intros H.
  destruct (current_set w); [|discriminate]. simpl in H.
  destruct (w_sets w !! _); [|discriminate]. simpl in H. injection H as <-.
  destruct (ts_teardown _); reflexivity.
Qed.

Lemma process_result_links m m1 :
  process_result m = Some m1 -> set_links (m_world m1) = set_links (m_world m).
Proof.
  unfold process_result. intros H.
  destruct (m_tc m) as [tcp|]; [|discriminate]. simpl in H.
  destruct (current_set (m_world m)) as [sp|]; [|discriminate]. simpl in H.
  destruct (w_cases (m_world m) !! tcp) as [c|] eqn:Ec; [|discriminate]. simpl in H.
  destruct (invert c) as [st msg].
  destruct (update_case tcp (with_result st msg) (m_world m)) as [w1|] eqn:E1; [|discriminate].
  simpl in H. rewrite <- (links_update_case _ _ _ _ E1).
  destruct (deref_hooks m) as [h|]; [|discriminate]. simpl in H.
  destruct (set_context_logger h); [|discriminate]. simpl in H.
  set (w2 := match on_test_result h with
             | Some cb => emit (EvResult cb st) w1
             | None => emit (EvLog (default_result_line st msg)) w1
             end) in H.
  assert (set_links w2 = set_links w1) as E2 by (subst w2; destruct (on_test_result h); reflexivity).
  rewrite <- E2.
  destruct (w_sets w2 !! sp) as [s|]; [|discriminate]. simpl in H.
  destruct st;
    (destruct (update_set sp _ w2) as [w3|] eqn:E3; [|discriminate]);
    simpl in H; injection H as <-; simpl;
    exact (links_update_set _ _ _ _ E3 ltac:(intros; reflexivity)).
Qed.

Lemma step_links sets th m m' :
  step sets th m = Some m' -> set_links (m_world m') = set_links (m_world m).
Proof.
  intros H. unfold step in H. destruct (m_state m).
  all: repeat (simpl in H; match type of H with
    | (match ?x with _ => _ end) = Some _ => destruct x eqn:?; try discriminate
    | mbind _ ?x = Some _ => destruct x eqn:?; try discriminate
    | Some _ = Some _ => injection H as <-
    end).
  all: simpl.
  all: repeat (rewrite ?links_emit, ?links_call_hook; match goal with
    | |- _ = _ => reflexivity
    | E : runner_init _ _ _ = Some _ |- _ => apply runner_init_frame in E as (_ & E2 & _ & E4 & _);
        exact (links_eq _ _ E4 E2)
    | E : update_set _ _ ?w = Some ?w' |- context [set_links ?w'] =>
        rewrite (links_update_set _ _ _ _ E ltac:(intros; reflexivity))
    | E : update_case _ _ ?w = Some ?w' |- context [set_links ?w'] =>
        rewrite (links_update_case _ _ _ _ E)
    | E : teardown_test ?w = Some ?w' |- context [set_links ?w'] => rewrite (teardown_test_links _ _ E)
    | E : process_result _ = Some ?m1 |- context [set_links (m_world ?m1)] =>
        rewrite (process_result_links _ _ E)
    | E : execute_fuzzing _ _ _ = Some ?w |- context [set_links ?w] =>
        rewrite (execute_fuzzing_links _ _ _ _ E)
    | E : execute_test _ _ = Some (?w, _) |- context [set_links ?w] =>
        rewrite (execute_test_links _ _ _ _ E)
    | |- context [match ?x with _ => _ end] => destruct x
    end).
Qed.

Lemma run_loop_links sets th fuel m m' :
  run_loop sets th fuel m = Some m' -> set_links (m_world m') = set_links (m_world m).
Proof.
  revert m. induction fuel as [|fuel IH]; intros m H; simpl in H.
  - destruct (m_state m); try discriminate. injection H as <-. reflexivity.
  - assert (forall m1, step sets th m = Some m1 -> run_loop sets th fuel m1 = Some m' ->
              set_links (m_world m') = set_links (m_world m)) as K.
    { intros m1 E1 E2. rewrite (IH _ E2). exact (step_links _ _ _ _ E1). }
    destruct (m_state m); try (injection H as <-; reflexivity);
      destruct (step sets th m) as [m1|] eqn:E; try discriminate; exact (K m1 eq_refl H).
Qed.

Lemma run_tests_links sets th w code w' :
  run_tests sets th w = Some (code, w') -> set_links w' = set_links w.
Proof.
  intros H. destruct (run_tests_world _ _ _ _ _ H) as (m & E & <-).
  rewrite (run_loop_links _ _ _ _ _ E). reflexivity.
Qed.

Lemma links_ok_eq w w' : set_links w' = set_links w -> links_ok w -> links_ok w'.
Proof. unfold links_ok. intros ->. exact id. Qed.

Lemma testset_links_ok name cl w : links_ok w -> links_ok (testset name cl w).
Proof.
  unfold links_ok, set_links. simpl. intros [H1 H2].
  rewrite fmap_app, length_app. simpl. split; [rewrite Nat.add_1_r, length_fmap; reflexivity|].
  intros i Hi. destruct (decide (i < length (ts_next <$> w_sets w))%nat) as [Hlt|Hge].
  - rewrite lookup_app_l by exact Hlt. exact (H2 i Hlt).
  - assert (i = length (ts_next <$> w_sets w)) as -> by lia.
    rewrite lookup_app_r, Nat.sub_diag by lia. simpl. rewrite H1. reflexivity.
Qed.

Lemma register_case_links_ok tc w0 w' : links_ok w0 -> register_case tc w0 = Some w' -> links_ok w'.
Proof.
  intros Hw0 H. unfold register_case in H.
  set (w := match current_set w0 with None => testset "default" None w0 | Some _ => w0 end) in H.
  assert (links_ok w) as Hw
    by (subst w; destruct (current_set w0); [exact Hw0|apply testset_links_ok, Hw0]).
  clearbody w.
  destruct (current_set w) as [sp|]; [|discriminate]. simpl in H.
  destruct (w_sets w !! sp) as [s|]; [|discriminate]. simpl in H.
  apply (links_ok_eq w); [|exact Hw].
  destruct (ts_cases s).
  - destruct (ts_tail s) as [tp|]; [|discriminate]. simpl in H.
    destruct (update_case tp _ _) as [w2|] eqn:E2; [|discriminate]. simpl in H.
    rewrite (links_update_set _ _ _ _ H ltac:(intros; reflexivity)).
    rewrite (links_update_case _ _ _ _ E2). reflexivity.
  - rewrite (links_update_set _ _ _ _ H ltac:(intros; reflexivity)). reflexivity.
Qed.

Lemma reg_op_links_ok op w w' : links_ok w -> reg_op op w = Some w' -> links_ok w'.
Proof.
  intros Hw H. destruct op; simpl in H; try (eapply register_case_links_ok; [exact Hw|exact H]).
  - injection H as <-. apply testset_links_ok, Hw.
  - unfold setup_testcase in H. destruct (current_set w); [|injection H as <-; exact Hw].
    eapply links_ok_eq; [|exact Hw]. eapply links_update_set; [exact H|]. reflexivity.
  - unfold teardown_testcase in H. destruct (current_set w); [|injection H as <-; exact Hw].
    eapply links_ok_eq; [|exact Hw]. eapply links_update_set; [exact H|]. reflexivity.
  - injection H as <-. exact Hw.
  - unfold register_hooks in H. simpl in H.
    destruct (current_set w); [|injection H as <-; exact Hw].
    destruct (w_sets w !! _) as [s|]; [|discriminate]. simpl in H.
    destruct (ts_hooks s); [injection H as <-; exact Hw|].
    eapply links_ok_eq; [|exact Hw].
    rewrite (links_update_set _ _ _ _ H ltac:(intros; reflexivity)). reflexivity.
Qed.

Lemma reachable_links_ok w : Reachable w -> links_ok w.
Proof.
  induction 1 as [|w op w' Hr IH E|w sets th code w' Hr IH E].
  - split; [reflexivity|]. intros i Hi. simpl in Hi. lia.
  - eapply reg_op_links_ok; eassumption.
  - eapply links_ok_eq; [eapply run_tests_links; exact E|exact IH].
Qed.

Lemma links_chain nx n :
  (n <= length nx)%nat -> (forall i, (i < length nx)%nat -> nx !! i = Some (pred_ptr i)) ->
  chain nx (pred_ptr n) (rev (seq 0 n)).
Proof.
  intros Hn H. induction n as [|n IH]; [constructor|].
  rewrite seq_S, rev_app_distr. simpl.
  apply (chain_cons _ n (pred_ptr n)); [apply H; lia|]. apply IH. lia.
Qed.

Lemma runner_init_loop_total fuel : forall set th tot hooks w w' tot' hooks' ps,
  chain (ts_next <$> w_sets w) set ps ->
  runner_init_loop fuel set th tot hooks w = Some (w', tot', hooks') ->
  tot' = tot + Z.of_nat (length ps).
Proof.
  induction fuel as [|fuel IH]; intros set th tot hooks w w' tot' hooks' ps Hch H; simpl in H.
  - destruct set; [discriminate|]. inversion Hch; subst. injection H as _ <- _. simpl. lia.
  - destruct set as [sp|]; [|inversion Hch; subst; injection H as _ <- _; simpl; lia].
    inversion Hch as [|p q ps' Hq Hch' Ep Eps]; subst.
    rewrite list_lookup_fmap in Hq.
    destruct (w_sets w !! sp) as [s|] eqn:Es; [|discriminate]. simpl in H, Hq.
    injection Hq as Hq. subst q.
    set (hk := match th, ts_hooks s with
               | None, None => match hook_registry w with Some h :: _ => Some h | _ => hooks end
               | Some th0, _ => Some th0
               | None, Some sh => Some sh
               end) in H.
    destruct hk as [hp|].
    + destruct (w_hooks _ !! hp) as [h|]; [|discriminate]. simpl in H.
      apply IH with (ps := ps') in H; [simpl; lia|exact Hch'].
    + simpl in H. apply IH with (ps := ps') in H; [simpl; lia|exact Hch'].
Qed.

(** The list of sets that [run_tests(test_sets, ...)] walks holds every
    registered set exactly once, newest first ([testset] pushes at the
    head), and [runner_init] counts them all in [total_sets]. *)
Theorem sets_listed_newest_first w :
  Reachable w ->
  chain (ts_next <$> w_sets w) (test_sets w) (rev (seq 0 (length (w_sets w)))) /\
  (forall th w' tot hooks, runner_init (test_sets w) th w = Some (w', tot, hooks) ->
     tot = Z.of_nat (length (w_sets w))).
Proof.
  intros Hr. destruct (reachable_links_ok w Hr) as [H1 H2]. unfold set_links in H1, H2.
  simpl in H1, H2. rewrite length_fmap in H1, H2.
  assert (Hch : chain (ts_next <$> w_sets w) (test_sets w) (rev (seq 0 (length (w_sets w))))).
  { rewrite H1. apply links_chain; [rewrite length_fmap; lia|].
    rewrite length_fmap. exact H2. }
  split; [exact Hch|].
  intros th w' tot hooks E. unfold runner_init in E.
  rewrite (runner_init_loop_total _ _ _ _ _ _ _ _ _ _ Hch E), length_rev, length_seq. lia.
Qed.

Lemma failed_update_case p f w w' : update_case p f w = Some w' -> failed_view w' = failed_view w.
Proof. intros H. apply update_case_Some in H as (c & _ & ->). reflexivity. Qed.

Lemma failed_update_set p f w w' :
  update_set p f w = Some w' -> (forall s, ts_failed (f s) = ts_failed s) -> failed_view w' = failed_view w.
Proof.
  intros H Hf. apply update_set_Some in H as (s & Hs & ->).
  unfold failed_view. simpl. rewrite list_fmap_insert, Hf, list_insert_id; [reflexivity|].
  rewrite list_lookup_fmap, Hs. reflexivity.
Qed.

Lemma run_assertion_failed a w w' j : run_assertion a w = Some (w', j) -> failed_view w' = failed_view w.
Proof.
  unfold run_assertion. destruct (assert_outcome a) as [st msg].
  unfold set_test_context. intros H.
  destruct (current_set w) as [sp|]; [|injection H as <- _; reflexivity].
  destruct (w_sets w !! sp) as [s|]; [|discriminate].
  destruct (ts_current s) as [cp|]; [|injection H as <- _; reflexivity].
  destruct (update_case cp (with_result st msg) w) as [w1|] eqn:E; [|discriminate].
  injection H as <- _. exact (failed_update_case _ _ _ _ E).
Qed.

Lemma execute_fuzzing_failed tcp ds w w' :
  execute_fuzzing tcp ds w = Some w' -> failed_view w' = failed_view w.
Proof.
  unfold execute_fuzzing. intros H.
  destruct (w_cases w !! tcp) as [c|]; [|discriminate]. simpl in H.
  destruct (fuzz_loop tcp (func_fuzz c) ds 0 w) as [[w1 k]|] eqn:E; [|discriminate].
  assert (failed_view w1 = failed_view w) as H1.
  { eapply (fuzz_loop_preserves (fun x => failed_view x = failed_view w)); [| | |reflexivity|exact E].
    - intros e x Hx. exact Hx.
    - intros a x x' j' Hx Ea. rewrite (run_assertion_failed _ _ _ _ Ea). exact Hx.
    - intros x x' Hx Eu. rewrite (failed_update_case _ _ _ _ Eu). exact Hx. }
  destruct (k =? 0); rewrite (failed_update_case _ _ _ _ H); exact H1.
Qed.

Lemma execute_test_failed tcp w w' st :
  execute_test tcp w = Some (w', st) -> failed_view w' = failed_view w.
Proof.
  unfold execute_test. intros H.
  destruct (w_cases w !! tcp) as [c|]; [|discriminate]. simpl in H.
  destruct (is_fuzz c); [injection H as <- _; reflexivity|].
  destruct (exec_body (func_test c) w) as [[w1 j]|] eqn:E; [|discriminate].
  injection H as <- _.
  apply (exec_body_preserves (fun x => failed_view x = failed_view w)) in E; [exact E| | |reflexivity].
  - intros e x Hx. exact Hx.
  - intros a x x' j' Hx Ea. rewrite (run_assertion_failed _ _ _ _ Ea). exact Hx.
Qed.

Lemma teardown_test_failed w w' : teardown_test w = Some w' -> failed_view w' = failed_view w.
Proof.
  unfold teardown_test. intros H.
  destruct (current_set w); [|discriminate]. simpl in H.
  destruct (w_sets w !! _); [|discriminate]. simpl in H. injection H as <-.
  destruct (ts_teardown _); reflexivity.
Qed.


Lemma Forall2_le_refl (l : list Z) : Forall2 Z.le l l.
Proof. induction l; constructor; [lia|assumption]. Qed.

Lemma Forall2_le_trans (l1 l2 l3 : list Z) :
  Forall2 Z.le l1 l2 -> Forall2 Z.le l2 l3 -> Forall2 Z.le l1 l3.
Proof.
  intros H12. revert l3. induction H12 as [|x y l1 l2 Hxy H IH]; intros l3 H23;
    inversion H23; subst; constructor; [lia|auto].
Qed.

Lemma Forall2_le_insert (l : list Z) i x y :
  l !! i = Some x -> (x <= y)%Z -> Forall2 Z.le l (<[i := y]> l).
Proof.
  revert i. induction l as [|z l IH]; intros [|i] Hi Hxy; try discriminate; simpl.
  - injection Hi as ->. constructor; [exact Hxy|apply Forall2_le_refl].
  - constructor; [lia|exact (IH i Hi Hxy)].
Qed.

Lemma process_result_failed m m1 :
  process_result m = Some m1 -> Forall2 Z.le (failed_view (m_world m)) (failed_view (m_world m1)).
Proof.
  unfold process_result. intros H.
  destruct (m_tc m) as [tcp|]; [|discriminate]. simpl in H.
  destruct (current_set (m_world m)) as [sp|]; [|discriminate]. simpl in H.
  destruct (w_cases (m_world m) !! tcp) as [c|] eqn:Ec; [|discriminate]. simpl in H.
  destruct (invert c) as [st msg].
  destruct (update_case tcp (with_result st msg) (m_world m)) as [w1|] eqn:E1; [|discriminate].
  simpl in H. rewrite <- (failed_update_case _ _ _ _ E1).
  destruct (deref_hooks m) as [h|]; [|discriminate]. simpl in H.
  destruct (set_context_logger h); [|discriminate]. simpl in H.
  set (w2 := match on_test_result h with
             | Some cb => emit (EvResult cb st) w1
             | None => emit (EvLog (default_result_line st msg)) w1
             end) in H.
  assert (failed_view w2 = failed_view w1) as E2 by (subst w2; destruct (on_test_result h); reflexivity).
  rewrite <- E2.
  destruct (w_sets w2 !! sp) as [s|] eqn:Es; [|discriminate]. simpl in H.
  assert (Hl : failed_view w2 !! sp = Some (ts_failed s))
    by (unfold failed_view; rewrite list_lookup_fmap, Es; reflexivity).
  destruct st;
    (destruct (update_set sp _ w2) as [w3|] eqn:E3; [|discriminate]);
    simpl in H; injection H as <-; simpl;
    apply update_set_Some in E3 as (s3 & Hs3 & ->); rewrite Es in Hs3; injection Hs3 as <-;
    unfold failed_view; simpl; rewrite list_fmap_insert; simpl;
    (apply (Forall2_le_insert _ _ (ts_failed s)); [exact Hl|lia]).
Qed.

Lemma step_failed sets th m m' :
  step sets th m = Some m' -> Forall2 Z.le (failed_view (m_world m)) (failed_view (m_world m')).
Proof.
  intros H.
  assert (Eq : failed_view (m_world m') = failed_view (m_world m) \/
               exists m1, process_result m = Some m1 /\
                 exists w2, teardown_test (m_world m1) = Some w2 /\ m_world m' = w2).
  { unfold step in H. destruct (m_state m).
    all: repeat (simpl in H; match type of H with
      | (match ?x with _ => _ end) = Some _ => destruct x eqn:?; try discriminate
      | mbind _ ?x = Some _ => destruct x eqn:?; try discriminate
      | Some _ = Some _ => injection H as <-
      end).
    all: try (right; do 2 (eexists; split; [first [eassumption|reflexivity]|]); reflexivity).
    all: left; simpl.
    all: repeat (match goal with
      | |- _ = _ => reflexivity
      | E : runner_init _ _ _ = Some _ |- _ => apply runner_init_frame in E as (_ & E2 & _);
          unfold failed_view; rewrite E2; reflexivity
      | E : update_set _ _ ?w = Some ?w' |- context [failed_view ?w'] =>
          rewrite (failed_update_set _ _ _ _ E ltac:(intros; reflexivity))
      | E : update_case _ _ ?w = Some ?w' |- context [failed_view ?w'] =>
          rewrite (failed_update_case _ _ _ _ E)
      | E : execute_fuzzing _ _ _ = Some ?w |- context [failed_view ?w] =>
          rewrite (execute_fuzzing_failed _ _ _ _ E)
      | E : execute_test _ _ = Some (?w, _) |- context [failed_view ?w] =>
          rewrite (execute_test_failed _ _ _ _ E)
      | |- context [failed_view (emit ?e ?w)] => change (failed_view (emit e w)) with (failed_view w)
      | |- context [failed_view (call_hook ?sl ?d ?w)] =>
          unfold failed_view at 1; rewrite (w_sets_call_hook sl d w); fold (failed_view w)
      | |- context [match ?x with _ => _ end] => destruct x
      end). }
  destruct Eq as [Eq|(m1 & E1 & w2 & E2 & ->)].
  - rewrite Eq. apply Forall2_le_refl.
  - rewrite (teardown_test_failed _ _ E2). exact (process_result_failed _ _ E1).
Qed.

Lemma run_loop_failed sets th fuel m m' :
  run_loop sets th fuel m = Some m' -> Forall2 Z.le (failed_view (m_world m)) (failed_view (m_world m')).
Proof.
  revert m. induction fuel as [|fuel IH]; intros m H; simpl in H.
  - destruct (m_state m); try discriminate. injection H as <-. apply Forall2_le_refl.
  - assert (forall m1, step sets th m = Some m1 -> run_loop sets th fuel m1 = Some m' ->
              Forall2 Z.le (failed_view (m_world m)) (failed_view (m_world m'))) as K.
    { intros m1 E1 E2. exact (Forall2_le_trans _ _ _ (step_failed _ _ _ _ E1) (IH _ E2)). }
    destruct (m_state m); try (injection H as <-; apply Forall2_le_refl);
      destruct (step sets th m) as [m1|] eqn:E; try discriminate; exact (K m1 eq_refl H).
Qed.

Lemma run_tests_failed sets th w code w' :
  run_tests sets th w = Some (code, w') -> Forall2 Z.le (failed_view w) (failed_view w').
Proof.
  intros H. destruct (run_tests_world _ _ _ _ _ H) as (m & E & <-).
  exact (run_loop_failed _ _ _ _ _ E).
Qed.

Lemma run_tests_code sets th w code w' :
  run_tests sets th w = Some (code, w') ->
  exists m, run_loop sets th (run_fuel w) (init_machine sets w) = Some m /\ m_world m = w' /\
    match m_return m with
    | Some st => code = RunnerState_to_int st
    | None => exists sp s, sets = Some sp /\ w_sets w' !! sp = Some s /\
                code = (if ts_failed s >? 0 then 1 else 0)
    end.
Proof.
  unfold run_tests. intros H.
  destruct (run_loop _ _ _ _) as [m|]; [|discriminate]. simpl in H.
  exists m. split; [reflexivity|].
  destruct (m_return m) as [st|]; [injection H as <- <-; split; reflexivity|].
  unfold runner_done in H. destruct sets as [sp|]; [|discriminate]. simpl in H.
  destruct (w_sets (m_world m) !! sp) as [s|] eqn:Es; [|discriminate]. simpl in H.
  injection H as <- <-. split; [reflexivity|]. eauto.
Qed.

Lemma ctl_eq w w' : w_cases w' = w_cases w -> w_sets w' = w_sets w ->
  current_set w' = current_set w -> test_sets w' = test_sets w -> ctl_view w' = ctl_view w.
Proof. unfold ctl_view, static_view. intros -> -> -> ->. reflexivity. Qed.

Lemma ctl_emit e w : ctl_view (emit e w) = ctl_view w.
Proof. reflexivity. Qed.

Lemma ctl_call_hook slot d w : ctl_view (call_hook slot d w) = ctl_view w.
Proof.
  unfold call_hook. destruct slot; [reflexivity|].
  revert w. induction d as [|e d IH]; intros w; simpl; [reflexivity|]. rewrite IH. reflexivity.
Qed.

Lemma ctl_set_globals ts cs ch w :
  ctl_view (set_globals ts cs ch w) = (cs, (ts, case_ctl <$> w_cases w, set_ctl <$> w_sets w)).
Proof. reflexivity. Qed.

Lemma ctl_update_case p f w w' :
  update_case p f w = Some w' -> (forall c, case_ctl (f c) = case_ctl c) -> ctl_view w' = ctl_view w.
Proof.
  intros H Hf. apply update_case_Some in H as (c & Hc & ->).
  unfold ctl_view, static_view. simpl. rewrite list_fmap_insert, Hf, list_insert_id; [reflexivity|].
  rewrite list_lookup_fmap, Hc. reflexivity.
Qed.

Lemma ctl_update_set p f w w' :
  update_set p f w = Some w' -> (forall s, set_ctl (f s) = set_ctl s) -> ctl_view w' = ctl_view w.
Proof.
  intros H Hf. apply update_set_Some in H as (s & Hs & ->).
  unfold ctl_view, static_view. simpl.
  rewrite (list_fmap_insert set_ctl), Hf, list_insert_id; [reflexivity|].
  rewrite list_lookup_fmap, Hs. reflexivity.
Qed.

Lemma ctl_run_assertion a w w' j : run_assertion a w = Some (w', j) -> ctl_view w' = ctl_view w.
Proof.
  unfold run_assertion. destruct (assert_outcome a) as [st msg].
  unfold set_test_context. intros H.
  destruct (current_set w) as [sp|]; [|injection H as <- _; reflexivity].
  destruct (w_sets w !! sp) as [s|]; [|discriminate].
  destruct (ts_current s) as [cp|]; [|injection H as <- _; reflexivity].
  destruct (update_case cp (with_result st msg) w) as [w1|] eqn:E; [|discriminate].
  injection H as <- _. eapply ctl_update_case; [exact E|]. reflexivity.
Qed.

Lemma ctl_exec_body b w w' j : exec_body b w = Some (w', j) -> ctl_view w' = ctl_view w.
Proof.
  apply (exec_body_preserves (fun x => ctl_view x = ctl_view w)); [| |reflexivity].
  - intros e x Hx. rewrite ctl_emit. exact Hx.
  - intros a x x' j' Hx E. rewrite (ctl_run_assertion _ _ _ _ E). exact Hx.
Qed.

Lemma ctl_execute_fuzzing tcp ds w w' : execute_fuzzing tcp ds w = Some w' -> ctl_view w' = ctl_view w.
Proof.
  unfold execute_fuzzing. intros H.
  destruct (w_cases w !! tcp) as [c|]; [|discriminate]. simpl in H.
  destruct (fuzz_loop tcp (func_fuzz c) ds 0 w) as [[w1 k]|] eqn:E; [|discriminate].
  assert (ctl_view w1 = ctl_view w) as H1.
  { eapply (fuzz_loop_preserves (fun x => ctl_view x = ctl_view w)); [| | |reflexivity|exact E].
    - intros e x Hx. rewrite ctl_emit. exact Hx.
    - intros a x x' j' Hx Ea. rewrite (ctl_run_assertion _ _ _ _ Ea). exact Hx.
    - intros x x' Hx Eu. rewrite (ctl_update_case _ _ _ _ Eu ltac:(intros; reflexivity)). exact Hx. }
  destruct (k =? 0); rewrite (ctl_update_case _ _ _ _ H ltac:(intros; reflexivity)); exact H1.
Qed.

Lemma ctl_execute_test tcp w w' st : execute_test tcp w = Some (w', st) -> ctl_view w' = ctl_view w.
Proof.
  unfold execute_test. intros H.
  destruct (w_cases w !! tcp) as [c|]; [|discriminate]. simpl in H.
  destruct (is_fuzz c); [injection H as <- _; reflexivity|].
  destruct (exec_body (func_test c) w) as [[w1 j]|] eqn:E; [|discriminate].
  injection H as <- _. exact (ctl_exec_body _ _ _ _ E).
Qed.

Lemma ctl_teardown_test w w' : teardown_test w = Some w' -> ctl_view w' = ctl_view w.
Proof.
  unfold teardown_test. intros H.
  destruct (current_set w); [|discriminate]. simpl in H.
  destruct (w_sets w !! _); [|discriminate]. simpl in H. injection H as <-.
  destruct (ts_teardown _); reflexivity.
Qed.

Lemma ctl_process_result m m1 :
  process_result m = Some m1 ->
  ctl_view (m_world m1) = ctl_view (m_world m) /\ m_state m1 = m_state m /\
  set_iter m1 = set_iter m /\ tc_iter m1 = tc_iter m /\ m_tc m1 = m_tc m /\ m_return m1 = m_return m.
Proof.
  unfold process_result. intros H.
  destruct (m_tc m) as [tcp|] eqn:Et; [|discriminate]. simpl in H.
  destruct (current_set (m_world m)) as [sp|]; [|discriminate]. simpl in H.
  destruct (w_cases (m_world m) !! tcp) as [c|] eqn:Ec; [|discriminate]. simpl in H.
  destruct (invert c) as [st msg].
  destruct (update_case tcp (with_result st msg) (m_world m)) as [w1|] eqn:E1; [|discriminate].
  simpl in H. rewrite <- (ctl_update_case _ _ _ _ E1 ltac:(intros; reflexivity)).
  destruct (deref_hooks m) as [h|]; [|discriminate]. simpl in H.
  destruct (set_context_logger h); [|discriminate]. simpl in H.
  set (w2 := match on_test_result h with
             | Some cb => emit (EvResult cb st) w1
             | None => emit (EvLog (default_result_line st msg)) w1
             end) in H.
  assert (ctl_view w2 = ctl_view w1) as E2 by (subst w2; destruct (on_test_result h); reflexivity).
  rewrite <- E2.
  destruct (w_sets w2 !! sp) as [s|]; [|discriminate]. simpl in H.
  destruct st;
    (destruct (update_set sp _ w2) as [w3|] eqn:E3; [|discriminate]);
    simpl in H; injection H as <-; simpl; rewrite ctl_emit;
    rewrite (ctl_update_set _ _ _ _ E3 ltac:(intros; reflexivity)); repeat split; congruence.
Qed.

Lemma ctl_runner_init sets th w w' tot hooks :
  runner_init sets th w = Some (w', tot, hooks) -> ctl_view w' = ctl_view w.
Proof.
  intros E. apply runner_init_frame in E as (E1 & E2 & E3 & E4 & _). exact (ctl_eq _ _ E1 E2 E3 E4).
Qed.

Ltac ctl_rewrite :=
  repeat first [
    progress rewrite ?ctl_emit, ?ctl_call_hook, ?ctl_set_globals
  | match goal with
    | E : runner_init _ _ ?w = Some (?w', _, _) |- context [ctl_view ?w'] =>
        rewrite (ctl_runner_init _ _ _ _ _ _ E)
    | E : update_set _ _ ?w = Some ?w' |- context [ctl_view ?w'] =>
        rewrite (ctl_update_set _ _ _ _ E ltac:(intros; reflexivity))
    | E : update_case _ _ ?w = Some ?w' |- context [ctl_view ?w'] =>
        rewrite (ctl_update_case _ _ _ _ E ltac:(intros; reflexivity))
    | E : teardown_test ?w = Some ?w' |- context [ctl_view ?w'] => rewrite (ctl_teardown_test _ _ E)
    | E : process_result _ = Some ?m1 |- context [ctl_view (m_world ?m1)] =>
        rewrite (proj1 (ctl_process_result _ _ E))
    | E : execute_fuzzing _ _ _ = Some ?w |- context [ctl_view ?w] =>
        rewrite (ctl_execute_fuzzing _ _ _ _ E)
    | E : execute_test _ _ = Some (?w, _) |- context [ctl_view ?w] =>
        rewrite (ctl_execute_test _ _ _ _ E)
    | |- context [ctl_view (match ?x with _ => _ end)] => destruct x
    end ].

Lemma step_static sets th m m' :
  step sets th m = Some m' -> static_view (m_world m') = static_view (m_world m).
Proof.
  intros H. change (snd (ctl_view (m_world m')) = snd (ctl_view (m_world m))).
  unfold step in H. destruct (m_state m).
  all: repeat (simpl in H; match type of H with
    | (match ?x with _ => _ end) = Some _ => destruct x eqn:?; try discriminate
    | mbind _ ?x = Some _ => destruct x eqn:?; try discriminate
    | Some _ = Some _ => injection H as <-
    end).
  all: simpl; match goal with |- static_view ?a = static_view ?b =>
    change (snd (ctl_view a) = snd (ctl_view b)) end; ctl_rewrite; reflexivity.
Qed.

Lemma run_loop_static sets th fuel m m' :
  run_loop sets th fuel m = Some m' -> static_view (m_world m') = static_view (m_world m).
Proof.
  revert m. induction fuel as [|fuel IH]; intros m H; simpl in H.
  - destruct (m_state m); try discriminate. injection H as <-. reflexivity.
  - assert (forall m1, step sets th m = Some m1 -> run_loop sets th fuel m1 = Some m' ->
              static_view (m_world m') = static_view (m_world m)) as K.
    { intros m1 E1 E2. rewrite (IH _ E2). exact (step_static _ _ _ _ E1). }
    destruct (m_state m); try (injection H as <-; reflexivity);
      destruct (step sets th m) as [m1|] eqn:E; try discriminate; exact (K m1 eq_refl H).
Qed.

Lemma ctl_current w1 w2 : ctl_view w1 = ctl_view w2 -> current_set w1 = current_set w2.
Proof. intros E. exact (f_equal fst E). Qed.

Lemma ctl_case_lookup w1 w2 i c1 c2 : ctl_view w1 = ctl_view w2 ->
  w_cases w1 !! i = Some c1 -> w_cases w2 !! i = Some c2 -> case_ctl c1 = case_ctl c2.
Proof.
  intros E H1 H2. pose proof (f_equal (fun v => (snd (fst (snd v))) !! i) E) as F.
  simpl in F. rewrite !list_lookup_fmap, H1, H2 in F. simpl in F. unfold case_ctl in *. congruence.
Qed.

Lemma ctl_set_lookup w1 w2 i s1 s2 : ctl_view w1 = ctl_view w2 ->
  w_sets w1 !! i = Some s1 -> w_sets w2 !! i = Some s2 -> set_ctl s1 = set_ctl s2.
Proof.
  intros E H1 H2. pose proof (f_equal (fun v => (snd (snd v)) !! i) E) as F.
  simpl in F. rewrite !list_lookup_fmap, H1, H2 in F. simpl in F. unfold case_ctl, set_ctl in *. congruence.
Qed.

Lemma execute_test_state tcp w w' st :
  execute_test tcp w = Some (w', st) ->
  exists c, w_cases w !! tcp = Some c /\ st = (if is_fuzz c then FUZZING_INIT else END_TEST).
Proof.
  unfold execute_test. intros H.
  destruct (w_cases w !! tcp) as [c|]; [|discriminate]. simpl in H. exists c. split; [reflexivity|].
  destruct (is_fuzz c); [injection H as _ <-; reflexivity|].
  destruct (exec_body (func_test c) w) as [[w1 j]|]; [|discriminate]. injection H as _ <-. reflexivity.
Qed.

Ltac ctl_same V :=
  ctl_rewrite; first [exact V | reflexivity | congruence | f_equal; exact (f_equal snd V)].

Ltac ctl_pairs V :=
  repeat match goal with
  | H1 : ?x = Some ?a, H2 : ?x = Some ?b |- _ =>
      assert (a = b) by congruence; first [subst b | subst a | idtac]; clear H2
  | H1 : tc_iter ?A = Some ?a, H2 : tc_iter ?B = Some ?b |- _ =>
      assert (a = b) by congruence; first [subst b | subst a | idtac]; clear H2
  | H1 : current_set ?A = Some ?a, H2 : current_set ?B = Some ?b |- _ =>
      assert (a = b) by (cut (current_set A = current_set B); [congruence|];
                         apply ctl_current; ctl_same V);
      first [subst b | subst a | idtac]; clear H2
  | H1 : w_sets ?A !! ?i = Some ?s1, H2 : w_sets ?B !! ?i = Some ?s2 |- _ =>
      let F := fresh "F" in
      assert (F : set_ctl s1 = set_ctl s2)
        by (apply (ctl_set_lookup A B i); [ctl_same V|exact H1|exact H2]);
      unfold set_ctl in F; injection F as ? ?; clear H2
  | H1 : w_cases ?A !! ?i = Some ?c1, H2 : w_cases ?B !! ?i = Some ?c2 |- _ =>
      let F := fresh "F" in
      assert (F : case_ctl c1 = case_ctl c2)
        by (apply (ctl_case_lookup A B i); [ctl_same V|exact H1|exact H2]);
      unfold case_ctl in F; injection F as ? ? ?; clear H2
  end.

Lemma step_ctl sets th m1 m2 m1' m2' :
  ctl_rel m1 m2 -> step sets th m1 = Some m1' -> step sets th m2 = Some m2' -> ctl_rel m1' m2'.
Proof.
  intros (V & S & Si & Ti & Tc & R) E1 E2.
  unfold step in E1, E2. rewrite <- S, <- Si, <- Ti, <- Tc in E2.
  destruct (m_state m1) eqn:Es.
  all: repeat (simpl in E1; match type of E1 with
    | (match ?x with _ => _ end) = Some _ => destruct x eqn:?; try discriminate
    | mbind _ ?x = Some _ => destruct x eqn:?; try discriminate
    | Some _ = Some _ => injection E1 as <-
    end).
  all: repeat (simpl in E2; match type of E2 with
    | (match ?x with _ => _ end) = Some _ => destruct x eqn:?; try discriminate
    | mbind _ ?x = Some _ => destruct x eqn:?; try discriminate
    | Some _ = Some _ => injection E2 as <-
    end).
  all: try congruence.
  all: unfold ctl_rel; simpl; repeat split; try congruence.
  all: try (ctl_same V; fail).
  all: repeat match goal with
    | E : process_result _ = Some _ |- _ =>
        destruct (ctl_process_result _ _ E) as (? & ? & ? & ? & ? & ?); clear E
    | E : execute_test _ _ = Some _ |- _ =>
        destruct (execute_test_state _ _ _ _ E) as (? & ? & ->); clear E
    end.
  all: ctl_pairs V.
  all: try congruence.
  all: try (repeat match goal with |- context [if ?b then _ else _] => destruct b eqn:? end;
            congruence).
Qed.

Lemma run_loop_ctl sets th f1 : forall f2 m1 m2 r1 r2, ctl_rel m1 m2 ->
  run_loop sets th f1 m1 = Some r1 -> run_loop sets th f2 m2 = Some r2 -> ctl_rel r1 r2.
Proof.
  induction f1 as [|f1 IH]; intros f2 m1 m2 r1 r2 Hr E1 E2;
    pose proof Hr as (_ & S & _);
    destruct f2 as [|f2]; simpl in E1, E2; rewrite <- S in E2;
    destruct (m_state m1); try discriminate;
    try (injection E1 as <-; injection E2 as <-; exact Hr).
  all: destruct (step sets th m1) as [m1'|] eqn:S1; [|discriminate];
    destruct (step sets th m2) as [m2'|] eqn:S2; [|discriminate];
    simpl in E1, E2; exact (IH _ _ _ _ _ (step_ctl _ _ _ _ _ _ Hr S1 S2) E1 E2).
Qed.

(** The exit status of [run_tests] is sticky: [set_init] never resets a
    set's [failed] counter, so once a run has returned [EXIT_FAILURE], a
    later run over the same sets returns [EXIT_FAILURE] again.  (A run
    also follows the same path through the cases as the run before it, so
    it leaves the loop by the same [return] when the run before did.) *)
Theorem failure_status_is_sticky sets th w w1 code w2 :
  run_tests sets th w = Some (1, w1) -> run_tests sets th w1 = Some (code, w2) -> code = 1.
Proof.
  intros H1 H2.
  pose proof (run_tests_failed _ _ _ _ _ H2) as F.
  destruct (run_tests_code _ _ _ _ _ H1) as (r1 & L1 & <- & C1).
  destruct (run_tests_code _ _ _ _ _ H2) as (r2 & L2 & <- & C2).
  assert (I : ctl_rel (init_machine sets w) (init_machine sets (m_world r1))).
  { unfold ctl_rel. simpl. repeat split.
    assert (E : static_view (m_world r1) = static_view w)
      by exact (run_loop_static _ _ _ _ _ L1).
    change ((@None nat, static_view w) = (@None nat, static_view (m_world r1))).
    rewrite E. reflexivity. }
  destruct (run_loop_ctl _ _ _ _ _ _ _ _ I L1 L2) as (_ & _ & _ & _ & _ & R).
  rewrite <- R in C2. destruct (m_return r1) as [st|].
  - congruence.
  - destruct C1 as (sp & s1 & -> & Hs1 & E1). destruct C2 as (sp' & s2 & Esp & Hs2 & ->).
    injection Esp as <-.
    assert (Hl1 : failed_view (m_world r1) !! sp = Some (ts_failed s1))
      by (unfold failed_view; rewrite list_lookup_fmap, Hs1; reflexivity).
    assert (Hl2 : failed_view (m_world r2) !! sp = Some (ts_failed s2))
      by (unfold failed_view; rewrite list_lookup_fmap, Hs2; reflexivity).
    pose proof (Forall2_lookup_lr _ _ _ _ _ _ F Hl1 Hl2) as Hle.
    destruct (ts_failed s1 >? 0) eqn:G1; [|discriminate].
    apply Z.gtb_lt in G1. destruct (Z.gtb_spec (ts_failed s2) 0); [reflexivity|lia].
Qed.


Lemma process_result_counts m m1 :
  process_result m = Some m1 ->
  tc_total m1 = tc_total m + 1 /\
  tc_passed m1 + tc_failed m1 + tc_skipped m1 = tc_passed m + tc_failed m + tc_skipped m + 1 /\
  total_tests m1 = total_tests m + 1.
Proof.
  unfold process_result. intros H.
  destruct (m_tc m) as [tcp|]; [|discriminate]. simpl in H.
  destruct (current_set (m_world m)) as [sp|]; [|discriminate]. simpl in H.
  destruct (w_cases (m_world m) !! tcp) as [c|]; [|discriminate]. simpl in H.
  destruct (invert c) as [st msg].
  destruct (update_case _ _ _) as [w1|]; [|discriminate]. simpl in H.
  destruct (deref_hooks m) as [h|]; [|discriminate]. simpl in H.
  destruct (set_context_logger h); [|discriminate]. simpl in H.
  destruct (w_sets _ !! sp) as [s|]; [|discriminate]. simpl in H.
  destruct st; (destruct (update_set _ _ _) as [w3|]; [|discriminate]);
    simpl in H; injection H as <-; simpl; lia.
Qed.

(** Within a run, the per-set counters of [run_tests] agree: [tc_total]
    is always [tc_passed + tc_failed + tc_skipped], since [set_init]
    zeroes all four and [process_result] increments [tc_total] with
    exactly one of the others. *)
Theorem run_counters_consistent sets th m :
  RunReachable sets th m -> tc_total m = tc_passed m + tc_failed m + tc_skipped m.
Proof.
  induction 1 as [w Hr|m m' Hm IH E]; [reflexivity|].
  unfold step in E. destruct (m_state m).
  all: repeat (simpl in E; match type of E with
    | (match ?x with _ => _ end) = Some _ => destruct x eqn:?; try discriminate
    | mbind _ ?x = Some _ => destruct x eqn:?; try discriminate
    | Some _ = Some _ => injection E as <-
    end).
  all: simpl; try lia.
  match goal with P : process_result _ = Some _ |- _ => apply process_result_counts in P; lia end.
Qed.

(** [run_tests] with no registered set ([sets == NULL]) never completes:
    the loop reaches [RUNNER_SUMMARY], which dereferences the NULL set. *)
Theorem run_tests_without_sets_fails th w : run_tests None th w = None.
Proof. reflexivity. Qed.


(** ** Hook bundles *)

Lemma find_hooks_Some n reg hs hp :
  find_hooks n reg hs = Some (Some hp) -> exists h, hs !! hp = Some h /\ h_name h = n.
Proof.
  induction reg as [|e reg IH]; simpl; [discriminate|].
  destruct e as [p|]; [|discriminate]. simpl.
  destruct (hs !! p) as [h|] eqn:Eh; [|discriminate]. simpl.
  destruct (String.eqb_spec (h_name h) n) as [En|_]; [|exact IH].
  intros E. injection E as <-. eauto.
Qed.

Lemma find_hooks_app n reg hs ext r :
  find_hooks n reg hs = Some r -> find_hooks n reg (hs ++ ext)%list = Some r.
Proof.
  induction reg as [|e reg IH]; simpl; [exact id|].
  destruct e as [p|]; [|discriminate]. simpl.
  destruct (hs !! p) as [h|] eqn:Eh; [|discriminate]. simpl.
  rewrite (lookup_app_l_Some _ _ _ _ Eh). simpl.
  destruct (String.eqb (h_name h) n); [exact id|exact IH].
Qed.

Lemma register_hooks_spec hp w w' :
  register_hooks hp w = Some w' ->
  w_hooks w' = w_hooks w /\ hook_registry w' = hp :: hook_registry w /\ current_hooks w' = hp /\
  current_set w' = current_set w /\ length (w_sets w') = length (w_sets w) /\
  (forall sp s, current_set w = Some sp -> w_sets w !! sp = Some s ->
     exists s', w_sets w' !! sp = Some s' /\
       ts_hooks s' = match ts_hooks s with Some h => Some h | None => hp end) /\
  (forall sp s, current_set w <> Some sp -> w_sets w !! sp = Some s -> w_sets w' !! sp = Some s).
Proof.
  unfold register_hooks. simpl. intros H.
  destruct (current_set w) as [cp|] eqn:Ec.
  - destruct (w_sets w !! cp) as [s0|] eqn:Es0; [|discriminate]. simpl in H.
    destruct (ts_hooks s0) as [h0|] eqn:Eh0.
    + injection H as <-. simpl. repeat split; try reflexivity.
      * intros sp s E Es. injection E as <-. rewrite Es0 in Es. injection Es as <-.
        exists s0. rewrite Eh0. auto.
      * intros sp s _ Es. exact Es.
    + apply update_set_Some in H as (s1 & Hs1 & ->). simpl in Hs1 |- *.
      rewrite Es0 in Hs1. injection Hs1 as <-.
      repeat split; try reflexivity; [apply length_insert| |].
      * intros sp s E Es. injection E as <-. rewrite Es0 in Es. injection Es as <-.
        eexists. rewrite list_lookup_insert_eq by (eapply lookup_lt_Some; exact Es0).
        split; [reflexivity|]. simpl. rewrite Eh0. reflexivity.
      * intros sp s E Es. rewrite list_lookup_insert_ne by congruence. exact Es.
  - injection H as <-. simpl. repeat split; try reflexivity.
    + intros sp s E. discriminate.
    + intros sp s _ Es. exact Es.
Qed.

(** [init_hooks] only finds what [register_hooks] has pushed: after
    registering the bundle [init_hooks(name)] returned, a second
    [init_hooks(name)] returns that same bundle and allocates nothing. *)
Theorem init_hooks_register_roundtrip n w w1 hp w2 :
  init_hooks (Some n) w = Some (w1, Some hp) -> register_hooks (Some hp) w1 = Some w2 ->
  init_hooks (Some n) w2 = Some (w2, Some hp).
Proof.
  intros H1 H2. unfold init_hooks in H1 |- *.
  destruct (String.eqb_spec n "") as [_|Hn]; [discriminate|].
  assert (exists h, w_hooks w1 !! hp = Some h /\ h_name h = n) as (h & Hh & Hhn).
  { destruct (find_hooks n (hook_registry w) (w_hooks w)) as [[p|]|] eqn:E; [| |discriminate].
    - injection H1 as <- <-. exact (find_hooks_Some _ _ _ _ E).
    - injection H1 as <- <-. simpl.
      rewrite lookup_app_r, Nat.sub_diag by lia. eexists. split; reflexivity. }
  destruct (register_hooks_spec _ _ _ H2) as (Eh & Er & _).
  rewrite Er. simpl. rewrite Eh, Hh. simpl. rewrite Hhn, String.eqb_refl. reflexivity.
Qed.

(** Until it is registered, a bundle made by [init_hooks] is not found
    again: two calls [init_hooks(name)] with nothing registered in between
    return the same bundle exactly when the first found a registered one
    (and then allocate nothing); otherwise each call allocates a new
    bundle: it appends a fresh bundle named [name], every slot NULL, past
    the end of the heap of bundles, returns it, and registers nothing. *)
Theorem init_hooks_fresh_until_registered n w w1 p1 w2 p2 :
  init_hooks (Some n) w = Some (w1, Some p1) -> init_hooks (Some n) w1 = Some (w2, Some p2) ->
  (p1 = p2 <-> w1 = w) /\ (w1 = w -> w2 = w) /\
  (w1 <> w ->
     p1 = length (w_hooks w) /\ w_hooks w1 = (w_hooks w ++ [fresh_hooks n])%list /\
     p2 = length (w_hooks w1) /\ w_hooks w2 = (w_hooks w1 ++ [fresh_hooks n])%list /\
     hook_registry w2 = hook_registry w).
Proof.
  intros H1 H2. unfold init_hooks in H1, H2.
  destruct (String.eqb_spec n "") as [_|Hn]; [discriminate|].
  destruct (find_hooks n (hook_registry w) (w_hooks w)) as [[p|]|] eqn:E; [| |discriminate].
  - injection H1 as <- <-. rewrite E in H2. injection H2 as <- <-. tauto.
  - injection H1 as <- <-. simpl in H2.
    rewrite (find_hooks_app _ _ _ _ _ E) in H2. injection H2 as <- <-.
    rewrite length_app. simpl.
    assert (define_hooks (fresh_hooks n) w <> w) as Hne.
    { intros Ew. apply (f_equal (fun x => length (w_hooks x))) in Ew. simpl in Ew.
      rewrite length_app in Ew. simpl in Ew. lia. }
    split; [split; [lia|intros; contradiction]|].
    split; [intros; contradiction|].
    intros _. split; [reflexivity|]. split; [reflexivity|].
    split; [rewrite length_app; reflexivity|]. split; reflexivity.
Qed.

(** [register_hooks] twice while a set is current: [current_hooks] is the
    last bundle, the registry holds both, most recent first, and the set
    keeps its own bundle, or else takes the first one registered. *)
Theorem register_hooks_first_wins_for_set w sp s p1 p2 w1 w2 :
  current_set w = Some sp -> w_sets w !! sp = Some s ->
  register_hooks (Some p1) w = Some w1 -> register_hooks (Some p2) w1 = Some w2 ->
  current_hooks w2 = Some p2 /\ hook_registry w2 = Some p2 :: Some p1 :: hook_registry w /\
  exists s2, w_sets w2 !! sp = Some s2 /\
    ts_hooks s2 = match ts_hooks s with Some h => Some h | None => Some p1 end.
Proof.
  intros Hc Hs H1 H2.
  destruct (register_hooks_spec _ _ _ H1) as (_ & R1 & _ & C1 & _ & S1 & _).
  destruct (register_hooks_spec _ _ _ H2) as (_ & R2 & K2 & _ & _ & S2 & _).
  split; [exact K2|]. split; [rewrite R2, R1; reflexivity|].
  destruct (S1 sp s Hc Hs) as (s1 & Hs1 & Eh1).
  destruct (S2 sp s1 ltac:(rewrite C1; exact Hc) Hs1) as (s2 & Hs2 & Eh2).
  exists s2. split; [exact Hs2|]. rewrite Eh2, Eh1. destruct (ts_hooks s); reflexivity.
Qed.

(** ** The default set *)

(** A case registered while no set is current goes into a new set named
    "default", which becomes the head of [test_sets] and the current set,
    links to the previous head, and holds exactly that case. *)
Theorem testcase_creates_default_set name body w :
  current_set w = None ->
  exists w' s, testcase name body w = Some w' /\
    test_sets w' = Some (length (w_sets w)) /\ current_set w' = Some (length (w_sets w)) /\
    w_sets w' !! length (w_sets w) = Some s /\ ts_name s = "default" /\ ts_count s = 1 /\
    ts_cases s = Some (length (w_cases w)) /\ ts_tail s = Some (length (w_cases w)) /\
    ts_next s = test_sets w /\ w_cases w' !! length (w_cases w) = Some (with_func body false false (create_testcase name)).
Proof.
  intros Hc. unfold testcase, register_case. rewrite Hc. simpl.
  rewrite lookup_app_r, Nat.sub_diag by lia. simpl.
  unfold update_set. simpl. rewrite lookup_app_r, Nat.sub_diag by lia. simpl.
  do 2 eexists. split; [reflexivity|]. simpl.
  split; [reflexivity|]. split; [reflexivity|]. split.
  - rewrite list_lookup_insert_eq by (rewrite length_app; simpl; lia). reflexivity.
  - simpl. repeat split; try reflexivity.
    rewrite lookup_app_r, Nat.sub_diag by lia. reflexivity.
Qed.

(** A run leaves the registry as it found it: the list of sets, each
    set's case sequence, [tail] and [count], and every case's [next]. *)
Theorem run_tests_keeps_registry sets th w code w' :
  run_tests sets th w = Some (code, w') ->
  set_links w' = set_links w /\ shape w' = shape w.
Proof.
  intros H. split; [exact (run_tests_links _ _ _ _ _ H)|exact (run_tests_shape _ _ _ _ _ H)].
Qed.

(* ------------------------------------------------------------------ *)
(** ** Instances of the properties above *)

Lemma int_equal_not_equal_complement_witness :
  (OpChar = OpInt \/ OpChar = OpChar \/ OpChar = OpPtr) /\
  (fst (assert_outcome (AreEqual (OpChar 97 97) None)) = PASS <-> 97 = 97) /\
  (fst (assert_outcome (AreNotEqual (OpChar 97 97) None)) = PASS <-> 97 <> 97).
Proof.
  assert (Hk : OpChar = OpInt \/ OpChar = OpChar \/ OpChar = OpPtr) by (right; left; reflexivity).
  split; [exact Hk|]. exact (int_equal_not_equal_complement OpChar 97 97 None None Hk).
Defined.

Lemma string_equal_case_sensitivity_witness :
  1 <> 0 /\
  (fst (assert_outcome (StringEqual "Abc" "abc" 1 None)) = PASS <-> "Abc"%string = "abc"%string) /\
  (fst (assert_outcome (StringEqual "Abc" "abc" 1 None)) = PASS ->
   fst (assert_outcome (StringEqual "Abc" "abc" 0 None)) = PASS).
Proof.
  assert (H : 1 <> 0) by lia.
  split; [exact H|]. exact (string_equal_case_sensitivity "Abc" "abc" 1 None None H).
Defined.

Lemma assert_message_fits_buffer_witness :
  exists m, snd (assert_outcome (AreEqual (OpInt 5 6) (Some "sum of 2 and 3"))) = Some m /\
    (String.length m <= 255)%nat.
Proof.
  eexists. split; [vm_compute; reflexivity|].
  apply (assert_message_fits_buffer (AreEqual (OpInt 5 6) (Some "sum of 2 and 3"))).
  vm_compute. reflexivity.
Defined.

Lemma cases_run_in_registration_order_witness :
  exists w s,
    register_all [RTestset "A" None; RTestcase "a1" []; RTestcase "a2" []; RTestcase "a3" []]
      init_world = Some w /\
    w_sets w !! 0%nat = Some s /\ chain (next_fields w) (ts_cases s) [0; 1; 2]%nat /\
    (0 < 2)%nat /\ [0; 1; 2]%nat !! 0%nat = Some 0%nat /\ [0; 1; 2]%nat !! 2%nat = Some 2%nat /\
    (0 < 2)%nat.
Proof.
  let v := eval vm_compute in
    (register_all [RTestset "A" None; RTestcase "a1" []; RTestcase "a2" []; RTestcase "a3" []]
       init_world) in
  match v with Some ?w => exists w; match eval vm_compute in (w_sets w !! 0%nat) with
                                    | Some ?s => exists s end end.
  match goal with |- ?A /\ ?B /\ ?C /\ _ =>
    assert (H1 : A) by (vm_compute; reflexivity);
    assert (H2 : B) by (vm_compute; reflexivity);
    assert (H3 : C) by (simpl; repeat (eapply chain_cons; [reflexivity|]); constructor)
  end.
  assert (Hr : Reachable _) by (eapply register_all_reachable; [exact reach_init|exact H1]).
  split; [exact H1|]. split; [exact H2|]. split; [exact H3|].
  split; [lia|]. split; [reflexivity|]. split; [reflexivity|].
  exact (cases_run_in_registration_order _ 0 _ _ 0 2 0 2 Hr H2 H3 ltac:(lia) eq_refl eq_refl).
Defined.

Lemma sets_listed_newest_first_witness :
  exists w,
    register_all [RTestset "A" None; RTestcase "a1" []; RTestset "B" None; RTestset "C" None]
      init_world = Some w /\
    (chain (ts_next <$> w_sets w) (test_sets w) (rev (seq 0 (length (w_sets w)))) /\
     (forall th w' tot hooks, runner_init (test_sets w) th w = Some (w', tot, hooks) ->
        tot = Z.of_nat (length (w_sets w)))).
Proof.
  let v := eval vm_compute in
    (register_all [RTestset "A" None; RTestcase "a1" []; RTestset "B" None; RTestset "C" None]
       init_world) in
  match v with Some ?w => exists w end.
  match goal with |- ?A /\ _ => assert (H1 : A) by (vm_compute; reflexivity) end.
  split; [exact H1|].
  apply sets_listed_newest_first.
  eapply register_all_reachable; [exact reach_init|exact H1].
Defined.

Lemma failure_status_is_sticky_witness :
  exists w w1 code w2,
    register_all [RTestset "S" None; RTestcase "t" [SAssert (Fail None)]] init_world = Some w /\
    run_tests (test_sets w) (current_hooks w) w = Some (1, w1) /\
    run_tests (test_sets w) (current_hooks w) w1 = Some (code, w2) /\ code = 1.
Proof.
  let v := eval vm_compute in
    (register_all [RTestset "S" None; RTestcase "t" [SAssert (Fail None)]] init_world) in
  match v with Some ?w => exists w end.
  do 3 eexists.
  match goal with |- _ /\ run_tests ?a ?b ?x = Some (_, ?e1) /\ _ =>
    let v := eval vm_compute in (run_tests a b x) in
    match v with Some (_, ?y1) => unify e1 y1 end end.
  match goal with |- _ /\ _ /\ run_tests ?a ?b ?x = Some (?e1, ?e2) /\ _ =>
    let v := eval vm_compute in (run_tests a b x) in
    match v with Some (?y1, ?y2) => unify e1 y1; unify e2 y2 end end.
  match goal with |- ?A /\ ?B /\ ?C /\ _ =>
    assert (H1 : A) by (vm_compute; reflexivity);
    assert (H2 : B) by (vm_compute; reflexivity);
    assert (H3 : C) by (vm_compute; reflexivity) end.
  split; [exact H1|]. split; [exact H2|]. split; [exact H3|].
  exact (failure_status_is_sticky _ _ _ _ _ _ H2 H3).
Defined.

Lemma run_counters_consistent_witness :
  exists w m,
    register_all [RTestset "S" None; RTestcase "p" []; RTestcase "f" [SAssert (Fail None)];
                  RTestcase "k" [SAssert (Skip None)]] init_world = Some w /\
    steps (test_sets w) (current_hooks w) 40 (init_machine (test_sets w) w) = Some m /\
    tc_total m = 3 /\ tc_total m = tc_passed m + tc_failed m + tc_skipped m.
Proof.
  let v := eval vm_compute in
    (register_all [RTestset "S" None; RTestcase "p" []; RTestcase "f" [SAssert (Fail None)];
                   RTestcase "k" [SAssert (Skip None)]] init_world) in
  match v with Some ?w => exists w end.
  eexists.
  match goal with |- _ /\ steps ?a ?b ?n ?x = Some ?e /\ _ =>
    let v := eval vm_compute in (steps a b n x) in
    match v with Some ?y => unify e y end end.
  match goal with |- ?A /\ ?B /\ ?C /\ _ =>
    assert (H1 : A) by (vm_compute; reflexivity);
    assert (H2 : B) by (vm_compute; reflexivity);
    assert (H3 : C) by (vm_compute; reflexivity) end.
  split; [exact H1|]. split; [exact H2|]. split; [exact H3|].
  eapply run_counters_consistent.
  eapply steps_run_reachable; [|exact H2].
  apply run_start. eapply register_all_reachable; [exact reach_init|exact H1].
Defined.

Lemma init_hooks_register_roundtrip_witness :
  exists w1 w2,
    init_hooks (Some "json") init_world = Some (w1, Some 1%nat) /\
    register_hooks (Some 1%nat) w1 = Some w2 /\
    init_hooks (Some "json") w2 = Some (w2, Some 1%nat).
Proof.
  match eval vm_compute in (init_hooks (Some "json") init_world) with
  | Some (?w1, _) => exists w1;
      match eval vm_compute in (register_hooks (Some 1%nat) w1) with
      | Some ?w2 => exists w2 end end.
  match goal with |- ?A /\ ?B /\ _ =>
    assert (H1 : A) by (vm_compute; reflexivity);
    assert (H2 : B) by (vm_compute; reflexivity) end.
  split; [exact H1|]. split; [exact H2|].
  exact (init_hooks_register_roundtrip _ _ _ _ _ H1 H2).
Defined.

Lemma init_hooks_fresh_until_registered_witness :
  exists w1 w2,
    init_hooks (Some "json") init_world = Some (w1, Some 1%nat) /\
    init_hooks (Some "json") w1 = Some (w2, Some 2%nat) /\
    ((1%nat = 2%nat <-> w1 = init_world) /\ (w1 = init_world -> w2 = init_world) /\
     (w1 <> init_world ->
        1%nat = length (w_hooks init_world) /\
        w_hooks w1 = (w_hooks init_world ++ [fresh_hooks "json"])%list /\
        2%nat = length (w_hooks w1) /\ w_hooks w2 = (w_hooks w1 ++ [fresh_hooks "json"])%list /\
        hook_registry w2 = hook_registry init_world)).
Proof.
  match eval vm_compute in (init_hooks (Some "json") init_world) with
  | Some (?w1, _) => exists w1;
      match eval vm_compute in (init_hooks (Some "json") w1) with
      | Some (?w2, _) => exists w2 end end.
  match goal with |- ?A /\ ?B /\ _ =>
    assert (H1 : A) by (vm_compute; reflexivity);
    assert (H2 : B) by (vm_compute; reflexivity) end.
  split; [exact H1|]. split; [exact H2|].
  exact (init_hooks_fresh_until_registered _ _ _ _ _ _ H1 H2).
Defined.

Lemma register_hooks_first_wins_for_set_witness :
  exists w s w1 w2,
    register_all [RDefineHooks empty_hooks; RDefineHooks default_hooks; RTestset "S" None]
      init_world = Some w /\
    current_set w = Some 0%nat /\ w_sets w !! 0%nat = Some s /\
    register_hooks (Some 1%nat) w = Some w1 /\ register_hooks (Some 2%nat) w1 = Some w2 /\
    (current_hooks w2 = Some 2%nat /\
     hook_registry w2 = Some 2%nat :: Some 1%nat :: hook_registry w /\
     exists s2, w_sets w2 !! 0%nat = Some s2 /\
       ts_hooks s2 = match ts_hooks s with Some h => Some h | None => Some 1%nat end).
Proof.
  match eval vm_compute in
    (register_all [RDefineHooks empty_hooks; RDefineHooks default_hooks; RTestset "S" None]
       init_world) with
  | Some ?w => exists w;
      match eval vm_compute in (w_sets w !! 0%nat) with Some ?s => exists s end;
      match eval vm_compute in (register_hooks (Some 1%nat) w) with
      | Some ?w1 => exists w1;
          match eval vm_compute in (register_hooks (Some 2%nat) w1) with
          | Some ?w2 => exists w2 end end end.
  match goal with |- ?A /\ ?B /\ ?C /\ ?D /\ ?E /\ _ =>
    assert (H1 : A) by (vm_compute; reflexivity);
    assert (H2 : B) by (vm_compute; reflexivity);
    assert (H3 : C) by (vm_compute; reflexivity);
    assert (H4 : D) by (vm_compute; reflexivity);
    assert (H5 : E) by (vm_compute; reflexivity) end.
  split; [exact H1|]. split; [exact H2|]. split; [exact H3|]. split; [exact H4|].
  split; [exact H5|].
  exact (register_hooks_first_wins_for_set _ _ _ _ _ _ _ H2 H3 H4 H5).
Defined.

Lemma testcase_creates_default_set_witness :
  current_set init_world = None /\
  exists w' s, testcase "t" [] init_world = Some w' /\
    test_sets w' = Some (length (w_sets init_world)) /\
    current_set w' = Some (length (w_sets init_world)) /\
    w_sets w' !! length (w_sets init_world) = Some s /\ ts_name s = "default" /\ ts_count s = 1 /\
    ts_cases s = Some (length (w_cases init_world)) /\ ts_tail s = Some (length (w_cases init_world)) /\
    ts_next s = test_sets init_world /\
    w_cases w' !! length (w_cases init_world) = Some (with_func [] false false (create_testcase "t")).
Proof.
  assert (H : current_set init_world = None) by reflexivity.
  split; [exact H|]. exact (testcase_creates_default_set "t" [] init_world H).
Defined.

Lemma run_tests_keeps_registry_witness :
  exists w code w',
    register_all [RTestset "A" None; RTestcase "a1" [SAssert (Fail None)]; RTestset "B" None;
                  RTestcase "b1" []] init_world = Some w /\
    run_tests (test_sets w) (current_hooks w) w = Some (code, w') /\
    (set_links w' = set_links w /\ shape w' = shape w).
Proof.
  let v := eval vm_compute in
    (register_all [RTestset "A" None; RTestcase "a1" [SAssert (Fail None)]; RTestset "B" None;
                   RTestcase "b1" []] init_world) in
  match v with Some ?w => exists w end.
  do 2 eexists.
  match goal with |- _ /\ run_tests ?a ?b ?x = Some (?e1, ?e2) /\ _ =>
    let v := eval vm_compute in (run_tests a b x) in
    match v with Some (?y1, ?y2) => unify e1 y1; unify e2 y2 end end.
  match goal with |- ?A /\ ?B /\ _ =>
    assert (H1 : A) by (vm_compute; reflexivity);
    assert (H2 : B) by (vm_compute; reflexivity) end.
  split; [exact H1|]. split; [exact H2|].
  exact (run_tests_keeps_registry _ _ _ _ _ H2).
Defined.
